(** * Debug session engine: a shallow embedding and its verified properties

    The development follows the Python sources
    - [backend/utils/debug.py]             (bridge, output parser, session),
    - [backend/utils/debug_tree_source.py] (variable inspector),
    - [backend/server/ws.py]               (session protocol gateway).

    Python [str] values are modelled as lists of characters whose code points
    lie in 0..255; Python [int] values as [Z]. *)

From Stdlib Require Import ZArith Ascii String List Bool Lia DecimalString.
From stdpp Require Import base decidable option list gmap.
Import ListNotations.

Set Warnings "-register-all".

Open Scope Z_scope.

(** ** Text primitives of the Python runtime *)

Module PyStr.

Definition text := list ascii.

Definition str (s : string) : text := list_ascii_of_string s.

Definition newline : ascii := ascii_of_nat 10.
Definition dquote : ascii := ascii_of_nat 34.

Definition ceq (a b : ascii) : bool := Ascii.eqb a b.

(** [str.isspace] on the code points 0..255: TAB..CR, FS..US, SPACE, NEL,
    NBSP.  This is the class [\s] of [re] on [str] patterns. *)
Definition is_space (c : ascii) : bool :=
  let n := nat_of_ascii c in
  ((9 <=? n) && (n <=? 13) || (28 <=? n) && (n <=? 32)
   || (n =? 133) || (n =? 160))%nat.

(** The class [\d] on the code points 0..255. *)
Definition is_digit (c : ascii) : bool :=
  let n := nat_of_ascii c in ((48 <=? n) && (n <=? 57))%nat.

Definition digit_value (c : ascii) : Z := Z.of_nat (nat_of_ascii c) - 48.

(** The number a run of decimal digits denotes. *)
Definition int_of_digits (s : text) : Z :=
  fold_left (fun acc c => 10 * acc + digit_value c) s 0.

(** ["%d" % n] *)
Definition fmt_d (n : Z) : text := str (NilZero.string_of_int (Z.to_int n)).

Fixpoint text_eqb (a b : text) : bool :=
  match a, b with
  | [], [] => true
  | c :: a', d :: b' => ceq c d && text_eqb a' b'
  | _, _ => false
  end.

(** [s.startswith(p)] *)
Fixpoint startswith (s p : text) {struct p} : bool :=
  match p with
  | [] => true
  | c :: p' =>
      match s with
      | [] => false
      | d :: s' => ceq c d && startswith s' p'
      end
  end.

(** [s.endswith(p)] *)
Definition endswith (s p : text) : bool := startswith (rev s) (rev p).

(** [s.find(p)]: the lowest index at which [p] occurs in [s]. *)
Fixpoint find (s p : text) : option nat :=
  if startswith s p then Some 0%nat
  else match s with
       | [] => None
       | _ :: s' => S <$> find s' p
       end.

(** [p in s] *)
Definition contains (s p : text) : bool :=
  match find s p with Some _ => true | None => false end.

Fixpoint replace_from (skip : nat) (s old new : text) : text :=
  match s with
  | [] => []
  | c :: s' =>
      match skip with
      | S k => replace_from k s' old new
      | O =>
          if startswith s old
          then new ++ replace_from (length old - 1) s' old new
          else c :: replace_from 0 s' old new
      end
  end.

(** [s.replace(old, new)]: the occurrences are taken left to right and do
    not overlap; an empty [old] matches before every character and at the
    end. *)
Definition replace (s old new : text) : text :=
  match old with
  | [] => new ++ flat_map (fun c => c :: new) s
  | _ :: _ => replace_from 0 s old new
  end.

(** [s.split("\n")] *)
Fixpoint split_lines (s : text) : list text :=
  match s with
  | [] => [[]]
  | c :: s' =>
      if ceq c newline then [] :: split_lines s'
      else match split_lines s' with
           | l :: ls => (c :: l) :: ls
           | [] => [[c]]
           end
  end.

(** [sep.join(ls)] *)
Fixpoint join (sep : text) (ls : list text) : text :=
  match ls with
  | [] => []
  | l :: ls' =>
      match ls' with
      | [] => l
      | _ :: _ => l ++ sep ++ join sep ls'
      end
  end.

Fixpoint lstrip (s : text) : text :=
  match s with
  | c :: s' => if is_space c then lstrip s' else s
  | [] => []
  end.

(** [s.rstrip()] and [s.strip()] *)
Definition rstrip (s : text) : text := rev (lstrip (rev s)).
Definition strip (s : text) : text := rstrip (lstrip s).

(** [l[:n]] for a Python integer [n] (a negative [n] counts from the end). *)
Definition slice_to {A} (l : list A) (n : Z) : list A :=
  if n <? 0 then take (Z.to_nat (Z.of_nat (length l) + n)) l
  else take (Z.to_nat n) l.

(** [len(l)] *)
Definition len {A} (l : list A) : Z := Z.of_nat (length l).

End PyStr.
Import PyStr.

(** ** Exceptions and the results of calls *)

Module Exceptions.

(** The exceptions met in the sources.  [JSONDecodeError] is a subclass of
    [ValueError]; all but [SystemExit] are subclasses of [Exception], and
    [SystemExit] stands for every exception that is not ([KeyboardInterrupt]
    and [GeneratorExit] as well). *)
Inductive exn : Type :=
| Exception (msg : text)
| RuntimeError (msg : text)
| AssertionError
| UnboundLocalError
| AttributeError
| KeyError
| IndexError
| TypeError
| ValueError
| JSONDecodeError
| SyntaxError
| FileNotFoundError
| NotImplementedError
| SystemExit.

(** [isinstance(e, Exception)]: what [except Exception] catches. *)
Definition is_exception (e : exn) : bool :=
  match e with
  | SystemExit => false
  | _ => true
  end.

(** The result of a call: a value, an exception, or the call still running
    when the bound on its iterations was reached (the loop of
    [_step_over_and_capture_calls] when [fuel] ran out, or an evaluation
    that does not return). *)
Inductive outcome (A : Type) : Type :=
| Ok (a : A)
| Raise (e : exn)
| OutOfFuel.
Arguments Ok {A} a.
Arguments Raise {A} e.
Arguments OutOfFuel {A}.

Definition outcome_bind {A B} (o : outcome A) (k : A -> outcome B)
  : outcome B :=
  match o with
  | Ok a => k a
  | Raise e => Raise e
  | OutOfFuel => OutOfFuel
  end.

Definition outcome_map {A B} (f : A -> B) (o : outcome A) : outcome B :=
  outcome_bind o (fun a => Ok (f a)).

(** [sys.get_int_max_str_digits()] *)
Definition INT_MAX_STR_DIGITS : Z := 4300.

(** [int(s)] on a run of decimal digits: a run of more than 4300 digits,
    leading zeros included, raises [ValueError]. *)
Definition py_int (s : text) : outcome Z :=
  if INT_MAX_STR_DIGITS <? len s then Raise ValueError
  else Ok (int_of_digits s).

End Exceptions.
Import Exceptions.

(** ** A backtracking matcher for the fragment of [re] the parser uses

    Repetition is only ever applied to a character class, so [Star] and
    [Plus] take the class itself.  Alternatives are tried left to right and
    repetitions longest first, which is the priority order of [re]. *)

Module Re.

Inductive regex : Type :=
| Eps
| Class (p : ascii -> bool)
| Star (p : ascii -> bool)
| Plus (p : ascii -> bool)
| Cat (r1 r2 : regex)
| Alt (r1 r2 : regex)
| Group (r : regex).

Section Matcher.
Context {R : Type}.

Fixpoint star (p : ascii -> bool) (s : text) (caps : list text)
         (k : text -> list text -> option R) : option R :=
  match s with
  | c :: s' =>
      if p c then
        match star p s' caps k with
        | Some x => Some x
        | None => k s caps
        end
      else k s caps
  | [] => k s caps
  end.

Fixpoint run (r : regex) (s : text) (caps : list text)
         (k : text -> list text -> option R) : option R :=
  match r with
  | Eps => k s caps
  | Class p =>
      match s with
      | c :: s' => if p c then k s' caps else None
      | [] => None
      end
  | Star p => star p s caps k
  | Plus p =>
      match s with
      | c :: s' => if p c then star p s' caps k else None
      | [] => None
      end
  | Cat r1 r2 => run r1 s caps (fun s' caps' => run r2 s' caps' k)
  | Alt r1 r2 =>
      match run r1 s caps k with
      | Some x => Some x
      | None => run r2 s caps k
      end
  | Group r1 =>
      run r1 s caps
          (fun s' caps' => k s' (caps' ++ [take (length s - length s') s]))
  end.
End Matcher.

(** [pattern.match(s)]: anchored at the start of [s]; the result is the
    list of the groups' texts, in the order of the groups. *)
Definition match_ (r : regex) (s : text) : option (list text) :=
  run r s [] (fun _ caps => Some caps).

Definition chr (c : ascii) : regex := Class (ceq c).
Definition not_in (cs : list ascii) (ws : bool) (c : ascii) : bool :=
  negb (existsb (ceq c) cs) && negb (ws && is_space c).

Fixpoint lit (s : text) : regex :=
  match s with
  | [] => Eps
  | c :: s' => Cat (chr c) (lit s')
  end.

Fixpoint seq (rs : list regex) : regex :=
  match rs with
  | [] => Eps
  | r :: rs' => Cat r (seq rs')
  end.

End Re.

(** ** The output parser ([parse_pdb_output]) *)

Module Parser.
Import Re.

Definition PDB_PROMPT : text := str "(Pdb) ".
Definition CALL_PATTERN : text := str "--Call--".
Definition RETURN_PATTERN : text := str "--Return--".
Definition PROGRAM_FINISHED_PATTERN : text :=
  str "The program finished and will be restarted".

(** [(?:\s{2}|>\s)] *)
Definition frame_lead : regex :=
  Alt (Cat (Class is_space) (Class is_space)) (Cat (chr ">") (Class is_space)).

(** [^(?:\s{2}|>\s)([^(\s]+)\((\d+)\)([^\n]+)\n->([^\n]+)\n] *)
Definition FRAME_WITH_CODE_PATTERN : regex :=
  seq [ frame_lead;
        Group (Plus (not_in ["("%char] true));
        chr "("; Group (Plus is_digit); chr ")";
        Group (Plus (not_in [newline] false));
        chr newline; lit (str "->");
        Group (Plus (not_in [newline] false));
        chr newline ].

(** [^(?:\s{2}|>\s)<([^>]+)>\((\d+)\)(.+)] *)
Definition FRAME_STRING_PATTERN : regex :=
  seq [ frame_lead;
        chr "<"; Group (Plus (not_in [">"%char] false)); chr ">";
        chr "("; Group (Plus is_digit); chr ")";
        Group (Plus (not_in [newline] false)) ].

(** [^\s*>] *)
Definition re_arrow : regex := seq [ Star is_space; chr ">" ].
(** [^\s+[^(]+\(\d+\)] *)
Definition re_header : regex :=
  seq [ Plus is_space; Plus (not_in ["("%char] false);
        chr "("; Plus is_digit; chr ")" ].
(** [^\s*\d+\s+] *)
Definition re_listing : regex :=
  seq [ Star is_space; Plus is_digit; Plus is_space ].

Definition matches (r : regex) (s : text) : bool :=
  match match_ r s with Some _ => true | None => false end.

(** The test of the scan for the first frame line. *)
Definition looks_like_frame (line : text) : bool :=
  (matches re_arrow line || matches re_header line)
  && negb (matches re_listing line).

Record Frame : Type := mkFrame {
  file : text;
  line : Z;
  code : option text;
  is_current : bool;
  function : text;
  retval : option text
}.

(** [_get_function_name_and_retval] *)
Definition _get_function_name_and_retval (function_name : text)
  : text * option text :=
  match find function_name (str "->") with
  | Some idx => (take idx function_name, Some (drop (idx + 2) function_name))
  | None => (function_name, None)
  end.

(** The [for] loop that sets [frame_start_idx]. *)
Fixpoint find_frame_start (lines : list text) : option nat :=
  match lines with
  | [] => None
  | l :: ls =>
      if looks_like_frame l then Some 0%nat
      else S <$> find_frame_start ls
  end.

(** The frame built from [match1], when [FRAME_WITH_CODE_PATTERN] matches
    the two lines [joined]. *)
Definition frame_with_code (line joined : text) : option (outcome Frame) :=
  match match_ FRAME_WITH_CODE_PATTERN joined with
  | Some [g1; g2; g3; g4] =>
      Some (outcome_map
              (fun n =>
                 let fr := _get_function_name_and_retval g3 in
                 mkFrame g1 n (Some g4) (startswith line (str ">"))
                         (fst fr) (snd fr))
              (py_int g2))
  | _ => None
  end.

(** The frame built from [match2], when [FRAME_STRING_PATTERN] matches. *)
Definition frame_string (line : text) : option (outcome Frame) :=
  match match_ FRAME_STRING_PATTERN line with
  | Some [g1; g2; g3] =>
      Some (outcome_map
              (fun n =>
                 let fr := _get_function_name_and_retval g3 in
                 mkFrame g1 n None (startswith line (str ">"))
                         (fst fr) (snd fr))
              (py_int g2))
  | _ => None
  end.

(** [frames.append(frame)] before the rest of the loop, when building
    [frame] did not raise. *)
Definition append_frame (frame : outcome Frame) (rest : outcome (list Frame))
  : outcome (list Frame) :=
  outcome_bind frame (fun f => outcome_map (cons f) rest).

(** The [while i < len(frame_lines)] loop; [frame_lines] is the part of
    the list from [i] on. *)
Fixpoint parse_frames (frame_lines : list text) : outcome (list Frame) :=
  match frame_lines with
  | [] => Ok []
  | l :: rest =>
      match frame_with_code
              l (join [newline] (take 2 frame_lines) ++ [newline]) with
      | Some frame =>
          append_frame frame
                       match rest with
                       | [] => Ok []
                       | _ :: rest' => parse_frames rest'
                       end
      | None =>
          match frame_string l with
          | Some frame => append_frame frame (parse_frames rest)
          | None => parse_frames rest
          end
      end
  end.

Definition parse_pdb_output (output_text : text)
  : outcome (text * list Frame) :=
  let lines := split_lines output_text in
  match find_frame_start lines with
  | Some frame_start_idx =>
      outcome_map (pair (join [newline] (take frame_start_idx lines)))
                  (parse_frames (drop frame_start_idx lines))
  | None => Ok (output_text, [])
  end.

End Parser.


(** ** JSON values and the two decoders of [get_local_vars]

    [json.loads] is modelled by a recursive-descent reader of the JSON
    grammar; [eval] by a reader of one Python string literal (which is what
    the debugger's [p] command prints for a string), every other text being
    left to a parameter of the session. *)

Module Json.

Inductive json : Type :=
| JNull
| JBool (b : bool)
| JInt (n : Z)
| JFloat (lit : text)
| JStr (s : text)
| JArr (items : list json)
| JObj (members : list (text * json)).

(** [d[k] = v] on a dict kept in insertion order. *)
Fixpoint dict_set {V} (d : list (text * V)) (k : text) (v : V)
  : list (text * V) :=
  match d with
  | [] => [(k, v)]
  | (k', v') :: d' =>
      if text_eqb k' k then (k', v) :: d' else (k', v') :: dict_set d' k v
  end.

Fixpoint dict_get {V} (d : list (text * V)) (k : text) : option V :=
  match d with
  | [] => None
  | (k', v') :: d' => if text_eqb k' k then Some v' else dict_get d' k
  end.

Definition is_json_ws (c : ascii) : bool :=
  let n := nat_of_ascii c in
  ((n =? 32) || (n =? 9) || (n =? 10) || (n =? 13))%nat.

Fixpoint skip_ws (s : text) : text :=
  match s with
  | c :: s' => if is_json_ws c then skip_ws s' else s
  | [] => []
  end.

Definition hex_value (c : ascii) : option nat :=
  let n := nat_of_ascii c in
  if ((48 <=? n) && (n <=? 57))%nat then Some (n - 48)%nat
  else if ((97 <=? n) && (n <=? 102))%nat then Some (n - 87)%nat
  else if ((65 <=? n) && (n <=? 70))%nat then Some (n - 55)%nat
  else None.

Fixpoint span (p : ascii -> bool) (s : text) : text * text :=
  match s with
  | c :: s' =>
      if p c then let '(a, b) := span p s' in (c :: a, b) else ([], s)
  | [] => ([], [])
  end.

(** The characters of a JSON string after its opening quote, up to and
    including the closing quote.  An escape that denotes a code point
    above 255 has no counterpart in [text] and is rejected. *)
Fixpoint read_json_string (s : text) : option (text * text) :=
  match s with
  | [] => None
  | c :: s1 =>
      if ceq c dquote then Some ([], s1)
      else if ceq c "\" then
        match s1 with
        | e :: s2 =>
            let simple (x : ascii) :=
              (fun r => (x :: fst r, snd r)) <$> read_json_string s2 in
            if ceq e dquote then simple dquote
            else if ceq e "\" then simple "\"%char
            else if ceq e "/" then simple "/"%char
            else if ceq e "b" then simple (ascii_of_nat 8)
            else if ceq e "f" then simple (ascii_of_nat 12)
            else if ceq e "n" then simple (ascii_of_nat 10)
            else if ceq e "r" then simple (ascii_of_nat 13)
            else if ceq e "t" then simple (ascii_of_nat 9)
            else if ceq e "u" then
              match s2 with
              | h1 :: h2 :: h3 :: h4 :: s3 =>
                  match hex_value h1, hex_value h2,
                        hex_value h3, hex_value h4 with
                  | Some 0%nat, Some 0%nat, Some a, Some b =>
                      (fun r => (ascii_of_nat (16 * a + b) :: fst r, snd r))
                        <$> read_json_string s3
                  | _, _, _, _ => None
                  end
              | _ => None
              end
            else None
        | [] => None
        end
      else if (nat_of_ascii c <? 32)%nat then None
      else (fun r => (c :: fst r, snd r)) <$> read_json_string s1
  end.

(** [None] of a reader stands for [JSONDecodeError]. *)
Definition decoded {A} (o : option A) : outcome A :=
  match o with
  | Some a => Ok a
  | None => Raise JSONDecodeError
  end.

(** A JSON number: optional sign, integer part without leading zeros,
    optional fraction, optional exponent.  Without fraction and exponent
    it is read by [int], otherwise as a [float] kept as its literal. *)
Definition read_json_number (s : text) : outcome (json * text) :=
  let '(sign, s1) :=
    match s with
    | c :: s' => if ceq c "-" then ([c], s') else ([], s)
    | [] => ([], s)
    end in
  let '(ip, s2) := span is_digit s1 in
  match ip with
  | [] => Raise JSONDecodeError
  | d :: ds =>
      let s2' := if ceq d "0" then ds ++ s2 else s2 in
      let ip' := if ceq d "0" then [d] else ip in
      let '(frac, s3) :=
        match s2' with
        | c :: t =>
            if ceq c "." then
              let '(fd, t') := span is_digit t in
              match fd with [] => ([], s2') | _ => (c :: fd, t') end
            else ([], s2')
        | [] => ([], s2')
        end in
      let '(ex, s4) :=
        match s3 with
        | c :: t =>
            if ceq c "e" || ceq c "E" then
              let '(sg, t1) :=
                match t with
                | g :: t' =>
                    if ceq g "+" || ceq g "-" then ([g], t') else ([], t)
                | [] => ([], t)
                end in
              let '(ed, t2) := span is_digit t1 in
              match ed with [] => ([], s3) | _ => (c :: sg ++ ed, t2) end
            else ([], s3)
        | [] => ([], s3)
        end in
      match frac, ex with
      | [], [] =>
          outcome_map (fun n => (JInt (if sign is [] then n else - n), s4))
                      (py_int ip')
      | _, _ => Ok (JFloat (sign ++ ip' ++ frac ++ ex), s4)
      end
  end.

(** One JSON value, then the elements of an array after a value was
    read, then the members of an object.  [fuel] bounds the number of
    nested calls; twice the length of the text plus a constant is always
    enough, since every second call consumes a character.  The nesting of
    the text is taken to stay within the recursion limit of the
    interpreter. *)
Fixpoint read_value (fuel : nat) (s : text) : outcome (json * text) :=
  match fuel with
  | O => OutOfFuel
  | S f =>
      match skip_ws s with
      | [] => Raise JSONDecodeError
      | c :: s1 =>
          if ceq c dquote then
            decoded ((fun r => (JStr (fst r), snd r)) <$> read_json_string s1)
          else if ceq c "[" then
            match skip_ws s1 with
            | d :: s2 =>
                if ceq d "]" then Ok (JArr [], s2)
                else read_elements f (skip_ws s1) []
            | [] => Raise JSONDecodeError
            end
          else if ceq c "{" then
            match skip_ws s1 with
            | d :: s2 =>
                if ceq d "}" then Ok (JObj [], s2)
                else read_members f (skip_ws s1) []
            | [] => Raise JSONDecodeError
            end
          else if startswith (c :: s1) (str "null")
          then Ok (JNull, drop 4 (c :: s1))
          else if startswith (c :: s1) (str "true")
          then Ok (JBool true, drop 4 (c :: s1))
          else if startswith (c :: s1) (str "false")
          then Ok (JBool false, drop 5 (c :: s1))
          else if startswith (c :: s1) (str "NaN")
          then Ok (JFloat (str "NaN"), drop 3 (c :: s1))
          else if startswith (c :: s1) (str "Infinity")
          then Ok (JFloat (str "Infinity"), drop 8 (c :: s1))
          else if startswith (c :: s1) (str "-Infinity")
          then Ok (JFloat (str "-Infinity"), drop 9 (c :: s1))
          else read_json_number (c :: s1)
      end
  end
with read_elements (fuel : nat) (s : text) (acc : list json)
  : outcome (json * text) :=
  match fuel with
  | O => OutOfFuel
  | S f =>
      match read_value f s with
      | Ok (v, s1) =>
          match skip_ws s1 with
          | c :: s2 =>
              if ceq c "," then read_elements f s2 (acc ++ [v])
              else if ceq c "]" then Ok (JArr (acc ++ [v]), s2)
              else Raise JSONDecodeError
          | [] => Raise JSONDecodeError
          end
      | Raise e => Raise e
      | OutOfFuel => OutOfFuel
      end
  end
with read_members (fuel : nat) (s : text) (acc : list (text * json))
  : outcome (json * text) :=
  match fuel with
  | O => OutOfFuel
  | S f =>
      match skip_ws s with
      | q :: s0 =>
          if ceq q dquote then
            match read_json_string s0 with
            | Some (k, s1) =>
                match skip_ws s1 with
                | c :: s2 =>
                    if ceq c ":" then
                      match read_value f s2 with
                      | Ok (v, s3) =>
                          match skip_ws s3 with
                          | d :: s4 =>
                              if ceq d ","
                              then read_members f s4 (dict_set acc k v)
                              else if ceq d "}"
                              then Ok (JObj (dict_set acc k v), s4)
                              else Raise JSONDecodeError
                          | [] => Raise JSONDecodeError
                          end
                      | Raise e => Raise e
                      | OutOfFuel => OutOfFuel
                      end
                    else Raise JSONDecodeError
                | [] => Raise JSONDecodeError
                end
            | None => Raise JSONDecodeError
            end
          else Raise JSONDecodeError
      | [] => Raise JSONDecodeError
      end
  end.

(** [json.loads(s)] *)
Definition json_loads (s : text) : outcome json :=
  match read_value (2 * length s + 4) s with
  | Ok (v, rest) =>
      if skip_ws rest is [] then Ok v else Raise JSONDecodeError
  | Raise e => Raise e
  | OutOfFuel => OutOfFuel
  end.

(** The body of a Python string literal opened by [q], up to its closing
    quote; [None] when the text is not one of the escapes modelled. *)
Fixpoint read_py_literal (q : ascii) (s : text) : option (text * text) :=
  match s with
  | [] => None
  | c :: s1 =>
      if ceq c q then Some ([], s1)
      else if ceq c newline then None
      else if ceq c "\" then
        match s1 with
        | e :: s2 =>
            let simple (x : ascii) :=
              (fun r => (x :: fst r, snd r)) <$> read_py_literal q s2 in
            if ceq e "\" then simple "\"%char
            else if ceq e "'" then simple "'"%char
            else if ceq e dquote then simple dquote
            else if ceq e "n" then simple (ascii_of_nat 10)
            else if ceq e "r" then simple (ascii_of_nat 13)
            else if ceq e "t" then simple (ascii_of_nat 9)
            else if ceq e "x" then
              match s2 with
              | h1 :: h2 :: s3 =>
                  match hex_value h1, hex_value h2 with
                  | Some a, Some b =>
                      (fun r => (ascii_of_nat (16 * a + b) :: fst r, snd r))
                        <$> read_py_literal q s3
                  | _, _ => None
                  end
              | _ => None
              end
            else None
        | [] => None
        end
      else (fun r => (c :: fst r, snd r)) <$> read_py_literal q s1
  end.

(** The value [eval(raw)] returns, as far as [get_local_vars] can tell. *)
Inductive eval_result : Type :=
| EvalStr (s : text)      (* a [str] *)
| EvalOther.              (* a value that is not a [str] *)

(** A text that is exactly one quoted literal evaluates to its contents. *)
Definition eval_literal (raw : text) : option text :=
  match raw with
  | q :: s =>
      if ceq q "'" || ceq q dquote then
        match read_py_literal q s with
        | Some (body, []) => Some body
        | _ => None
        end
      else None
  | [] => None
  end.

End Json.

(** ** The process bridge and the session ([DebugSession]) *)

Module Session.
Import Parser Json.
Export Exceptions.

(** The child process as the session sees it: the lines written so far to
    its standard input, the characters it will still write to its standard
    output before closing it, and what [poll()] answers.  The scope of the
    model: the output is a finite sequence followed by end of file, so a
    [read(1)] always answers and never waits, and the answer of [poll()]
    does not change during a run; a debuggee that stays silent without
    closing its output, and [process.wait()], are outside it. *)
Record Popen : Type := mkPopen {
  stdin : list text;
  stdout : list ascii;
  returncode : option Z
}.

(** One completed call, or the exception that ended the line. *)
Inductive CapturedCall : Type :=
| Call (function : text) (parameters : list (json * json))
       (return_value : text)
| ExceptionInfo (exception_repr : text) (traceback : list Frame).

Record Delta : Type := mkDelta {
  executed_code : text;
  context : text;
  captured_calls : list CapturedCall
}.

(** The dict built by [get_current_frame]. *)
Record CurrentFrame : Type := mkCurrentFrame {
  cf_filename : text;
  cf_function : text;
  cf_line_number : Z;
  cf_local_vars : json;
  cf_code : option text;
  cf_retval : option text
}.

(** The dict built by [get_state]. *)
Record State : Type := mkState {
  st_filename : text;
  st_line_number : Z;
  st_local_vars : json;
  st_can_step_into : bool;
  st_can_step_out : bool;
  st_is_returning : bool;
  st_is_in_main : bool;
  st_code : option text
}.

Record HistoryEntry : Type := mkEntry {
  step_type : text;
  program_output : text;
  pdb_output : text;
  current_frame : CurrentFrame;
  delta : option Delta;
  explanation : option text
}.

Record DebugSession : Type := mkSession {
  container_name : text;
  filename : text;
  code : option text;
  user_defined_function_calls : gmap Z (list text);
  execution_history : list HistoryEntry;
  process : option Popen
}.

Definition set_process (p : option Popen) (s : DebugSession) : DebugSession :=
  mkSession (container_name s) (filename s) (code s)
            (user_defined_function_calls s) (execution_history s) p.

Definition set_code (c : option text) (s : DebugSession) : DebugSession :=
  mkSession (container_name s) (filename s) c
            (user_defined_function_calls s) (execution_history s) (process s).

Definition set_history (h : list HistoryEntry) (s : DebugSession)
  : DebugSession :=
  mkSession (container_name s) (filename s) (code s)
            (user_defined_function_calls s) h (process s).

(** *** The monad of methods: state passing with exceptions *)

Definition M (A : Type) : Type := DebugSession -> outcome A * DebugSession.

Definition ret {A} (a : A) : M A := fun s => (Ok a, s).
Definition raise {A} (e : exn) : M A := fun s => (Raise e, s).
Definition bind {A B} (m : M A) (k : A -> M B) : M B :=
  fun s =>
    match m s with
    | (Ok a, s') => k a s'
    | (Raise e, s') => (Raise e, s')
    | (OutOfFuel, s') => (OutOfFuel, s')
    end.
(** [try: m  except Exception: h] *)
Definition try_except {A} (m : M A) (h : exn -> M A) : M A :=
  fun s =>
    match m s with
    | (Raise e, s') => if is_exception e then h e s' else (Raise e, s')
    | r => r
    end.
Definition lift {A} (o : outcome A) : M A := fun s => (o, s).

(** The value of a normal return. *)
Definition outcome_value {A} (o : outcome A) : option A :=
  match o with Ok a => Some a | _ => None end.

Notation "x <- m ;; k" := (bind m (fun x => k))
  (at level 100, m at next level, right associativity).
Notation "m ;;; k" := (bind m (fun _ => k))
  (at level 100, right associativity).

(** *** Process bridge *)

(** [self.process.stdin.write(cmd); self.process.stdin.flush()] *)
Definition stdin_write (cmd : text) : M unit :=
  fun s =>
    match process s with
    | Some p =>
        (Ok tt, set_process (Some (mkPopen (stdin p ++ [cmd]) (stdout p)
                                           (returncode p))) s)
    | None => (Raise AttributeError, s)
    end.

(** The [while True] loop of [_read_up_to]; [read(1)] yields the empty
    string once the stream is closed. *)
Fixpoint read_loop (pattern output : text) (out : list ascii)
  : text * list ascii :=
  match out with
  | [] => (output, [])
  | char :: rest =>
      let output' := output ++ [char] in
      if endswith output' pattern then (output', rest)
      else read_loop pattern output' rest
  end.

Definition _read_up_to (pattern : text) : M text :=
  fun s =>
    match process s with
    | Some p =>
        let '(output, rest) := read_loop pattern [] (stdout p) in
        (Ok output, set_process (Some (mkPopen (stdin p) rest (returncode p))) s)
    | None => (Raise AttributeError, s)
    end.

(** The [for pattern in (...)] loop of [_read_user_and_pdb_output]. *)
Fixpoint first_marker (patterns : list text) (raw_output program_output : text)
  : text * text :=
  match patterns with
  | [] => (program_output, [])
  | pattern :: ps =>
      match find raw_output pattern with
      | Some idx => (take idx raw_output, pattern)
      | None => first_marker ps raw_output program_output
      end
  end.

(** The part of [_read_user_and_pdb_output] after the call of the parser,
    which returned [parsed]. *)
Definition split_user_and_pdb_output (raw_output : text)
           (parsed : text * list Frame) : text * text * list Frame :=
  let '(program_output, frames) := parsed in
  let '(program_output', pdb_output) :=
    first_marker [CALL_PATTERN; RETURN_PATTERN; PROGRAM_FINISHED_PATTERN]
                 raw_output program_output in
  (program_output', pdb_output, frames).

Definition _read_user_and_pdb_output : M (text * text * list Frame) :=
  out <- _read_up_to PDB_PROMPT ;;
  let raw_output := replace out PDB_PROMPT [] in
  parsed <- lift (parse_pdb_output raw_output) ;;
  ret (split_user_and_pdb_output raw_output parsed).

Definition ensure_process_is_running : M unit :=
  fun s =>
    match process s with
    | Some p =>
        match returncode p with
        | None => (Ok tt, s)
        | Some _ => (Raise (Exception (str "Program finished")), s)
        end
    | None => (Raise (Exception (str "Program finished")), s)
    end.

(** The common shape of the [pdb_*] methods. *)
Definition command (cmd : text) : M (text * text * list Frame) :=
  ensure_process_is_running ;;;
  stdin_write (cmd ++ [newline]) ;;;
  _read_user_and_pdb_output.

Definition get_self : M DebugSession := fun s => (Ok s, s).
Definition modify (f : DebugSession -> DebugSession) : M unit :=
  fun s => (Ok tt, f s).

(** [v[k]] on decoded JSON. *)
Definition subscript (v k : json) : outcome json :=
  let at_index {A} (l : list A) (i : Z) : option A :=
    if i <? 0 then
      (if len l + i <? 0 then None else l !! Z.to_nat (len l + i))
    else l !! Z.to_nat i in
  let as_index (k : json) : option Z :=
    match k with
    | JInt i => Some i
    | JBool b => Some (if b then 1 else 0)
    | _ => None
    end in
  match v with
  | JObj members =>
      match k with
      | JStr key =>
          match dict_get members key with
          | Some x => Ok x
          | None => Raise KeyError
          end
      | JArr _ | JObj _ => Raise TypeError
      | _ => Raise KeyError
      end
  | JArr items =>
      match as_index k with
      | Some i =>
          match at_index items i with
          | Some x => Ok x
          | None => Raise IndexError
          end
      | None => Raise TypeError
      end
  | JStr chars =>
      match as_index k with
      | Some i =>
          match at_index chars i with
          | Some c => Ok (JStr [c])
          | None => Raise IndexError
          end
      | None => Raise TypeError
      end
  | _ => Raise TypeError
  end.

(** [for name in vars] *)
Definition iter_names (vars : json) : outcome (list json) :=
  match vars with
  | JObj members => Ok (map (fun kv => JStr (fst kv)) members)
  | JArr items => Ok items
  | JStr chars => Ok (map (fun c => JStr [c]) chars)
  | _ => Raise TypeError
  end.

(** [{name: vars[name]["repr_tree"]["value"] for name in vars}].  Whenever
    the comprehension completes on more than zero names, [vars] is an
    object, whose keys are pairwise distinct. *)
Fixpoint collect_params (vars : json) (names : list json)
  : outcome (list (json * json)) :=
  match names with
  | [] => Ok []
  | name :: names' =>
      match subscript vars name with
      | Ok entry =>
          match subscript entry (JStr (str "repr_tree")) with
          | Ok tree =>
              match subscript tree (JStr (str "value")) with
              | Ok value =>
                  match collect_params vars names' with
                  | Ok ps => Ok ((name, value) :: ps)
                  | Raise e => Raise e
                  | OutOfFuel => OutOfFuel
                  end
              | Raise e => Raise e
              | OutOfFuel => OutOfFuel
              end
          | Raise e => Raise e
          | OutOfFuel => OutOfFuel
          end
      | Raise e => Raise e
      | OutOfFuel => OutOfFuel
      end
  end.

Definition params_of (vars : json) : outcome (list (json * json)) :=
  match iter_names vars with
  | Ok names => collect_params vars names
  | Raise e => Raise e
  | OutOfFuel => OutOfFuel
  end.

(** The [for idx, frm in enumerate(frames)] loop with its [break]: the
    value of [idx] afterwards, [idx0] being its value before (the variable
    survives from one iteration of the enclosing loop to the next). *)
Fixpoint scan_current (frames : list Frame) (i : nat) (idx0 : option nat)
  : option nat :=
  match frames with
  | [] => idx0
  | frm :: frames' =>
      if is_current frm then Some i else scan_current frames' (S i) (Some i)
  end.

Section Methods.
(** [eval] on a text that is neither empty nor one string literal (the
    empty text is a syntax error).  The text is what the
    debuggee printed and is evaluated inside the method, with [self] in
    scope: the call may change the session, raise any exception or not
    return.  [EvalStr] also stands for a [bytes] value holding that
    text. *)
Variable eval_other : text -> M eval_result.
(** [utils.llm.explain_step] *)
Variable llm_explain : option text -> Delta -> outcome text.
(** The base64 text of the inspector's source. *)
Variable b64_source : text.

Definition py_eval (raw : text) : M eval_result :=
  match raw with
  | [] => raise SyntaxError
  | _ =>
      match eval_literal raw with
      | Some s => ret (EvalStr s)
      | None => eval_other raw
      end
  end.

Definition _inject_build_var_tree : M unit :=
  stdin_write (str "!exec(__import__(" ++ [dquote] ++ str "base64"
               ++ [dquote] ++ str ").b64decode(" ++ [dquote] ++ b64_source
               ++ [dquote] ++ str ").decode())" ++ [newline]) ;;;
  _read_user_and_pdb_output ;;;
  ret tt.

(** [__init__], given the contents of the source file, the result of
    [get_function_calls] on it and the process that
    [create_debug_process] returned. *)
Definition init (name file_contents : text)
           (calls : gmap Z (list text)) (proc : Popen)
  : outcome unit * DebugSession :=
  (_read_user_and_pdb_output ;;; _inject_build_var_tree)
    (mkSession name (str "main.py") (Some file_contents) calls []
               (Some proc)).

Definition _finish : M unit :=
  stdin_write (str "q" ++ [newline]) ;;;
  modify (set_process None) ;;;
  modify (set_code None).

Definition is_finished (s : DebugSession) : bool :=
  if process s is None then true else false.

Definition pdb_next : M (text * text) :=
  r <- command (str "n") ;; ret (r.1.1, r.1.2).

Definition pdb_step : M (text * text) :=
  r <- command (str "s") ;; ret (r.1.1, r.1.2).

Definition pdb_return : M (text * text * text) :=
  r <- command (str "r") ;;
  match List.find is_current r.2 with
  | None => raise UnboundLocalError
  | Some current_frame =>
      match retval current_frame with
      | None => raise AssertionError
      | Some rv => ret (r.1.1, r.1.2, rv)
      end
  end.

Definition pdb_where : M (list Frame) :=
  r <- command (str "w") ;;
  if r.1.1 is [] then ret r.2 else raise AssertionError.

Definition pdb_up : M text :=
  r <- command (str "up") ;; ret r.1.1.

Definition pdb_down : M unit := raise NotImplementedError.

Definition pdb_list : M text :=
  r <- command (str "l .") ;; ret r.1.1.

Definition pdb_longlist : M text :=
  r <- command (str "ll") ;; ret r.1.1.

Definition pdb_p (expr : text) : M text :=
  r <- command (str "p " ++ expr) ;; ret r.1.1.

Definition pdb_break (location : text) : M text :=
  r <- command (str "b " ++ location) ;; ret r.1.1.

Definition pdb_continue : M (text * text * list Frame) :=
  command (str "c").

Definition is_exception_raised : M bool :=
  program_output <- pdb_p (str "__exception__") ;;
  if startswith program_output (str "*** NameError") then ret false
  else ret true.

Definition _capture_exception_info : M (text * list Frame) :=
  exception_output <- pdb_p (str "__exception__") ;;
  traceback_frames <- pdb_where ;;
  ret (rstrip exception_output, traceback_frames).

Definition get_local_vars (max_depth max_children : Z) : M json :=
  raw <- pdb_p (str "__import__('json').dumps(build_var_tree(locals(), "
                ++ fmt_d max_depth ++ str ", " ++ fmt_d max_children
                ++ str "))") ;;
  evaluated <- try_except (json_str <- py_eval (strip raw) ;;
                           ret (Some json_str))
                          (fun _ => ret None) ;;
  match evaluated with
  | None => ret (JObj [])
  | Some EvalOther => raise TypeError
  | Some (EvalStr json_str) =>
      match json_loads json_str with
      | Raise JSONDecodeError => ret (JObj [])
      | loaded => lift loaded
      end
  end.

Definition _is_in_generator_function : M bool :=
  try_except
    (to_eval <- pdb_p (str "$_frame.f_code.co_flags & 0x20") ;;
     ret (negb (text_eqb (strip to_eval) (str "0"))))
    (fun _ => ret false).

Definition get_current_frame : M CurrentFrame :=
  frames <- pdb_where ;;
  local_vars <- get_local_vars 4 64 ;;
  match List.find is_current frames with
  | Some frame =>
      ret (mkCurrentFrame (file frame) (function frame) (line frame)
                          local_vars (Parser.code frame) (retval frame))
  | None => raise (Exception (str "No current frame found"))
  end.

Definition get_cumulative_program_output (s : DebugSession) : text :=
  join [newline]
       (filter (fun o => o <> []) (map program_output (execution_history s))).

Definition _store_step_info (step_type program_output pdb_output : text)
           (current_frame : CurrentFrame) (delta : option Delta) : M unit :=
  modify (fun s =>
            set_history (execution_history s
                         ++ [mkEntry step_type program_output pdb_output
                                     current_frame delta None]) s).

(** The [while True] loop of [_step_over_and_capture_calls].  [idx]
    is the loop-carried variable of the inner [for]; the lists are
    [captured_calls] and [program_output_list]. *)
Fixpoint capture_loop (fuel : nat) (idx : option nat)
         (captured_calls : list CapturedCall)
         (program_output_list : list text)
  : M (text * text * list CapturedCall) :=
  match fuel with
  | O => lift OutOfFuel
  | S fuel' =>
      initial_frames <- pdb_where ;;
      match scan_current initial_frames 0 idx with
      | None => raise UnboundLocalError
      | Some i =>
          let initial_frames := take (i + 1) initial_frames in
          stepped <- pdb_step ;;
          raised <- is_exception_raised ;;
          if raised : bool then
            exception_info <- _capture_exception_info ;;
            ret (join [newline] (program_output_list ++ [stepped.1]),
                 stepped.2,
                 captured_calls
                   ++ [ExceptionInfo exception_info.1 exception_info.2])
          else
            let program_output_list := program_output_list ++ [stepped.1] in
            new_frames <- pdb_where ;;
            if length initial_frames <? length new_frames then
              match last new_frames with
              | None => raise IndexError
              | Some callee =>
                  let function_name := function callee in
                  vars <- get_local_vars 4 64 ;;
                  params <- lift (params_of vars) ;;
                  is_in_generator <- _is_in_generator_function ;;
                  if is_in_generator : bool then
                    pdb_up ;;;
                    nexted <- pdb_next ;;
                    ret (join [newline] (program_output_list ++ [nexted.1]),
                         nexted.2, captured_calls)
                  else
                    returned <- pdb_return ;;
                    capture_loop fuel' (Some i)
                      (captured_calls
                         ++ [Call function_name params returned.2])
                      (program_output_list ++ [returned.1.1])
              end
            else
              ret (join [newline] program_output_list, stepped.2,
                   captured_calls)
      end
  end%nat.

Definition _step_over_and_capture_calls (fuel : nat)
  : M (text * text * list CapturedCall) :=
  capture_loop fuel None [] [].

Definition _step_over_and_capture_delta (fuel : nat)
  : M (text * text * Delta) :=
  context <- pdb_list ;;
  frame <- get_current_frame ;;
  let executed_code := default [] (cf_code frame) in
  r <- _step_over_and_capture_calls fuel ;;
  if contains r.1.2 PROGRAM_FINISHED_PATTERN then
    raise (RuntimeError
             (str "Unexpected program finished state in _step_over_and_capture_delta. This should not be reachable."))
  else ret (r.1.1, r.1.2, mkDelta executed_code context r.2).

Definition can_step_into : M bool :=
  current_frame <- get_current_frame ;;
  self <- get_self ;;
  ret (if user_defined_function_calls self !! cf_line_number current_frame
       is Some _ then true else false).

Definition can_step_out : M bool :=
  current_frame <- get_current_frame ;;
  ret (negb (startswith (cf_function current_frame) (str "main("))).

Definition get_state : M State :=
  frame <- get_current_frame ;;
  into <- can_step_into ;;
  out <- can_step_out ;;
  ret (mkState (cf_filename frame) (cf_line_number frame)
               (cf_local_vars frame) into out
               (if cf_retval frame is Some _ then true else false)
               (startswith (cf_function frame) (str "main("))
               (cf_code frame)).

Definition step_over (fuel : nat) : M unit :=
  state <- get_state ;;
  let is_already_returning := st_is_returning state in
  let is_already_in_main := st_is_in_main state in
  if is_already_returning && is_already_in_main then _finish
  else
    r <- _step_over_and_capture_delta fuel ;;
    frame <- get_current_frame ;;
    _store_step_info (str "step_over") r.1.1 r.1.2 frame (Some r.2) ;;;
    let was_returning := is_already_returning in
    state <- get_state ;;
    let is_returning := st_is_returning state in
    let is_in_main := st_is_in_main state in
    if is_returning && is_in_main then
      pdb_continue ;;; _finish
    else if negb was_returning && is_returning then
      r <- _step_over_and_capture_delta fuel ;;
      frame <- get_current_frame ;;
      _store_step_info (str "step_over") r.1.1 r.1.2 frame (Some r.2)
    else ret tt.

Definition explain_step : M text :=
  self <- get_self ;;
  match last (execution_history self) with
  | None =>
      raise (Exception (str "No execution history available for explanation"))
  | Some last_entry =>
      match delta last_entry with
      | None =>
          raise (Exception (str "Last step does not have delta information"))
      | Some d =>
          explanation <- lift (llm_explain (code self) d) ;;
          modify (fun s =>
                    set_history
                      (removelast (execution_history s)
                       ++ [mkEntry (step_type last_entry)
                                   (program_output last_entry)
                                   (pdb_output last_entry)
                                   (current_frame last_entry)
                                   (delta last_entry) (Some explanation)])
                      s) ;;;
          ret explanation
      end
  end.

Definition step_into : M unit :=
  initial_frames <- pdb_where ;;
  let initial_frame_count := length initial_frames in
  stepped <- pdb_step ;;
  new_frames <- pdb_where ;;
  let new_frame_count := length new_frames in
  r <- (if (initial_frame_count <? new_frame_count)%nat then pdb_next
        else ret stepped) ;;
  if contains r.2 PROGRAM_FINISHED_PATTERN then
    raise (RuntimeError
             (str "Unexpected program finished state in step_into. This should not be reachable."))
  else
    frame <- get_current_frame ;;
    _store_step_info (str "step_into") r.1 r.2 frame None.

Definition step_out (fuel : nat) : M unit :=
  pdb_return ;;;
  r <- _step_over_and_capture_delta fuel ;;
  frame <- get_current_frame ;;
  _store_step_info (str "step_out") r.1.1 r.1.2 frame (Some r.2).

End Methods.

End Session.

(** ** The variable inspector ([_make_node], [build_var_tree])

    The debuggee's objects live in a heap indexed by identity ([id(val)]).
    An object is described by what the inspector can observe of it: its
    type, the identities of its items in iteration order, its [repr], and
    the exception that listing its attributes raises, if any.  [id] and
    [type] do not raise, [str(e)] returns for every exception [e] that is
    caught, and the recursion limit of the interpreter is not reached. *)

Module VarTree.

Definition objid := nat.

Inductive pyobj : Type :=
| PyPrimitive                                 (* None, bool, int, float, str, bytes *)
| PyList (items : list objid)
| PyTuple (items : list objid)
| PyDict (items : list (option text * objid))   (* [str(k)], or [None] if it raises *)
| PySet (items : list objid)
| PyInstance (attrs : list ((text + text) * objid))
    (* [vars(val).items()]: a key is a [str], or a value of another type,
       given by the message of the exception that [k.startswith] raises
       on it *)
| PySlots (slots : list (text * (objid + text)))
    (* [__slots__] without [__dict__]: the value of each slot, or, when
       [getattr] raises, the [repr] of the text that replaces it *)
| PyBroken (added : bool) (error : text)
    (* an object whose attributes cannot be listed: [hasattr] raises
       ([added] is [false]), or [vars(val).items()], [list(val.__slots__)]
       or [len(val.__slots__)] raises before any child is built, after
       [seen.add(oid)] ([added] is [true]); [error] is the message of the
       exception *)
| PyOther.

Inductive node : Type :=
| mkNode (name value kind : text) (children : option (list node)).

Definition node_name (n : node) : text := let 'mkNode a _ _ _ := n in a.
Definition node_value (n : node) : text := let 'mkNode _ v _ _ := n in v.
Definition node_kind (n : node) : text := let 'mkNode _ _ k _ := n in k.
Definition node_children (n : node) : option (list node) :=
  let 'mkNode _ _ _ c := n in c.

Definition primitive (name value : text) : node :=
  mkNode name value (str "primitive") None.

(** [{"name": name, "value": "<error: %s>" % (e,), "kind": "primitive"}] *)
Definition error_leaf (name e : text) : node :=
  primitive name (str "<error: " ++ e ++ str ">").

(** [{"name": "...", "value": "%d more" % count, "kind": "primitive"}] *)
Definition more_leaf (count : Z) : node :=
  primitive (str "...") (fmt_d count ++ str " more").

(** [s[:max_len]], followed by three dots when [len(s) > max_len]. *)
Definition clip (s : text) (max_len : Z) : text :=
  slice_to s max_len ++ (if max_len <? len s then str "..." else []).

(** [k.startswith("__") and k.endswith("__")] *)
Definition is_dunder (k : text) : bool :=
  startswith k (str "__") && endswith k (str "__").

(** [enumerate(items)] with the index already passed through [str]. *)
Definition enumerate {A} (items : list A) : list (text * A) :=
  imap (fun i x => (fmt_d (Z.of_nat i), x)) items.

Section Builder.
Variable heap : objid -> pyobj.
(** [repr(obj)]: its text, or the message of the exception it raises. *)
Variable py_repr : objid -> text + text.

Definition _safe_repr (obj : objid) (max_len : Z) : text :=
  match py_repr obj with
  | inl s => clip s max_len
  | inr e => str "<repr error: " ++ e ++ str ">"
  end.

(** The [for] loops that fill [children]: [mk] is the recursive call,
    and [seen] is handed from one child to the next. *)
Fixpoint build_children
         (mk : text -> objid -> gset objid -> option (node * gset objid))
         (items : list (text * (objid + text))) (seen : gset objid)
  : option (list node * gset objid) :=
  match items with
  | [] => Some ([], seen)
  | (k, inl v) :: items' =>
      match mk k v seen with
      | Some (n, seen1) =>
          match build_children mk items' seen1 with
          | Some (ns, seen2) => Some (n :: ns, seen2)
          | None => None
          end
      | None => None
      end
  | (k, inr r) :: items' =>
      match build_children mk items' seen with
      | Some (ns, seen2) => Some (primitive k (clip r 256) :: ns, seen2)
      | None => None
      end
  end.

Definition values {K} (items : list (K * objid)) : list (K * (objid + text)) :=
  map (fun kv => (kv.1, inl kv.2)) items.

(** The [for] loop over the attributes of an instance, inside its [try]:
    the children, or the message of the exception that the test of a key
    raised; a dunder-named attribute is skipped. *)
Fixpoint build_attrs
         (mk : text -> objid -> gset objid -> option (node * gset objid))
         (attrs : list ((text + text) * objid)) (seen : gset objid)
  : option ((list node + text) * gset objid) :=
  match attrs with
  | [] => Some (inl [], seen)
  | (inr e, _) :: _ => Some (inr e, seen)
  | (inl k, v) :: attrs' =>
      if is_dunder k then build_attrs mk attrs' seen
      else
        match mk k v seen with
        | Some (n, seen1) =>
            match build_attrs mk attrs' seen1 with
            | Some (inl ns, seen2) => Some (inl (n :: ns), seen2)
            | Some (inr e, seen2) => Some (inr e, seen2)
            | None => None
            end
        | None => None
        end
  end.

(** The part the container branches share: [seen.add(oid)], the loop
    over the items already cut to [max_children], the ["... more"] leaf
    when [size] exceeds [max_children], [seen.discard(oid)], and the
    node. *)
Definition expand
           (mk : text -> objid -> gset objid -> option (node * gset objid))
           (name : text) (val : objid) (kind : text)
           (items : list (text * (objid + text)))
           (size max_children : Z) (seen : gset objid)
  : option (node * gset objid) :=
  let oid := val in
  match build_children mk items (seen ∪ {[oid]}) with
  | Some (children, seen') =>
      let children :=
        if max_children <? size
        then children ++ [more_leaf (size - max_children)]
        else children in
      Some (mkNode name (_safe_repr val 80) kind (Some children),
            seen' ∖ {[oid]})
  | None => None
  end.

(** [_make_node]; [None] when [fuel] nested calls were not enough. *)
Fixpoint _make_node (fuel : nat) (name : text) (val : objid)
         (depth max_depth max_children : Z) (seen : gset objid)
  : option (node * gset objid) :=
  match fuel with
  | O => None
  | S fuel' =>
      let oid := val in
      let mk k v sn :=
        _make_node fuel' k v (depth + 1) max_depth max_children sn in
      if bool_decide (oid ∈ seen) then
        Some (primitive name (str "<cycle>"), seen)
      else if max_depth <? depth then
        Some (primitive name (_safe_repr val 256), seen)
      else
        match heap val with
        | PyPrimitive => Some (primitive name (_safe_repr val 256), seen)
        | PyList items =>
            expand mk name val (str "list")
                   (values (enumerate (slice_to items max_children)))
                   (len items) max_children seen
        | PyTuple items =>
            expand mk name val (str "tuple")
                   (values (enumerate (slice_to items max_children)))
                   (len items) max_children seen
        | PyDict items =>
            expand mk name val (str "dict")
                   (map (fun kv => (default (str "<key error>") kv.1,
                                    inl kv.2))
                        (slice_to items max_children))
                   (len items) max_children seen
        | PySet items =>
            expand mk name val (str "set")
                   (values (enumerate (slice_to items max_children)))
                   (len items) max_children seen
        | PyInstance attrs =>
            match build_attrs mk (slice_to attrs max_children)
                              (seen ∪ {[oid]}) with
            | Some (inl children, seen') =>
                let children :=
                  if max_children <? len attrs
                  then children ++ [more_leaf (len attrs - max_children)]
                  else children in
                Some (mkNode name (_safe_repr val 80) (str "instance")
                             (Some children),
                      seen' ∖ {[oid]})
            | Some (inr e, seen') => Some (error_leaf name e, seen')
            | None => None
            end
        | PySlots slots =>
            expand mk name val (str "instance")
                   (slice_to slots max_children) (len slots)
                   max_children seen
        | PyBroken added e =>
            Some (error_leaf name e, if added then seen ∪ {[oid]} else seen)
        | PyOther =>
            Some (mkNode name (_safe_repr val 256) (str "other") None, seen)
        end
  end.

(** The loop of [build_var_tree] over [locals_dict.items()]. *)
Fixpoint build_entries (fuel : nat) (items : list (text * objid))
         (max_depth max_children : Z) (seen : gset objid)
  : option (list (text * (objid * node))) :=
  match items with
  | [] => Some []
  | (k, v) :: items' =>
      if startswith k (str "__") then
        build_entries fuel items' max_depth max_children seen
      else
        match _make_node fuel k v 0 max_depth max_children seen with
        | Some (n, seen') =>
            match build_entries fuel items' max_depth max_children seen'
            with
            | Some out => Some ((k, (v, n)) :: out)
            | None => None
            end
        | None => None
        end
  end.

Definition build_var_tree (fuel : nat) (locals_dict : list (text * objid))
           (max_depth max_children : Z)
  : option (list (text * (objid * node))) :=
  build_entries fuel locals_dict max_depth max_children ∅.

End Builder.

End VarTree.

(** ** The session protocol gateway ([debug_websocket]) *)

Module Gateway.
Import Parser Json Session.

(** An inbound message after [json.loads]: the entries the gateway reads. *)
Record Message : Type := mkMessage {
  msg_type : option text;          (* [message["type"]] *)
  msg_project_id : option text     (* [str(message["project_id"])] *)
}.

Inductive Response : Type :=
| RError (message : text)
| RSessionStarted (session_id : text)
| RRestartComplete
| RState (system_message : text) (state : State) (program_output : text)
         (has_explanation : bool)
| RFinished (system_message program_output : text)
| RExplanation (explanation : text).

(** The ["type"] entry of an outbound message. *)
Definition response_type (r : Response) : text :=
  match r with
  | RError _ => str "error"
  | RSessionStarted _ => str "session_started"
  | RRestartComplete => str "restart_complete"
  | RState _ _ _ _ => str "state"
  | RFinished _ _ => str "finished"
  | RExplanation _ => str "explanation"
  end.

(** How the message loop of one connection ended. *)
Inductive ending : Type :=
| Disconnected            (* [WebSocketDisconnect]: no further message *)
| Broke                   (* [break] after a failed session start *)
| Crashed (e : exn)       (* an exception left the loop *)
| Hung.                   (* a step never returned *)

(** What handling one message does to the loop. *)
Inductive step_result : Type :=
| Continue (session : option DebugSession) (sent : list Response)
| Stop (how : ending) (session : option DebugSession) (sent : list Response).

(** How the loop ended, if the message ended it, and what was sent. *)
Definition result_ending (r : step_result) : option ending :=
  match r with
  | Continue _ _ => None
  | Stop how _ _ => Some how
  end.

Definition result_sent (r : step_result) : list Response :=
  match r with
  | Continue _ sent | Stop _ _ sent => sent
  end.

Section Loop.
Variable eval_other : text -> M eval_result.
Variable llm_explain : option text -> Delta -> outcome text.
Variable b64_source : text.
(** The contents of [main.py] of a project, when the file exists. *)
Variable code_file : text -> option text.
(** [utils.misc.get_function_calls] *)
Variable get_function_calls : text -> gmap Z (list text).
(** [create_debug_process] *)
Variable create_debug_process : text -> outcome Popen.
(** [uuid.uuid4()], by the number of messages sent so far. *)
Variable uuid4 : nat -> text.
(** [str(e)] for the built-in exceptions. *)
Variable builtin_message : exn -> text.
(** The bound on the iterations of a step's loop. *)
Variable fuel : nat.

Definition exn_str (e : exn) : text :=
  match e with
  | Exception msg | RuntimeError msg => msg
  | _ => builtin_message e
  end.

(** [DebugSession(container_name)] for the container name
    [project-1-<project_id>]: the name must split at its dashes into three
    parts, the source file must open, and the process must start. *)
Definition new_session (project_id : text) : outcome DebugSession :=
  if contains project_id (str "-") then Raise ValueError
  else
    match code_file project_id with
    | None => Raise FileNotFoundError
    | Some contents =>
        match create_debug_process project_id with
        | Ok proc =>
            match init b64_source (str "project-1-" ++ project_id) contents
                       (get_function_calls contents) proc with
            | (Ok _, s) => Ok s
            | (Raise e, _) => Raise e
            | (OutOfFuel, _) => OutOfFuel
            end
        | Raise e => Raise e
        | OutOfFuel => OutOfFuel
        end
    end.

(** [handle_start_session]: the session it returns ([None] for the
    Python [None]) and the messages it sends after [sent]; [inr] when
    an exception leaves it. *)
Definition handle_start_session (message : Message) (sent : list Response)
  : (option DebugSession * list Response) + (ending * list Response) :=
  match msg_project_id message with
  | None => inr (Crashed KeyError, sent)
  | Some project_id =>
      let session_id := uuid4 (length sent) in
      if code_file project_id is None then
        inl (None,
             sent ++ [RError (str "Code file not found for project "
                              ++ project_id
                              ++ str ". Please generate code first.")])
      else
        match new_session project_id with
        | Raise e =>
            if is_exception e then
              inl (None,
                   sent ++ [RError (str "Failed to start debug session: "
                                    ++ exn_str e)])
            else inr (Crashed e, sent)
        | OutOfFuel => inr (Hung, sent)
        | Ok session =>
            let sent := sent ++ [RSessionStarted session_id] in
            match (pdb_break (str "main") ;;;
                   pdb_continue ;;;
                   get_state eval_other) session with
            | (Ok state, session') =>
                inl (Some session',
                     sent ++ [RState (str "session started") state [] false])
            | (Raise e, _) => inr (Crashed e, sent)
            | (OutOfFuel, _) => inr (Hung, sent)
            end
        end
  end.

Inductive command_name : Type := StepOver | StepInto | StepOut.

(** [getattr(session, command)()] *)
Definition run_command (command : command_name) : M unit :=
  match command with
  | StepOver => step_over eval_other fuel
  | StepInto => step_into eval_other
  | StepOut => step_out eval_other fuel
  end.

(** [_handle_simple_command] *)
Definition _handle_simple_command (session : DebugSession)
           (command : command_name) (sent : list Response) : step_result :=
  if is_finished session then
    Continue (Some session) (sent ++ [RError (str "session already finished")])
  else
    match run_command command session with
    | (Raise e, session') => Stop (Crashed e) (Some session') sent
    | (OutOfFuel, session') => Stop Hung (Some session') sent
    | (Ok _, session') =>
        let program_output := get_cumulative_program_output session' in
        if is_finished session' then
          Continue (Some session')
                   (sent ++ [RFinished (str "session finished") program_output])
        else
          match get_state eval_other session' with
          | (Raise e, session'') => Stop (Crashed e) (Some session'') sent
          | (OutOfFuel, session'') => Stop Hung (Some session'') sent
          | (Ok state, session'') =>
              let system_message :=
                if st_is_returning state then str "return" else [] in
              Continue (Some session'')
                       (sent ++ [RState system_message state program_output
                                        (match command with
                                         | StepOut | StepOver => true
                                         | StepInto => false
                                         end)])
          end
    end.

(** [handle_explain_step] *)
Definition handle_explain_step (session : DebugSession)
           (sent : list Response) : step_result :=
  if is_finished session then
    Continue (Some session) (sent ++ [RError (str "session already finished")])
  else
    match explain_step llm_explain session with
    | (Ok explanation, session') =>
        Continue (Some session') (sent ++ [RExplanation explanation])
    | (Raise e, session') =>
        if is_exception e then
          Continue (Some session')
                   (sent ++ [RError (str "Failed to generate explanation: "
                                     ++ exn_str e)])
        else Stop (Crashed e) (Some session') sent
    | (OutOfFuel, session') => Stop Hung (Some session') sent
    end.

Definition is_type (kind : text) (name : string) : bool :=
  text_eqb kind (str name).

(** The body of the [while True] loop for one received message. *)
Definition handle_message (message : Message)
           (session : option DebugSession) (sent : list Response)
  : step_result :=
  match msg_type message with
  | None => Stop (Crashed KeyError) session sent
  | Some kind =>
      if is_type kind "start_session" then
        match handle_start_session message sent with
        | inl (Some session', sent') => Continue (Some session') sent'
        | inl (None, sent') => Stop Broke None sent'
        | inr (how, sent') => Stop how session sent'
        end
      else if is_type kind "restart" then
        let session :=
          match session with
          | Some s =>
              if negb (is_finished s) then Some (snd (_finish s))
              else Some s
          | None => None
          end in
        match handle_start_session message sent with
        | inl (Some session', sent') =>
            Continue (Some session') (sent' ++ [RRestartComplete])
        | inl (None, sent') => Stop Broke None sent'
        | inr (how, sent') => Stop how session sent'
        end
      else
        match session with
        | None =>
            Stop (Crashed (RuntimeError (str "No active debug session")))
                 None sent
        | Some s =>
            if is_type kind "step_over" then
              _handle_simple_command s StepOver sent
            else if is_type kind "explain_step" then
              handle_explain_step s sent
            else if is_type kind "step_into" then
              _handle_simple_command s StepInto sent
            else if is_type kind "step_out" then
              _handle_simple_command s StepOut sent
            else
              Continue (Some s) (sent ++ [RError (str "invalid message type")])
        end
  end.

(** [debug_websocket] on the messages the client sends before it
    disconnects. *)
Fixpoint message_loop (inbox : list Message)
         (session : option DebugSession) (sent : list Response)
  : ending * option DebugSession * list Response :=
  match inbox with
  | [] => (Disconnected, session, sent)
  | message :: inbox' =>
      match handle_message message session sent with
      | Continue session' sent' => message_loop inbox' session' sent'
      | Stop how session' sent' => (how, session', sent')
      end
  end.

Definition debug_websocket (inbox : list Message)
  : ending * option DebugSession * list Response :=
  message_loop inbox None [].

End Loop.

End Gateway.

(** ** Concrete debugger sessions

    The debuggee is

<<
  1  def helper(a):
  2      return a * 2
  3
  4  def main():
  5      y = helper(10)
  6      print(y)
  7
  8  main()
>>

    paused by the breakpoint at [main], on line 5.  The texts below are what
    the debugger prints in answer to the commands of the session; a frame is
    printed as [path(line)function()], the current one after an arrow. *)

Module Fixtures.
Import Parser Json Session.

Definition tab : ascii := ascii_of_nat 9.

(** Each line followed by a newline. *)
Definition text_of_lines (ls : list string) : text :=
  flat_map (fun l => str l ++ [newline]) ls.

Definition quoted (s : string) : text := [dquote] ++ str s ++ [dquote].

Definition source : text :=
  text_of_lines [ "def helper(a):"; "    return a * 2"; EmptyString;
                  "def main():"; "    y = helper(10)"; "    print(y)"; EmptyString;
                  "main()" ]%string.

(** The frames below the entry function, as [w] prints them. *)
Definition outer_frames : list string :=
  [ "  /usr/local/lib/python3.12/bdb.py(600)run()";
    "-> exec(cmd, globals, locals)";
    "  <string>(1)<module>()";
    "  /app/main.py(8)<module>()";
    "-> main()" ]%string.

Definition where_main_5 : text :=
  text_of_lines (outer_frames
                 ++ [ "> /app/main.py(5)main()"; "-> y = helper(10)" ]%string).

Definition where_helper_entry : text :=
  text_of_lines (outer_frames
                 ++ [ "  /app/main.py(5)main()"; "-> y = helper(10)";
                      "> /app/main.py(1)helper()"; "-> def helper(a):" ]%string).

Definition where_helper_return : text :=
  text_of_lines (outer_frames
                 ++ [ "  /app/main.py(5)main()"; "-> y = helper(10)";
                      "> /app/main.py(2)helper()->20"; "-> return a * 2" ]%string).

Definition where_main_6 : text :=
  text_of_lines (outer_frames
                 ++ [ "> /app/main.py(6)main()"; "-> print(y)" ]%string).

(** The answers to [s] on line 5, to [r] inside [helper], and to [s] at
    the return of [helper]. *)
Definition step_into_helper : text :=
  text_of_lines [ "--Call--"; "> /app/main.py(1)helper()";
                  "-> def helper(a):" ]%string.
Definition return_from_helper : text :=
  text_of_lines [ "--Return--"; "> /app/main.py(2)helper()->20";
                  "-> return a * 2" ]%string.
Definition step_to_line_6 : text :=
  text_of_lines [ "> /app/main.py(6)main()"; "-> print(y)" ]%string.

(** The answer to [l .] *)
Definition row (n src : string) : text :=
  str n ++ [tab] ++ str src ++ [newline].

Definition listing : text :=
  row "  1  " "def helper(a):" ++ row "  2  " "    return a * 2"
  ++ row "  3  " EmptyString ++ row "  4  " "def main():"
  ++ row "  5  ->" "    y = helper(10)" ++ row "  6  " "    print(y)"
  ++ row "  7  " EmptyString ++ row "  8  " "main()" ++ text_of_lines [ "[EOF]"%string ].

(** The answer to [p __exception__] when no exception is pending. *)
Definition no_exception : text :=
  text_of_lines [ "*** NameError: name '__exception__' is not defined"%string ].

(** What [p] prints for the serialized variable tree of one local
    variable holding an [int]. *)
Definition one_local (name value : string) (id : string) : text :=
  str "'{" ++ quoted name ++ str ": {" ++ quoted "id" ++ str ": " ++ str id
  ++ str ", " ++ quoted "repr_tree" ++ str ": {" ++ quoted "name"
  ++ str ": " ++ quoted name ++ str ", " ++ quoted "value" ++ str ": "
  ++ quoted value ++ str ", " ++ quoted "kind" ++ str ": "
  ++ quoted "primitive" ++ str "}}}'" ++ [newline].

Definition no_locals : text := text_of_lines [ "'{}'"%string ].
Definition locals_a : text := one_local "a" "10" "9793352".
Definition locals_y : text := one_local "y" "20" "9793672".

(** The answer to [p $_frame.f_code.co_flags & 0x20] in a plain function. *)
Definition not_a_generator : text := text_of_lines [ "0"%string ].

(** The output stream: every answer followed by the prompt. *)
Definition transcript (answers : list text) : list ascii :=
  flat_map (fun a => a ++ PDB_PROMPT) answers.

Definition frame_and_locals (w locals : text) : list text := [w; locals].

(** What the debugger prints during [step_over] on line 5. *)
Definition step_over_answers : list text :=
  (* get_state: get_current_frame, can_step_into, can_step_out *)
  frame_and_locals where_main_5 no_locals
  ++ frame_and_locals where_main_5 no_locals
  ++ frame_and_locals where_main_5 no_locals
  (* _step_over_and_capture_delta: pdb_list, get_current_frame *)
  ++ [listing] ++ frame_and_locals where_main_5 no_locals
  (* first iteration: w, s, p __exception__, w, locals, flags, r *)
  ++ [ where_main_5; step_into_helper; no_exception; where_helper_entry;
       locals_a; not_a_generator; return_from_helper ]
  (* second iteration: w, s, p __exception__, w *)
  ++ [ where_helper_return; step_to_line_6; no_exception; where_main_6 ]
  (* get_current_frame for the history entry, then get_state *)
  ++ frame_and_locals where_main_6 locals_y
  ++ frame_and_locals where_main_6 locals_y
  ++ frame_and_locals where_main_6 locals_y
  ++ frame_and_locals where_main_6 locals_y.

Definition session_on (out : list ascii) : DebugSession :=
  mkSession (str "project-1-7") (str "main.py") (Some source)
            {[ 5 := [str "helper"]; 8 := [str "main"] ]} []
            (Some (mkPopen [] out None)).

Definition paused_on_line_5 : DebugSession :=
  session_on (transcript step_over_answers).

(** The debuggee printed [--Return--] itself just before the debugger
    announced a call. *)
Definition return_then_call : text :=
  text_of_lines [ "--Return--"; "--Call--"; "> /app/main.py(1)helper()";
                  "-> def helper(a):" ]%string.



(** What the parser returns on [return_from_helper]. *)
Definition parsed_return : text * list Frame :=
  Eval vm_compute in
    default ([], []) (outcome_value (parse_pdb_output return_from_helper)).

(** The collaborators of the gateway on a host without any project. *)
Definition no_eval (raw : text) : M eval_result := raise SyntaxError.
Definition no_llm (code : option text) (d : Delta) : outcome text :=
  Raise (Exception (str "unavailable")).
Definition no_file (project_id : text) : option text := None.
Definition no_calls (contents : text) : gmap Z (list text) := ∅.
Definition no_process (project_id : text) : outcome Popen :=
  Raise (Exception (str "docker: not found")).
Definition some_uuid (n : nat) : text := str "00000000-0000-4000-8000-000000000000".
Definition some_message (e : exn) : text := [].



(** The debuggee answers [w] and then dies during the step: its last words
    come without a prompt. *)
Definition dies_during_step : DebugSession :=
  session_on (transcript [where_main_5] ++ str "Killed").


Definition dying_after_where : DebugSession :=
  Eval vm_compute in (pdb_where dies_during_step).2.
Definition dying_after_step : DebugSession :=
  Eval vm_compute in (pdb_step dying_after_where).2.
Definition dying_after_check : DebugSession :=
  Eval vm_compute in (is_exception_raised dying_after_step).2.
Definition dying_after_capture : DebugSession :=
  Eval vm_compute in (_capture_exception_info dying_after_check).2.



(** A session after [_finish]. *)
Definition finished_session : DebugSession :=
  mkSession (str "project-1-7") (str "main.py") None
            {[ 5 := [str "helper"]; 8 := [str "main"] ]} [] None.

End Fixtures.

(** ** Concrete object graphs *)

Module Heaps.
Import VarTree.

(** [lst = [1, 2]; lst.append(lst)]: object 0 is the list, objects 1 and 2
    the integers. *)
Definition cyclic_heap (o : objid) : pyobj :=
  match o with
  | O => PyList [1; 2; 0]%nat
  | _ => PyPrimitive
  end.

Definition cyclic_repr (o : objid) : text + text :=
  match o with
  | 0%nat => inl (str "[1, 2, [...]]")
  | 1%nat => inl (str "1")
  | _ => inl (str "2")
  end.

(** [inner = [7]; top = [inner, inner]]: object 0 is [top], object 1 is
    [inner], reached twice, object 2 the integer. *)
Definition diamond_heap (o : objid) : pyobj :=
  match o with
  | 0%nat => PyList [1; 1]%nat
  | 1%nat => PyList [2]%nat
  | _ => PyPrimitive
  end.

Definition diamond_repr (o : objid) : text + text :=
  match o with
  | 0%nat => inl (str "[[7], [7]]")
  | 1%nat => inl (str "[7]")
  | _ => inl (str "7")
  end.

(** An object whose attribute mapping is
    [{"__wrapped__": f, "a": 1, "b": 1}]: object 0 is the instance,
    object 1 the function, object 2 the integer. *)
Definition wrapper_heap (o : objid) : pyobj :=
  match o with
  | 0%nat =>
      PyInstance [(inl (str "__wrapped__"), 1); (inl (str "a"), 2);
                  (inl (str "b"), 2)]%nat
  | 1%nat => PyOther
  | _ => PyPrimitive
  end.

Definition wrapper_repr (o : objid) : text + text :=
  match o with
  | 0%nat => inl (str "<W object>")
  | 1%nat => inl (str "<function f>")
  | _ => inl (str "1")
  end.

(** [a = A(); a.x = 1; a.__dict__[1] = 0; top = [a, a]]: object 0 is
    [top], object 1 is [a], reached twice, object 2 stands for the
    integers. *)
Definition int_key_error : text :=
  str "'int' object has no attribute 'startswith'".

Definition int_key_heap (o : objid) : pyobj :=
  match o with
  | 0%nat => PyList [1; 1]%nat
  | 1%nat => PyInstance [(inl (str "x"), 2); (inr int_key_error, 2)]%nat
  | _ => PyPrimitive
  end.

Definition int_key_repr (o : objid) : text + text :=
  match o with
  | 0%nat => inl (str "[<A object>, <A object>]")
  | 1%nat => inl (str "<A object>")
  | _ => inl (str "1")
  end.

End Heaps.

(** ** The notions the properties are stated with *)

Module Notions.
Import Parser Json Session VarTree Gateway Fixtures.

(** [p] occurs in [s] at index [i]. *)
Definition occurs_at (p s : text) (i : nat) : Prop :=
  exists post, drop i s = p ++ post.

(** [p] occurs nowhere in [s]. *)
Definition absent (p s : text) : Prop := forall j, ~ occurs_at p s j.

(** The first occurrence of [p] in [s] is at index [i]. *)
Definition first_at (p s : text) (i : nat) : Prop :=
  occurs_at p s i /\ forall j, (j < i)%nat -> ~ occurs_at p s j.

(** [pattern] appears somewhere in the stream. *)
Definition appears (pattern : text) (out : list ascii) : Prop :=
  exists pre post, out = pre ++ pattern ++ post.

(** The marker that the specification's reading "the first that occurs
    textually" selects: among the markers present, the one whose first
    occurrence has the lowest index (the earlier in the list on a tie). *)
Fixpoint textually_first (patterns : list text) (raw : text)
  : option (nat * text) :=
  match patterns with
  | [] => None
  | pattern :: ps =>
      match find raw pattern, textually_first ps raw with
      | Some i, Some (j, q) => if (j <? i)%nat then Some (j, q) else Some (i, pattern)
      | Some i, None => Some (i, pattern)
      | None, r => r
      end
  end.

(** The reserved markers, in the order the code tests them. *)
Definition markers : list text :=
  [CALL_PATTERN; RETURN_PATTERN; PROGRAM_FINISHED_PATTERN].

(** What [_read_user_and_pdb_output] makes of the text [raw_output] it has
    read: the parser is called on it, then the markers are looked for. *)
Definition read_result (raw_output : text)
  : outcome (text * text * list Frame) :=
  outcome_map (split_user_and_pdb_output raw_output)
              (parse_pdb_output raw_output).

(** [f] is the frame the parser builds when one of the two frame shapes
    matches at the line [l]. *)
Definition built_on (l : text) (f : Frame) : Prop :=
  (exists joined, frame_with_code l joined = Some (Ok f)) \/
  frame_string l = Some (Ok f).

(** One of the two frame shapes matches at the line [l], with a line
    number of more digits than [int] converts. *)
Definition overlong (l : text) : Prop :=
  exists joined groups digits,
    (Re.match_ FRAME_WITH_CODE_PATTERN joined = Some groups \/
     Re.match_ FRAME_STRING_PATTERN l = Some groups) /\
    groups !! 1%nat = Some digits /\ INT_MAX_STR_DIGITS < len digits.



(** The attributes, when all their keys are [str] values. *)
Fixpoint str_keys (attrs : list ((text + text) * objid))
  : option (list (text * objid)) :=
  match attrs with
  | [] => Some []
  | (inl k, v) :: attrs' => cons (k, v) <$> str_keys attrs'
  | (inr _, _) :: _ => None
  end.

(** The message of the exception raised at the first key that is not a
    [str]. *)
Fixpoint key_error (attrs : list ((text + text) * objid)) : option text :=
  match attrs with
  | [] => None
  | (inl _, _) :: attrs' => key_error attrs'
  | (inr e, _) :: _ => Some e
  end.

(** The items a container exposes, by the branch of [_make_node] that
    handles it: the kind written on the node, the items handed to the
    loop (already cut to [max_children]), and the size compared with
    [max_children]. *)
Definition container_view (o : pyobj) (max_children : Z)
  : option (text * list (text * (objid + text)) * Z) :=
  match o with
  | PyList items =>
      Some (str "list", values (enumerate (slice_to items max_children)),
            len items)
  | PyTuple items =>
      Some (str "tuple", values (enumerate (slice_to items max_children)),
            len items)
  | PyDict items =>
      Some (str "dict",
            map (fun kv => (default (str "<key error>") kv.1, inl kv.2))
                (slice_to items max_children),
            len items)
  | PySet items =>
      Some (str "set", values (enumerate (slice_to items max_children)),
            len items)
  | PyInstance attrs =>
      match str_keys (slice_to attrs max_children) with
      | Some named =>
          Some (str "instance",
                values (List.filter (fun kv => negb (is_dunder kv.1)) named),
                len attrs)
      | None => None
      end
  | PySlots slots =>
      Some (str "instance", slice_to slots max_children, len slots)
  | PyPrimitive | PyBroken _ _ | PyOther => None
  end.

(** The message of the exception that listing the attributes of an object
    raises, if it does: an instance with a key that is not a [str] among
    its first [max_children] attributes, or a broken object. *)
Definition listing_error (o : pyobj) (max_children : Z) : option text :=
  match o with
  | PyInstance attrs => key_error (slice_to attrs max_children)
  | PyBroken _ e => Some e
  | _ => None
  end.

(** No exception comes between [seen.add(oid)] and [seen.discard(oid)]
    when the attributes of the object are listed. *)
Definition restores (o : pyobj) (max_children : Z) : Prop :=
  match o with
  | PyInstance attrs => key_error (slice_to attrs max_children) = None
  | PyBroken added _ => added = false
  | _ => True
  end.

(** The number of elements of a container. *)
Definition container_size (o : pyobj) : option Z :=
  match o with
  | PyList items | PyTuple items | PySet items => Some (len items)
  | PyDict items => Some (len items)
  | PyInstance attrs => Some (len attrs)
  | PySlots slots => Some (len slots)
  | PyPrimitive | PyBroken _ _ | PyOther => None
  end.

(** The number of dunder-named attributes among the first [max_children]
    attributes of an instance; [0] for every other object. *)
Definition hidden_dunders (o : pyobj) (max_children : Z) : nat :=
  match o with
  | PyInstance attrs =>
      length (List.filter (fun kv => if kv.1 is inl k then is_dunder k
                                     else false)
                          (slice_to attrs max_children))
  | _ => 0%nat
  end.

(** [fuel] nested calls are enough at [depth], for the bound [max_depth]. *)
Definition enough (max_depth : Z) (fuel : nat) (depth : Z) : Prop :=
  (Z.to_nat (max_depth + 1 - depth) < fuel)%nat.

(** How one child relates to its item when the recursive call is [mk]
    and the set handed to it is [seen]. *)
Definition child_of
           (mk : text -> objid -> gset objid -> option (node * gset objid))
           (seen : gset objid) (item : text * (objid + text)) (n : node)
  : Prop :=
  match item.2 with
  | inl v => mk item.1 v seen = Some (n, seen)
  | inr r => n = primitive item.1 (clip r 256)
  end.

(** A method that asks for the locals and then finds no current frame. *)
Definition no_current_frame {A} (eval_other : text -> M eval_result) : M A :=
  get_local_vars eval_other 4 64 ;;;
  raise (Exception (str "No current frame found")).

(** The kinds of message that step or explain. *)
Definition step_kinds : list text :=
  [str "step_over"; str "explain_step"; str "step_into"; str "step_out"].

(** The kinds of message the gateway dispatches on. *)
Definition known_kinds : list text :=
  [str "start_session"; str "restart"] ++ step_kinds.

(** [kind] is one of [kinds]. *)
Definition is_one_of (kinds : list text) (kind : text) : bool :=
  existsb (text_eqb kind) kinds.

(** The gateway of the fixtures. *)
Definition handle_here : Message -> option DebugSession -> list Response
                         -> step_result :=
  handle_message no_eval no_llm [] no_file no_calls no_process some_uuid
                 some_message 2.

End Notions.

(** ** The connection registry ([FanoutWebSocketManager]) and the project
    endpoint ([project_websocket])

    A websocket is known by its identity.  Whether a send on a websocket
    succeeds or raises is given by [delivers]. *)

Module Manager.
Import Gateway.

Definition websocket := nat.

Record FanoutWebSocketManager : Type := mkManager {
  project_connections : gmap text (list websocket);
  websocket_projects : gmap websocket text;
  debug_connections : gset websocket
}.

(** [FanoutWebSocketManager()] *)
Definition new_manager : FanoutWebSocketManager := mkManager ∅ ∅ ∅.

(** [connect]; accepting the websocket changes nothing in the registry. *)
Definition connect (key : text) (ws : websocket) (m : FanoutWebSocketManager)
  : FanoutWebSocketManager :=
  mkManager
    (<[key := default [] (project_connections m !! key) ++ [ws]]>
       (project_connections m))
    (<[ws := key]> (websocket_projects m))
    (debug_connections m).

(** [l.remove(x)]: the first occurrence is removed. *)
Fixpoint remove_first (x : websocket) (l : list websocket) : list websocket :=
  match l with
  | [] => []
  | y :: l' => if decide (x = y) then l' else y :: remove_first x l'
  end.

(** [disconnect] *)
Definition disconnect (ws : websocket) (m : FanoutWebSocketManager)
  : FanoutWebSocketManager :=
  let connections :=
    match websocket_projects m !! ws with
    | Some key =>
        if key is [] then project_connections m
        else
          match project_connections m !! key with
          | Some l =>
              let l' := if decide (ws ∈ l) then remove_first ws l else l in
              if l' is [] then delete key (project_connections m)
              else <[key := l']> (project_connections m)
          | None => project_connections m
          end
    | None => project_connections m
    end in
  mkManager connections (delete ws (websocket_projects m))
            (debug_connections m).

(** [send_to]: the websockets the message reached, in order, and the
    registry after the failed ones were disconnected. *)
Definition send_to (delivers : websocket -> bool) (key : text)
           (m : FanoutWebSocketManager)
  : list websocket * FanoutWebSocketManager :=
  let connections := default [] (project_connections m !! key) in
  let disconnected := List.filter (fun ws => negb (delivers ws)) connections in
  (List.filter delivers connections, foldl (fun m ws => disconnect ws m) m disconnected).

(** [project_websocket] for the websocket [ws]: [inbox] holds the messages
    the client sends before it disconnects.  The result is the messages
    sent to the client, whether the server closed the connection itself,
    and the registry afterwards. *)
Inductive ProjectResponse : Type :=
| PError (message : text)
| PConnected.

Definition project_websocket (ws : websocket) (inbox : list Message)
           (m : FanoutWebSocketManager)
  : list ProjectResponse * bool * FanoutWebSocketManager :=
  match inbox with
  | [] => ([], false, disconnect ws m)
  | message :: _ =>
      if negb (if msg_type message is Some kind
               then text_eqb kind (str "connect_project") else false)
      then ([PError (str "First message must be connect_project")], true,
            disconnect ws m)
      else
        let project_id := default (str "None") (msg_project_id message) in
        if project_id is [] then
          ([PError (str "project_id is required")], true, disconnect ws m)
        else
          ([PConnected], false, disconnect ws (connect project_id ws m))
  end.

End Manager.

(** ** Registries and messages to run the registry on *)

Module Registries.
Import Gateway Manager.

(** Two websockets subscribed to the project [p1], in this order. *)
Definition two_subscribers : FanoutWebSocketManager :=
  connect (str "p1") 2%nat (connect (str "p1") 1%nat new_manager).


Definition connect_p1 : Message :=
  mkMessage (Some (str "connect_project")) (Some (str "p1")).

End Registries.

(** ** The consistency of the registry *)

Module ManagerNotions.
Import Manager.

(** The two tables agree: every list of connections is non-empty, without
    repetition, filed under a non-empty key, and holds exactly the
    websockets that the reverse table files under that key. *)
Definition consistent (m : FanoutWebSocketManager) : Prop :=
  (forall key l,
      project_connections m !! key = Some l ->
      l <> [] /\ key <> [] /\ NoDup l /\
      forall ws, ws ∈ l -> websocket_projects m !! ws = Some key) /\
  (forall ws key,
      websocket_projects m !! ws = Some key ->
      exists l, project_connections m !! key = Some l /\ ws ∈ l).

(** The websocket is in none of the lists of connections. *)
Definition unlisted (ws : websocket) (m : FanoutWebSocketManager) : Prop :=
  forall key l, project_connections m !! key = Some l -> ws ∉ l.

End ManagerNotions.

(** ** Measures and predicates on variable trees *)

Module TreeNotions.
Import VarTree.

(** The number of levels of children below a node. *)
Fixpoint height (n : node) : nat :=
  match n with
  | mkNode _ _ _ None => 0%nat
  | mkNode _ _ _ (Some cs) => S (list_max (map height cs))
  end.

(** [P] holds of a node and of every node below it. *)
Inductive every (P : node -> Prop) : node -> Prop :=
| every_node n :
    P n ->
    (forall cs, node_children n = Some cs -> Forall (every P) cs) ->
    every P n.

(** The kinds whose nodes carry children. *)
Definition container_kinds : list text :=
  [str "list"; str "tuple"; str "dict"; str "set"; str "instance"].

(** The shape every node has: a leaf of kind [primitive] or [other], or a
    node of a container kind with a list of children. *)
Definition well_shaped (n : node) : Prop :=
  match node_children n with
  | None => node_kind n = str "primitive" \/ node_kind n = str "other"
  | Some _ => In (node_kind n) container_kinds
  end.

(** A node has at most [max_children + 1] children. *)
Definition narrow (max_children : Z) (n : node) : Prop :=
  match node_children n with
  | None => True
  | Some cs => len cs <= max_children + 1
  end.

End TreeNotions.

(** ** The notions the properties of the session are stated with *)

Module SessionNotions.
Import PyStr Parser Json Session Gateway.

(** The number of characters the process has still to write. *)
Definition remaining (s : DebugSession) : nat :=
  match process s with
  | Some p => length (stdout p)
  | None => 0
  end.

(** The session has no process, or its process has exited. *)
Definition halted (s : DebugSession) : Prop :=
  match process s with
  | Some p => returncode p <> None
  | None => True
  end.

(** The process of [s'] is the process of [s] after some more lines were
    written to it and some more of its output was read. *)
Definition talked (s s' : DebugSession) : Prop :=
  match process s, process s' with
  | Some p, Some p' =>
      (exists written, stdin p' = stdin p ++ written) /\
      (exists read, stdout p = read ++ stdout p') /\
      returncode p' = returncode p
  | None, None => True
  | _, _ => False
  end.

(** From [s] to [s'] nothing happened but talking to the process. *)
Definition calm (s s' : DebugSession) : Prop :=
  container_name s' = container_name s /\
  filename s' = filename s /\
  code s' = code s /\
  user_defined_function_calls s' = user_defined_function_calls s /\
  execution_history s' = execution_history s /\
  talked s s'.

(** Whatever its outcome, the method takes a session to one related to it
    by [R]. *)
Definition keeps {A} (R : DebugSession -> DebugSession -> Prop) (m : M A)
  : Prop :=
  forall s, R s (m s).2.

(** The name under which a step is filed in the history. *)
Definition step_name (c : command_name) : text :=
  match c with
  | StepOver => str "step_over"
  | StepInto => str "step_into"
  | StepOut => str "step_out"
  end.

(** An entry as the step [c] files it: under its name, without an
    explanation, and with a delta unless the step is [step_into]. *)
Definition entry_of (c : command_name) (e : HistoryEntry) : Prop :=
  step_type e = step_name c /\ explanation e = None /\
  (delta e = None <-> c = StepInto).

(** From [s] to [s'] at most [n] entries of the step [c] were appended to
    the history, and the process was talked to or the session finished. *)
Definition added (c : command_name) (n : nat) (s s' : DebugSession) : Prop :=
  container_name s' = container_name s /\
  filename s' = filename s /\
  user_defined_function_calls s' = user_defined_function_calls s /\
  (exists l, execution_history s' = execution_history s ++ l /\
             (length l <= n)%nat /\ Forall (entry_of c) l) /\
  (process s' = None /\ code s' = None \/
   talked s s' /\ code s' = code s).

(** The session is finished, or the last entry of its history was filed by
    the step [c]. *)
Definition settled (c : command_name) (s : DebugSession) : Prop :=
  process s = None \/
  exists e, last (execution_history s) = Some e /\ entry_of c e.

(** When the method returns normally from a session that satisfies [P],
    the session it leaves satisfies [Q]. *)
Definition triple {A} (P : DebugSession -> Prop) (m : M A)
           (Q : DebugSession -> Prop) : Prop :=
  forall s a s', P s -> m s = (Ok a, s') -> Q s'.

(** The process is running and has closed its output. *)
Definition closed (s : DebugSession) : Prop :=
  exists p, process s = Some p /\ returncode p = None /\ stdout p = [].

(** The process of [s'] has no more left to write than that of [s]. *)
Definition shrunk (s s' : DebugSession) : Prop :=
  (remaining s' <= remaining s)%nat.

(** The method returns or raises on [s]: its loop does not outlast its
    fuel. *)
Definition ends {A} (m : M A) (s : DebugSession) : Prop :=
  (m s).1 <> OutOfFuel.

(** The method ends on every session that has less than [n] characters
    left to read. *)
Definition ends_within {A} (n : nat) (m : M A) : Prop :=
  forall s, (remaining s < n)%nat -> ends m s.

(** The method raises "Program finished" and leaves the session as it
    is. *)
Definition refused {A} (m : M A) (s : DebugSession) : Prop :=
  m s = (Raise (Exception (str "Program finished")), s).

End SessionNotions.

(** ** What a step captures *)

Module CaptureNotions.
Import PyStr Parser Json Session.

(** The entry records a completed call. *)
Definition is_call (c : CapturedCall) : Prop :=
  match c with
  | Call _ _ _ => True
  | ExceptionInfo _ _ => False
  end.

(** Completed calls, followed by at most one exception. *)
Definition calls_then_exception (calls : list CapturedCall) : Prop :=
  exists completed,
    Forall is_call completed /\
    (calls = completed \/
     exists exception_repr traceback,
       calls = completed ++ [ExceptionInfo exception_repr traceback]).

(** Whenever the method returns normally, what it returns satisfies [Q]. *)
Definition returns {A} (m : M A) (Q : A -> Prop) : Prop :=
  forall s a s', m s = (Ok a, s') -> Q a.

End CaptureNotions.

(** ** Sessions and gateways to run the steps on *)

Module Runs.
Import Parser Json Session Gateway Fixtures.

(** What the debugger prints during [step_over] on line 5 and during the
    [get_state] with which the gateway answers it. *)
Definition paused_for_gateway : DebugSession :=
  session_on (transcript (step_over_answers
                          ++ frame_and_locals where_main_6 locals_y
                          ++ frame_and_locals where_main_6 locals_y
                          ++ frame_and_locals where_main_6 locals_y)).


(** The answer of the gateway to [step_over] on line 5: the session it
    keeps, and the state and the program output it sends. *)
Definition gateway_step_over : step_result :=
  Eval vm_compute in
    _handle_simple_command no_eval 2 paused_for_gateway StepOver [].
Definition stepped_session : DebugSession :=
  Eval vm_compute in
    match gateway_step_over with
    | Continue (Some s) _ => s
    | _ => finished_session
    end.
Definition no_state : State :=
  mkState [] 0 JNull false false false false None.
Definition stepped_state : State :=
  Eval vm_compute in
    match result_sent gateway_step_over with
    | [RState _ st _ _] => st
    | _ => no_state
    end.
Definition stepped_output : text :=
  Eval vm_compute in
    match result_sent gateway_step_over with
    | [RState _ _ out _] => out
    | _ => []
    end.

(** A host with one project, whose debugger prints its banner and
    acknowledges the injection of the inspector. *)
Definition one_file (project_id : text) : option text := Some source.
Definition banner : text :=
  text_of_lines [ "> /app/main.py(1)<module>()"; "-> def helper(a):" ]%string.
Definition fresh_process (project_id : text) : outcome Popen :=
  Ok (mkPopen [] (transcript [banner; []]) None).
Definition started_session : DebugSession :=
  Eval vm_compute in
    default finished_session
            (outcome_value
               (new_session [] one_file no_calls fresh_process (str "7"))).

(** The session of [paused_on_line_5] once [step_over] has asked for its
    state, what [_step_over_and_capture_delta] returns for it, and the
    session it leaves. *)
Definition before_capture : DebugSession :=
  Eval vm_compute in (get_state no_eval paused_on_line_5).2.
Definition captured : text * text * Delta :=
  Eval vm_compute in
    default ([], [], mkDelta [] [] [])
            (outcome_value
               (_step_over_and_capture_delta no_eval 2 before_capture).1).
Definition after_capture : DebugSession :=
  Eval vm_compute in
    (_step_over_and_capture_delta no_eval 2 before_capture).2.

(** Two answers of the debugger, each followed by the prompt. *)
Definition two_answers : DebugSession :=
  session_on (transcript [where_main_5; no_locals]).

End Runs.

(** * Properties *)

(** ** Facts about the text primitives *)

Module PyStrFacts.
Import Notions.

Lemma ceq_true (a b : ascii) : ceq a b = true <-> a = b.
Proof. unfold ceq. apply Ascii.eqb_eq. Qed.

Lemma text_eqb_spec (a b : text) : text_eqb a b = true <-> a = b.
Proof.
  revert b. induction a as [|c a IH]; intros [|d b]; simpl; try done.
  rewrite andb_true_iff, ceq_true, IH. split; [by intros [-> ->]|].
  by intros [= -> ->].
Qed.

Lemma startswith_spec (s p : text) :
  startswith s p = true <-> exists r, s = p ++ r.
Proof.
  revert s. induction p as [|c p IH]; intros s; simpl.
  - split; [intros _; by exists s | done].
  - destruct s as [|d s].
    + split; [done | intros [r Hr]; discriminate].
    + rewrite andb_true_iff, ceq_true, IH. split.
      * intros [-> [r ->]]. by exists r.
      * intros [r Hr]. injection Hr as -> ->. split; [done | by exists r].
Qed.

Lemma endswith_spec (s p : text) :
  endswith s p = true <-> exists r, s = r ++ p.
Proof.
  unfold endswith. rewrite startswith_spec. split.
  - intros [r Hr]. exists (rev r).
    rewrite <- (rev_involutive s), Hr, rev_app_distr.
    by rewrite rev_involutive.
  - intros [r ->]. exists (rev r). by rewrite rev_app_distr.
Qed.

Lemma occurs_at_0 (p s : text) : occurs_at p s 0 -> startswith s p = true.
Proof. intros [post H]. apply startswith_spec. by exists post. Qed.

Lemma find_Some (s p : text) (i : nat) :
  find s p = Some i ->
  (i <= length s)%nat /\ occurs_at p s i /\
  forall j, (j < i)%nat -> ~ occurs_at p s j.
Proof.
  revert i. induction s as [|c s IH]; intros i; simpl.
  - destruct (startswith [] p) eqn:E; [|done].
    intros [= <-]. apply startswith_spec in E.
    split; [done|]. split; [exact E | lia].
  - destruct (startswith (c :: s) p) eqn:E.
    + intros [= <-]. apply startswith_spec in E.
      split; [simpl; lia|]. split; [exact E | lia].
    + destruct (find s p) as [k|] eqn:F; [|done].
      intros [= <-]. destruct (IH k eq_refl) as (Hk & Ho & Hm).
      split; [simpl; lia|]. split; [exact Ho|].
      intros [|j] Hj.
      * intros Hc. apply occurs_at_0 in Hc. congruence.
      * apply Hm. lia.
Qed.

Lemma find_None (s p : text) :
  find s p = None -> forall j, ~ occurs_at p s j.
Proof.
  induction s as [|c s IH]; simpl.
  - destruct (startswith [] p) eqn:E; [done|].
    intros _ j [post Hj]. rewrite drop_nil in Hj.
    assert (startswith [] p = true) by (apply startswith_spec; eauto).
    congruence.
  - destruct (startswith (c :: s) p) eqn:E; [done|].
    destruct (find s p) eqn:F; [done|].
    intros _ [|j].
    + intros Hc. apply occurs_at_0 in Hc. congruence.
    + by apply IH.
Qed.

Lemma find_None_absent (s p : text) : find s p = None -> absent p s.
Proof. intros H. exact (find_None _ _ H). Qed.

Lemma find_Some_first_at (s p : text) (i : nat) :
  find s p = Some i -> first_at p s i.
Proof. intros H. by destruct (find_Some _ _ _ H) as (_ & Ho & Hm). Qed.

Lemma occurs_at_split (p s : text) (i : nat) :
  occurs_at p s i -> exists post, s = take i s ++ p ++ post.
Proof.
  intros [post H]. exists post. by rewrite <- H, take_drop.
Qed.

End PyStrFacts.

(** ** The reader of JSON texts *)

Module JsonFacts.
Import PyStr Json.
Local Open Scope nat_scope.

Lemma skip_ws_length s : length (skip_ws s) <= length s.
Proof.
  induction s as [|c s IH]; simpl; [done|].
  destruct (is_json_ws c); simpl; lia.
Qed.

Lemma span_length p s a b :
  span p s = (a, b) -> length a + length b = length s.
Proof.
  revert a b. induction s as [|c s IH]; intros a b; simpl;
    [by intros [= <- <-]|].
  destruct (p c); [|by intros [= <- <-]].
  destruct (span p s) as [a' b'] eqn:E. intros [= <- <-].
  specialize (IH _ _ eq_refl). simpl. lia.
Qed.

Lemma read_json_string_length s :
  forall t rest,
    read_json_string s = Some (t, rest) -> length rest < length s.
Proof.
  remember (length s) as n eqn:Hn. revert s Hn.
  induction n as [n IH] using lt_wf_ind. intros s -> t rest H.
  destruct s as [|c s1]; [done|]. cbn [read_json_string] in H.
  assert (forall (f : text * text -> text * text) s',
             (forall r, (f r).2 = r.2) ->
             length s' < length (c :: s1) ->
             f <$> read_json_string s' = Some (t, rest) ->
             length rest < length (c :: s1)) as Hrec.
  { intros f s' Hf Hs' E.
    destruct (read_json_string s') as [[t' r']|] eqn:E'; [|done].
    simpl in E. injection E as E. 
    pose proof (Hf (t', r')) as Hf'. rewrite E in Hf'. simpl in Hf'. subst r'.
    specialize (IH _ Hs' s' eq_refl _ _ E'). lia. }
  destruct (ceq c dquote); [injection H as <- <-; simpl; lia|].
  destruct (ceq c "\").
  - destruct s1 as [|e s2]; [done|].
    repeat match type of H with
           | (if ?b then _ else _) = _ => destruct b
           end;
      try (apply Hrec in H; [done|done|simpl; lia]); try done.
    destruct s2 as [|h1 [|h2 [|h3 [|h4 s3]]]]; try done.
    repeat case_match; try done.
    apply Hrec in H; [done|done|simpl; lia].
  - destruct (_ <? _); [done|].
    apply Hrec in H; [done|done|simpl; lia].
Qed.

Lemma read_json_number_length s v rest :
  read_json_number s = Ok (v, rest) -> length rest < length s.
Proof.
  unfold read_json_number.
  destruct (match s with
            | c :: s' => if ceq c "-" then ([c], s') else ([], s)
            | [] => ([], s)
            end) as [sign s1] eqn:Es.
  assert (length s1 <= length s) as H1.
  { destruct s as [|c s']; [by injection Es as <- <-|].
    destruct (ceq c "-"); injection Es as <- <-; simpl; lia. }
  destruct (span is_digit s1) as [ip s2] eqn:E2. apply span_length in E2.
  destruct ip as [|d ds]; [done|]. simpl in E2.
  set (s2' := if ceq d "0" then ds ++ s2 else s2).
  assert (length s2' < length s) as H2.
  { subst s2'. destruct (ceq d "0"); rewrite ?length_app; lia. }
  clearbody s2'.
  destruct (match s2' with
            | c :: t =>
                if ceq c "." then
                  let '(fd, t') := span is_digit t in
                  match fd with [] => ([], s2') | _ => (c :: fd, t') end
                else ([], s2')
            | [] => ([], s2')
            end) as [frac s3] eqn:E3.
  assert (length s3 <= length s2') as H3.
  { destruct s2' as [|c t]; [by injection E3 as <- <-|].
    destruct (ceq c "."); [|by injection E3 as <- <-].
    destruct (span is_digit t) as [fd t'] eqn:E. apply span_length in E.
    destruct fd; injection E3 as <- <-; simpl in *; lia. }
  destruct (match s3 with
            | c :: t =>
                if ceq c "e" || ceq c "E" then
                  let '(sg, t1) :=
                    match t with
                    | g :: t' =>
                        if ceq g "+" || ceq g "-" then ([g], t') else ([], t)
                    | [] => ([], t)
                    end in
                  let '(ed, t2) := span is_digit t1 in
                  match ed with [] => ([], s3) | _ => (c :: sg ++ ed, t2) end
                else ([], s3)
            | [] => ([], s3)
            end) as [ex s4] eqn:E4.
  assert (length s4 <= length s3) as H4.
  { destruct s3 as [|c t]; [by injection E4 as <- <-|].
    destruct (ceq c "e" || ceq c "E"); [|by injection E4 as <- <-].
    destruct (match t with
              | g :: t' =>
                  if ceq g "+" || ceq g "-" then ([g], t') else ([], t)
              | [] => ([], t)
              end) as [sg t1] eqn:Et.
    assert (length t1 <= length t) as Ht.
    { destruct t as [|g t']; [by injection Et as <- <-|].
      destruct (ceq g "+" || ceq g "-"); injection Et as <- <-; simpl; lia. }
    destruct (span is_digit t1) as [ed t2] eqn:E. apply span_length in E.
    destruct ed; injection E4 as <- <-; simpl in *; lia. }
  unfold outcome_map, outcome_bind, py_int.
  destruct frac, ex; try (intros [= _ <-]; lia).
  destruct (_ <? _)%Z; [done|]. intros [= _ <-]. lia.
Qed.

Lemma skip_ws_cons s c s1 :
  skip_ws s = c :: s1 -> length s1 < length s.
Proof. intros H. pose proof (skip_ws_length s) as L. rewrite H in L. simpl in L. lia. Qed.

Lemma decoded_string_length s1 v rest :
  decoded ((fun r : text * text => (JStr r.1, r.2)) <$> read_json_string s1)
  = Ok (v, rest) ->
  length rest < length s1.
Proof.
  destruct (read_json_string s1) as [[t r]|] eqn:E; [|done].
  intros [= _ <-]. by apply read_json_string_length in E.
Qed.

(** Every value read consumes at least one character. *)
Lemma read_value_length f :
  (forall s v rest,
      read_value f s = Ok (v, rest) -> length rest < length s) /\
  (forall s acc v rest,
      read_elements f s acc = Ok (v, rest) -> length rest < length s) /\
  (forall s acc v rest,
      read_members f s acc = Ok (v, rest) -> length rest < length s).
Proof.
  induction f as [|f (IHv & IHe & IHm)]; [done|].
  split; [|split].
  - intros s v rest. cbn [read_value].
    destruct (skip_ws s) as [|c s1] eqn:Es; [done|].
    apply skip_ws_cons in Es.
    destruct (ceq c dquote).
    { intros H. apply decoded_string_length in H. lia. }
    destruct (ceq c "[").
    { destruct (skip_ws s1) as [|d s2] eqn:E1; [done|].
      pose proof (skip_ws_cons _ _ _ E1) as L1.
      destruct (ceq d "]"); [intros [= _ <-]; lia|].
      intros H. apply IHe in H. pose proof (skip_ws_length s1) as L2.
      rewrite E1 in *. lia. }
    destruct (ceq c "{").
    { destruct (skip_ws s1) as [|d s2] eqn:E1; [done|].
      pose proof (skip_ws_cons _ _ _ E1) as L1.
      destruct (ceq d "}"); [intros [= _ <-]; lia|].
      intros H. apply IHm in H. pose proof (skip_ws_length s1) as L2.
      rewrite E1 in *. lia. }
    repeat match goal with
           | |- (if ?b then _ else _) = _ -> _ =>
               destruct b; [intros [= _ <-]; rewrite length_drop; simpl; lia|]
           end.
    intros H. apply read_json_number_length in H. simpl in *. lia.
  - intros s acc v rest. cbn [read_elements].
    destruct (read_value f s) as [[x s1]| |] eqn:E; [|done|done].
    apply IHv in E.
    destruct (skip_ws s1) as [|c s2] eqn:E1; [done|].
    apply skip_ws_cons in E1.
    destruct (ceq c ",").
    { intros H. apply IHe in H. lia. }
    destruct (ceq c "]"); [|done]. intros [= _ <-]. lia.
  - intros s acc v rest. cbn [read_members].
    destruct (skip_ws s) as [|q s0] eqn:Es; [done|].
    apply skip_ws_cons in Es.
    destruct (ceq q dquote); [|done].
    destruct (read_json_string s0) as [[k s1]|] eqn:Ek; [|done].
    apply read_json_string_length in Ek.
    destruct (skip_ws s1) as [|c s2] eqn:E1; [done|].
    apply skip_ws_cons in E1.
    destruct (ceq c ":"); [|done].
    destruct (read_value f s2) as [[x s3]| |] eqn:E; [|done|done].
    apply IHv in E.
    destruct (skip_ws s3) as [|d s4] eqn:E3; [done|].
    apply skip_ws_cons in E3.
    destruct (ceq d ",").
    { intros H. apply IHm in H. lia. }
    destruct (ceq d "}"); [|done]. intros [= _ <-]. lia.
Qed.

Lemma read_json_number_ends s : read_json_number s <> OutOfFuel.
Proof.
  unfold read_json_number, outcome_map, outcome_bind, py_int.
  destruct (match s with [] => _ | _ => _ end) as [sign s1].
  destruct (span is_digit s1) as [ip s2]. destruct ip as [|d ds]; [done|].
  destruct (match (if ceq d "0" then ds ++ s2 else s2) with
            | [] => _
            | _ => _
            end) as [frac s3].
  destruct (match s3 with [] => _ | _ => _ end) as [ex s4].
  destruct frac, ex; try done. by destruct (_ <? _)%Z.
Qed.

(** Twice the length of the text, and one call more, is fuel enough. *)
Lemma read_value_fuel f :
  (forall s, 2 * length s + 1 <= f -> read_value f s <> OutOfFuel) /\
  (forall s acc,
      2 * length s + 2 <= f -> read_elements f s acc <> OutOfFuel) /\
  (forall s acc,
      2 * length s + 2 <= f -> read_members f s acc <> OutOfFuel).
Proof.
  induction f as [|f (IHv & IHe & IHm)]; [repeat split; intros; lia|].
  split; [|split].
  - intros s Hf. cbn [read_value].
    destruct (skip_ws s) as [|c s1] eqn:Es; [done|].
    apply skip_ws_cons in Es.
    destruct (ceq c dquote).
    { by destruct (read_json_string s1) as [[]|]. }
    destruct (ceq c "[").
    { destruct (skip_ws s1) as [|d s2] eqn:E1; [done|].
      destruct (ceq d "]"); [done|]. apply IHe.
      pose proof (skip_ws_length s1). rewrite E1 in *. lia. }
    destruct (ceq c "{").
    { destruct (skip_ws s1) as [|d s2] eqn:E1; [done|].
      destruct (ceq d "}"); [done|]. apply IHm.
      pose proof (skip_ws_length s1). rewrite E1 in *. lia. }
    repeat match goal with
           | |- (if ?b then _ else _) <> _ => destruct b; [done|]
           end.
    apply read_json_number_ends.
  - intros s acc Hf. cbn [read_elements].
    pose proof (IHv s ltac:(lia)) as Hv.
    destruct (read_value f s) as [[x s1]| |] eqn:E; [|done|done].
    apply (proj1 (read_value_length f)) in E.
    destruct (skip_ws s1) as [|c s2] eqn:E1; [done|].
    apply skip_ws_cons in E1.
    destruct (ceq c ","); [apply IHe; lia|]. by destruct (ceq c "]").
  - intros s acc Hf. cbn [read_members].
    destruct (skip_ws s) as [|q s0] eqn:Es; [done|].
    apply skip_ws_cons in Es.
    destruct (ceq q dquote); [|done].
    destruct (read_json_string s0) as [[k s1]|] eqn:Ek; [|done].
    apply read_json_string_length in Ek.
    destruct (skip_ws s1) as [|c s2] eqn:E1; [done|].
    apply skip_ws_cons in E1.
    destruct (ceq c ":"); [|done].
    pose proof (IHv s2 ltac:(lia)) as Hv.
    destruct (read_value f s2) as [[x s3]| |] eqn:E; [|done|done].
    apply (proj1 (read_value_length f)) in E.
    destruct (skip_ws s3) as [|d s4] eqn:E3; [done|].
    apply skip_ws_cons in E3.
    destruct (ceq d ","); [apply IHm; lia|]. by destruct (ceq d "}").
Qed.

(** [json.loads] returns or raises. *)
Lemma json_loads_ends s : json_loads s <> OutOfFuel.
Proof.
  unfold json_loads.
  pose proof (proj1 (read_value_fuel (2 * length s + 4)) s ltac:(lia)) as H.
  destruct (read_value _ s) as [[v rest]| |]; [|done|done].
  by destruct (skip_ws rest).
Qed.

End JsonFacts.

(** ** The process bridge *)

Module BridgeFacts.
Import Notions PyStrFacts Parser Session Fixtures.

(** The loop returns a prefix of what was buffered and still to come;
    either that prefix ends with the pattern, or the stream was read to its
    end without any intermediate buffer ending with the pattern. *)
Lemma read_loop_inv (pattern : text) (out : list ascii) :
  forall acc o rest,
    read_loop pattern acc out = (o, rest) ->
    o ++ rest = acc ++ out /\
    (exists m, o = acc ++ m) /\
    (endswith o pattern = true /\ o <> acc \/
     rest = [] /\
     forall m m', out = m ++ m' -> m <> [] ->
                  endswith (acc ++ m) pattern = false).
Proof.
  induction out as [|c out IH]; intros acc o rest; simpl.
  - intros [= <- <-]. split; [done|].
    split; [exists []; by rewrite app_nil_r|].
    right. split; [done|]. intros m m' H Hm. by destruct m.
  - destruct (endswith (acc ++ [c]) pattern) eqn:E.
    + intros [= <- <-]. split; [by rewrite <- app_assoc|].
      split; [by exists [c]|].
      left. split; [done|]. intros H.
      apply (f_equal length) in H. rewrite length_app in H. simpl in H. lia.
    + intros H. destruct (IH _ _ _ H) as (Heq & [m Hm] & Hcase).
      split; [by rewrite Heq, <- app_assoc|].
      split; [exists ([c] ++ m); by rewrite Hm, <- app_assoc|].
      destruct Hcase as [[He Hne] | [-> Hall]].
      * left. split; [done|]. intros Ho. rewrite Ho in Hm.
        apply (f_equal length) in Hm.
        rewrite !length_app in Hm. simpl in Hm. lia.
      * right. split; [done|].
        intros [|d k] k' Hk Hnil; [done|].
        injection Hk as <- ->.
        destruct k as [|d k].
        -- exact E.
        -- specialize (Hall (d :: k) k' eq_refl).
           rewrite <- app_assoc in Hall. by apply Hall.
Qed.

Lemma read_loop_found (pattern : text) (out : list ascii) o rest :
  read_loop pattern [] out = (o, rest) ->
  appears pattern out -> endswith o pattern = true.
Proof.
  intros H [pre [post Hout]].
  destruct (read_loop_inv _ _ _ _ _ H) as (Heq & _ & [[He _] | [-> Hall]]);
    [done|].
  destruct (pre ++ pattern) as [|c m] eqn:Em.
  - apply app_eq_nil in Em as [_ ->]. apply endswith_spec. exists o.
    by rewrite app_nil_r.
  - specialize (Hall (c :: m) post).
    rewrite <- Em, <- app_assoc in Hall. specialize (Hall Hout).
    rewrite Em in Hall. specialize (Hall ltac:(done)). simpl in Hall.
    rewrite <- Em in Hall.
    assert (endswith (pre ++ pattern) pattern = true) as Hc
        by (apply endswith_spec; eauto).
    congruence.
Qed.

Lemma read_loop_eof (pattern : text) (out : list ascii) o rest :
  read_loop pattern [] out = (o, rest) ->
  ~ appears pattern out -> o = out /\ rest = [].
Proof.
  intros H Hno.
  destruct (read_loop_inv _ _ _ _ _ H) as (Heq & _ & [[He _] | [-> Hall]]).
  - exfalso. apply Hno. apply endswith_spec in He as [r ->].
    exists r, rest. simpl in Heq. by rewrite <- Heq, <- app_assoc.
  - simpl in Heq. rewrite app_nil_r in Heq. done.
Qed.

(** C9.  [_read_up_to] never raises on a session that has a process: it
    returns a prefix of the stream (the characters read so far); whenever
    the marker appears in the stream the returned text ends with the
    marker, and when the stream closes without the marker ever appearing
    the returned text is exactly the whole stream, possibly empty. *)
Theorem read_up_to_marker_or_eof (pattern : text) (s : DebugSession)
        (p : Popen) :
  process s = Some p ->
  exists output rest,
    _read_up_to pattern s
    = (Ok output,
       set_process (Some (mkPopen (stdin p) rest (returncode p))) s) /\
    stdout p = output ++ rest /\
    (appears pattern (stdout p) -> endswith output pattern = true) /\
    (~ appears pattern (stdout p) -> output = stdout p /\ rest = []).
Proof.
  intros Hp. unfold _read_up_to. rewrite Hp.
  destruct (read_loop pattern [] (stdout p)) as [o rest] eqn:E.
  exists o, rest. split; [done|].
  split; [by destruct (read_loop_inv _ _ _ _ _ E) as [-> _]|].
  split; [by apply read_loop_found with rest | by apply read_loop_eof].
Qed.

Lemma read_up_to_marker_or_eof_witness :
  let s := session_on (str "ab(Pdb) cd") in
  let p := mkPopen [] (str "ab(Pdb) cd") None in
  process s = Some p /\
  exists output rest,
    _read_up_to PDB_PROMPT s
    = (Ok output,
       set_process (Some (mkPopen (stdin p) rest (returncode p))) s) /\
    stdout p = output ++ rest /\
    (appears PDB_PROMPT (stdout p) -> endswith output PDB_PROMPT = true) /\
    (~ appears PDB_PROMPT (stdout p) -> output = stdout p /\ rest = []).
Proof.
  split; [reflexivity|].
  exact (read_up_to_marker_or_eof PDB_PROMPT (session_on (str "ab(Pdb) cd"))
                                  (mkPopen [] (str "ab(Pdb) cd") None)
                                  eq_refl).
Defined.

End BridgeFacts.

(** ** The output parser *)

Module ParserFacts.
Import Notions PyStrFacts Parser Session Fixtures.

(** *** Control markers *)

Lemma first_marker_hit ps raw po pattern i :
  find raw pattern = Some i ->
  first_marker (pattern :: ps) raw po = (take i raw, pattern).
Proof. intros H. simpl. by rewrite H. Qed.

Lemma first_marker_miss ps raw po pattern :
  absent pattern raw ->
  first_marker (pattern :: ps) raw po = first_marker ps raw po.
Proof.
  intros H. simpl. destruct (find raw pattern) as [i|] eqn:E; [|done].
  destruct (find_Some _ _ _ E) as (_ & Ho & _). by destruct (H i).
Qed.

Lemma find_first raw pattern i :
  first_at pattern raw i -> find raw pattern = Some i.
Proof.
  intros [Ho Hmin]. destruct (find raw pattern) as [k|] eqn:E.
  - destruct (find_Some _ _ _ E) as (_ & Hk & Hkmin).
    destruct (Nat.lt_trichotomy k i) as [Hlt | [-> | Hgt]]; [|done|].
    + by destruct (Hmin k Hlt).
    + by destruct (Hkmin i Hgt).
  - by destruct (find_None _ _ E i).
Qed.

(** Once the text is read, [_read_user_and_pdb_output] returns what
    [split_user_and_pdb_output] makes of the parser's result, and raises
    what the parser raises. *)
Lemma read_user_and_pdb_output_after s out s' :
  _read_up_to PDB_PROMPT s = (Ok out, s') ->
  _read_user_and_pdb_output s
  = (outcome_map (split_user_and_pdb_output (replace out PDB_PROMPT []))
                 (parse_pdb_output (replace out PDB_PROMPT [])),
     s').
Proof.
  intros E. unfold _read_user_and_pdb_output, bind, lift, ret. rewrite E.
  by destruct (parse_pdb_output _).
Qed.

(** C1, as the code has it.  The marker reported is the first, in the
    fixed order call, return, finished, that occurs in the raw text, and
    the program output is the raw text up to the first occurrence of that
    marker; with no marker in the text the marker is empty and the program
    output is the parser's.  Here [parsed] is what the parser returned on
    the raw text: the method returns what is described for the parser's
    result. *)
Theorem marker_priority_order (raw : text) (parsed : text * list Frame) :
  let r := split_user_and_pdb_output raw parsed in
  (forall i, first_at CALL_PATTERN raw i ->
             r.1.2 = CALL_PATTERN /\ r.1.1 = take i raw) /\
  (forall i, absent CALL_PATTERN raw -> first_at RETURN_PATTERN raw i ->
             r.1.2 = RETURN_PATTERN /\ r.1.1 = take i raw) /\
  (forall i, absent CALL_PATTERN raw -> absent RETURN_PATTERN raw ->
             first_at PROGRAM_FINISHED_PATTERN raw i ->
             r.1.2 = PROGRAM_FINISHED_PATTERN /\ r.1.1 = take i raw) /\
  (absent CALL_PATTERN raw -> absent RETURN_PATTERN raw ->
   absent PROGRAM_FINISHED_PATTERN raw ->
   r.1.2 = [] /\ r.1.1 = parsed.1) /\
  r.2 = parsed.2 /\
  (forall s out s',
      _read_up_to PDB_PROMPT s = (Ok out, s') ->
      raw = replace out PDB_PROMPT [] ->
      _read_user_and_pdb_output s
      = (outcome_map (split_user_and_pdb_output raw) (parse_pdb_output raw),
         s')).
Proof.
  intros r. subst r. unfold split_user_and_pdb_output.
  destruct parsed as [po frames]. cbn [fst snd].
  split; [|split; [|split; [|split; [|split]]]].
  - intros i Hf. by rewrite (first_marker_hit _ _ _ _ _ (find_first _ _ _ Hf)).
  - intros i Ha Hf. rewrite first_marker_miss by done.
    by rewrite (first_marker_hit _ _ _ _ _ (find_first _ _ _ Hf)).
  - intros i Ha Hb Hf. rewrite !first_marker_miss by done.
    by rewrite (first_marker_hit _ _ _ _ _ (find_first _ _ _ Hf)).
  - intros Ha Hb Hc. by rewrite !first_marker_miss by done.
  - by destruct (first_marker _ raw po).
  - intros s out s' E ->. by apply read_user_and_pdb_output_after.
Qed.

Lemma marker_priority_order_witness :
  absent CALL_PATTERN return_from_helper /\
  first_at RETURN_PATTERN return_from_helper 0 /\
  parse_pdb_output return_from_helper = Ok parsed_return /\
  (split_user_and_pdb_output return_from_helper parsed_return).1.2
  = RETURN_PATTERN /\
  (split_user_and_pdb_output return_from_helper parsed_return).1.1
  = take 0 return_from_helper.
Proof.
  assert (absent CALL_PATTERN return_from_helper) as Ha
      by (apply find_None_absent; reflexivity).
  assert (first_at RETURN_PATTERN return_from_helper 0) as Hf
      by (apply find_Some_first_at; reflexivity).
  split; [exact Ha|]. split; [exact Hf|]. split; [reflexivity|].
  exact (proj1 (proj2 (marker_priority_order return_from_helper
                                             parsed_return)) 0%nat Ha Hf).
Defined.

(** C1 as stated fails: in a text where [--Return--] comes first and
    [--Call--] second, the textually first marker is [--Return--], yet the
    marker reported is [--Call--] and the program output runs up to
    [--Call--], beyond the position of the first marker. *)
Lemma marker_is_not_the_textually_first :
  textually_first markers return_then_call = Some (0%nat, RETURN_PATTERN) /\
  outcome_map (fun r => (r.1.2, r.1.1)) (read_result return_then_call)
  = Ok (CALL_PATTERN, str "--Return--" ++ [newline]) /\
  CALL_PATTERN <> RETURN_PATTERN.
Proof.
  split; [by vm_compute|]. split; [by vm_compute | discriminate].
Qed.

(** *** Frames *)






Lemma parse_frames_cons l rest :
  parse_frames (l :: rest)
  = match frame_with_code
            l (join [newline] (take 2 (l :: rest)) ++ [newline]) with
    | Some frame => append_frame frame (parse_frames (tail rest))
    | None =>
        match frame_string l with
        | Some frame => append_frame frame (parse_frames rest)
        | None => parse_frames rest
        end
    end.
Proof. destruct rest; reflexivity. Qed.

Lemma append_frame_Ok frame rest fs :
  append_frame frame rest = Ok fs ->
  exists f fs', frame = Ok f /\ rest = Ok fs' /\ fs = f :: fs'.
Proof.
  unfold append_frame, outcome_map, outcome_bind.
  destruct frame as [f| |]; [|done|done].
  destruct rest as [fs'| |]; [|done|done].
  intros [= <-]. by exists f, fs'.
Qed.

(** Every frame is built on a line of its own, in the order of the
    lines. *)
Lemma parse_frames_headers (ls : list text) :
  (forall fs, parse_frames ls = Ok fs ->
              exists hs, hs `sublist_of` ls /\ Forall2 built_on hs fs) /\
  (forall l fs, parse_frames (l :: ls) = Ok fs ->
                exists hs, hs `sublist_of` (l :: ls) /\ Forall2 built_on hs fs).
Proof.
  induction ls as [|l' ls [IH1 IH2]].
  - split; [intros fs [= <-]; by exists []|].
    intros l fs. rewrite parse_frames_cons.
    destruct (frame_with_code _ _) as [frame|] eqn:E1.
    + intros H. apply append_frame_Ok in H as (f & fs' & -> & [= <-] & ->).
      exists [l]. split; [done|]. constructor; [|done]. left. by eexists.
    + destruct (frame_string l) as [frame|] eqn:E2.
      * intros H. apply append_frame_Ok in H as (f & fs' & -> & [= <-] & ->).
        exists [l]. split; [done|]. constructor; [|done]. by right.
      * intros [= <-]. exists []. split; [apply sublist_nil_l | done].
  - split; [apply IH2|]. intros l fs. rewrite parse_frames_cons.
    destruct (frame_with_code _ _) as [frame|] eqn:E1.
    + intros H. apply append_frame_Ok in H as (f & fs' & -> & H & ->).
      destruct (IH1 _ H) as (hs & Hs & HF).
      exists (l :: hs). split; [by apply sublist_skip, sublist_cons|].
      constructor; [|done]. left. by eexists.
    + destruct (frame_string l) as [frame|] eqn:E2.
      * intros H. apply append_frame_Ok in H as (f & fs' & -> & H & ->).
        destruct (IH2 _ _ H) as (hs & Hs & HF).
        exists (l :: hs). split; [by apply sublist_skip|].
        constructor; [|done]. by right.
      * intros H. destruct (IH2 _ _ H) as (hs & Hs & HF).
        exists hs. split; [by apply sublist_cons | done].
Qed.






(** *** What the parser raises *)

Lemma py_int_cases digits :
  py_int digits = Ok (int_of_digits digits) /\ len digits <= INT_MAX_STR_DIGITS
  \/ py_int digits = Raise ValueError /\ INT_MAX_STR_DIGITS < len digits.
Proof.
  unfold py_int. destruct (_ <? _) eqn:E; [right|left]; (split; [done|lia]).
Qed.

Lemma frame_with_code_cases l joined r :
  frame_with_code l joined = Some r ->
  (exists f, r = Ok f) \/ r = Raise ValueError /\ overlong l.
Proof.
  unfold frame_with_code, outcome_map, outcome_bind.
  destruct (Re.match_ _ joined) as [groups|] eqn:E; [|done].
  destruct groups as [|g1 [|g2 [|g3 [|g4 [|]]]]]; try done.
  intros [= <-]. destruct (py_int_cases g2) as [[-> _] | [-> H]]; [by eauto|].
  right. split; [done|]. exists joined, [g1; g2; g3; g4], g2. by eauto.
Qed.

Lemma frame_string_cases l r :
  frame_string l = Some r ->
  (exists f, r = Ok f) \/ r = Raise ValueError /\ overlong l.
Proof.
  unfold frame_string, outcome_map, outcome_bind.
  destruct (Re.match_ _ l) as [groups|] eqn:E; [|done].
  destruct groups as [|g1 [|g2 [|g3 [|]]]]; try done.
  intros [= <-]. destruct (py_int_cases g2) as [[-> _] | [-> H]]; [by eauto|].
  right. split; [done|]. exists [], [g1; g2; g3], g2. by eauto.
Qed.

(** The frames so far, then the rest: the first failure is the one
    reported. *)
Lemma append_frame_cases (l : text) (lines : list text) r rest :
  ((exists f, r = Ok f) \/ r = Raise ValueError /\ overlong l) ->
  ((exists fs, rest = Ok fs) \/
   rest = Raise ValueError /\ exists l', l' ∈ lines /\ overlong l') ->
  (exists fs, append_frame r rest = Ok fs) \/
  append_frame r rest = Raise ValueError /\
  exists l', l' ∈ l :: lines /\ overlong l'.
Proof.
  intros [[f ->] | [-> Ho]].
  - intros [[fs ->] | [-> (l' & Hl' & Ho')]]; [left; by eexists|].
    right. split; [done|]. exists l'. split; [by right | done].
  - intros _. right. split; [done|]. exists l. split; [by left | done].
Qed.

Lemma parse_frames_cases (ls : list text) :
  ((exists fs, parse_frames ls = Ok fs) \/
   parse_frames ls = Raise ValueError /\ exists l, l ∈ ls /\ overlong l) /\
  forall l0,
    (exists fs, parse_frames (l0 :: ls) = Ok fs) \/
    parse_frames (l0 :: ls) = Raise ValueError /\
    exists l, l ∈ l0 :: ls /\ overlong l.
Proof.
  induction ls as [|l' ls [IH1 IH2]].
  - split; [left; by eexists|]. intros l0. rewrite parse_frames_cons.
    destruct (frame_with_code _ _) as [r|] eqn:E1.
    + apply append_frame_cases; [by eapply frame_with_code_cases|].
      left. by eexists.
    + destruct (frame_string l0) as [r|] eqn:E2.
      * apply append_frame_cases; [by eapply frame_string_cases|].
        left. by eexists.
      * left. by eexists.
  - split; [apply IH2|]. intros l0. rewrite parse_frames_cons.
    destruct (frame_with_code _ _) as [r|] eqn:E1.
    + destruct (append_frame_cases l0 ls r (parse_frames ls))
        as [H | (H & l & Hl & Ho)];
        [by eapply frame_with_code_cases | exact IH1 | by left |].
      right. split; [done|]. exists l. split; [|done].
      apply elem_of_cons in Hl as [-> | Hl]; [by left | by do 2 right].
    + destruct (frame_string l0) as [r|] eqn:E2.
      * apply append_frame_cases; [by eapply frame_string_cases | apply IH2].
      * destruct (IH2 l') as [H | (H & l & Hl & Ho)]; [by left|].
        right. split; [done|]. exists l. split; [by right | done].
Qed.

(** The parser returns, or raises [ValueError] on a line number that is
    too long. *)
Lemma parse_pdb_output_cases output_text :
  (exists r, parse_pdb_output output_text = Ok r) \/
  parse_pdb_output output_text = Raise ValueError /\
  exists l, l ∈ split_lines output_text /\ overlong l.
Proof.
  unfold parse_pdb_output, outcome_map, outcome_bind.
  destruct (find_frame_start _) as [idx|]; [|left; by eexists].
  destruct (proj1 (parse_frames_cases (drop idx (split_lines output_text))))
    as [[fs ->] | (-> & l & Hl & Ho)]; [left; by eexists|].
  right. split; [done|]. exists l. split; [|done].
  eapply elem_of_sublist; [exact Hl | apply sublist_drop].
Qed.

Lemma parse_pdb_output_ends output_text :
  parse_pdb_output output_text <> OutOfFuel.
Proof.
  by destruct (parse_pdb_output_cases output_text) as [[r ->] | [-> _]].
Qed.

(** *** No frame at all *)




End ParserFacts.

(** ** The session *)

Module SessionFacts.
Import Notions PyStrFacts Parser Json Session ParserFacts Fixtures.

Section WithEval.
Variable eval_other : text -> M eval_result.

Lemma bind_ok {A B} (m : M A) (k : A -> M B) s a s' :
  m s = (Ok a, s') -> bind m k s = k a s'.
Proof. intros H. unfold bind. by rewrite H. Qed.


(** *** The pending-exception check *)

(** On a process that still counts as running but has closed its output,
    every command reads the empty text. *)
Lemma command_closed_stream cmd s p :
  process s = Some p -> returncode p = None -> stdout p = [] ->
  command cmd s
  = (Ok ([], [], []),
     set_process (Some (mkPopen (stdin p ++ [cmd ++ [newline]]) [] None)) s).
Proof.
  intros Hp Hr Ho.
  unfold command, bind, ensure_process_is_running, stdin_write,
    _read_user_and_pdb_output, _read_up_to, bind, ret.
  do 3 (rewrite ?Hp, ?Hr, ?Ho;
        cbn [process set_process stdout stdin returncode read_loop]).
  reflexivity.
Qed.

Lemma capture_loop_S fuel idx calls outs :
  capture_loop eval_other (S fuel) idx calls outs
  = (initial_frames <- pdb_where ;;
     match scan_current initial_frames 0 idx with
     | None => raise UnboundLocalError
     | Some i =>
         let initial_frames := take (i + 1) initial_frames in
         stepped <- pdb_step ;;
         raised <- is_exception_raised ;;
         if raised : bool then
           exception_info <- _capture_exception_info ;;
           ret (join [newline] (outs ++ [stepped.1]), stepped.2,
                calls ++ [ExceptionInfo exception_info.1 exception_info.2])
         else
           let program_output_list := outs ++ [stepped.1] in
           new_frames <- pdb_where ;;
           if (length initial_frames <? length new_frames)%nat then
             match last new_frames with
             | None => raise IndexError
             | Some callee =>
                 let function_name := function callee in
                 vars <- get_local_vars eval_other 4 64 ;;
                 params <- lift (params_of vars) ;;
                 is_in_generator <- _is_in_generator_function ;;
                 if is_in_generator : bool then
                   pdb_up ;;;
                   nexted <- pdb_next ;;
                   ret (join [newline] (program_output_list ++ [nexted.1]),
                        nexted.2, calls)
                 else
                   returned <- pdb_return ;;
                   capture_loop eval_other fuel (Some i)
                     (calls ++ [Call function_name params returned.2])
                     (program_output_list ++ [returned.1.1])
             end
           else
             ret (join [newline] program_output_list, stepped.2, calls)
     end).
Proof. reflexivity. Qed.

End WithEval.

End SessionFacts.
(** ** The scenario of the specification: stepping over a call *)

Module ScenarioFacts.
Import Notions Parser Json Session Fixtures.

(** C2, as the code has it.  Stepping over line 5, [y = helper(10)],
    records exactly one call, whose function is the debugger's label
    [helper()] (the name with its parentheses), whose parameters map [a]
    to [10] and whose return value is [20]; the session was paused on
    line 5 before and is paused on line 6 afterwards. *)
Theorem step_over_captures_helper_call
        (eval_other : text -> M eval_result) (fuel : nat) :
  (cf_line_number <$> outcome_value (get_current_frame eval_other paused_on_line_5).1)
  = Some 5 /\
  let r := step_over eval_other (S (S fuel)) paused_on_line_5 in
  r.1 = Ok tt /\
  exists entry,
    execution_history r.2 = [entry] /\
    captured_calls <$> delta entry
    = Some [Call (str "helper()") [(JStr (str "a"), JStr (str "10"))]
                 (str "20")] /\
    cf_line_number (current_frame entry) = 6.
Proof.
  split; [by vm_compute|].
  vm_compute. split; [reflexivity|]. eexists. split; [reflexivity|].
  split; reflexivity.
Qed.

(** C2 as stated fails in one field: the function recorded for the call
    is the label the debugger prints, [helper()], not the bare name
    [helper]. *)
Lemma helper_call_label_has_parentheses :
  let r := step_over no_eval 2 paused_on_line_5 in
  (fun e => captured_calls <$> delta e) <$> execution_history r.2
  = [Some [Call (str "helper()") [(JStr (str "a"), JStr (str "10"))]
                (str "20")]] /\
  str "helper()" <> str "helper".
Proof. split; [by vm_compute | discriminate]. Qed.

End ScenarioFacts.

(** ** The variable inspector *)

Module VarTreeFacts.
Import Notions PyStrFacts VarTree Heaps.

(** *** The keys of an instance *)

Lemma str_keys_None attrs :
  str_keys attrs = None -> exists e, key_error attrs = Some e.
Proof.
  induction attrs as [|[[k|e] v] attrs IH]; simpl; [done| |by eauto].
  destruct (str_keys attrs); [done|]. intros _. by apply IH.
Qed.

Lemma key_error_None attrs :
  key_error attrs = None -> exists named, str_keys attrs = Some named.
Proof.
  induction attrs as [|[[k|e] v] attrs IH]; simpl; [by eauto| |done].
  intros H. destruct (IH H) as [named ->]. by eauto.
Qed.

Lemma str_keys_Some attrs named :
  str_keys attrs = Some named -> key_error attrs = None.
Proof.
  revert named. induction attrs as [|[[k|e] v] attrs IH]; intros named; simpl;
    [done| |done].
  destruct (str_keys attrs); [|done]. intros _. by eapply IH.
Qed.

Lemma str_keys_length attrs named :
  str_keys attrs = Some named ->
  (length (List.filter (fun kv => negb (is_dunder kv.1)) named)
   + length (List.filter (fun kv => if kv.1 is inl k then is_dunder k
                                    else false) attrs))%nat
  = length attrs.
Proof.
  revert named. induction attrs as [|[[k|e] v] attrs IH]; intros named; simpl;
    [by intros [= <-]| |done].
  destruct (str_keys attrs) as [named'|]; [|done]. intros [= <-].
  specialize (IH _ eq_refl). simpl. destruct (is_dunder k); simpl; lia.
Qed.

Section WithHeap.
Variable heap : objid -> pyobj.
Variable py_repr : objid -> text + text.
Variables max_depth max_children : Z.

Abbreviation make fuel name val depth seen :=
  (_make_node heap py_repr fuel name val depth max_depth max_children seen).

(** *** The loops over the children *)

Lemma build_children_total mk items :
  (forall k v sn, exists n sn', mk k v sn = Some (n, sn')) ->
  forall seen,
  exists ns seen', build_children mk items seen = Some (ns, seen').
Proof.
  intros Hmk. induction items as [|[k [v|r]] items IH]; intros seen; simpl.
  - by eexists _, _.
  - destruct (Hmk k v seen) as (n & s1 & ->).
    destruct (IH s1) as (ns & s2 & ->). by eexists _, _.
  - destruct (IH seen) as (ns & s2 & ->). by eexists _, _.
Qed.

Lemma build_children_restores mk items seen ns seen' :
  (forall k v sn n sn', mk k v sn = Some (n, sn') -> sn' = sn) ->
  build_children mk items seen = Some (ns, seen') ->
  seen' = seen /\ Forall2 (child_of mk seen) items ns.
Proof.
  intros Hmk. revert ns.
  induction items as [|[k [v|r]] items IH]; intros ns; simpl.
  - intros [= <- <-]. by split.
  - destruct (mk k v seen) as [[n seen1]|] eqn:E; [|done].
    pose proof (Hmk _ _ _ _ _ E) as ->.
    destruct (build_children mk items seen) as [[ns' seen2]|] eqn:E2;
      [|done].
    intros [= <- <-]. destruct (IH _ eq_refl) as [-> HF].
    split; [done|]. by constructor.
  - destruct (build_children mk items seen) as [[ns' seen2]|] eqn:E2;
      [|done].
    intros [= <- <-]. destruct (IH _ eq_refl) as [-> HF].
    split; [done|]. by constructor.
Qed.

Lemma build_children_grows mk items :
  (forall k v sn n sn', mk k v sn = Some (n, sn') -> sn ⊆ sn') ->
  forall seen ns seen',
    build_children mk items seen = Some (ns, seen') -> seen ⊆ seen'.
Proof.
  intros Hmk. induction items as [|[k [v|r]] items IH]; intros seen ns seen';
    simpl.
  - by intros [= _ <-].
  - destruct (mk k v seen) as [[n seen1]|] eqn:E; [|done].
    destruct (build_children mk items seen1) as [[ns' seen2]|] eqn:E2;
      [|done].
    intros [= _ <-]. etrans; [by eapply Hmk | by eapply IH].
  - destruct (build_children mk items seen) as [[ns' seen2]|] eqn:E2;
      [|done].
    intros [= _ <-]. by eapply IH.
Qed.

Lemma build_attrs_total mk attrs :
  (forall k v sn, exists n sn', mk k v sn = Some (n, sn')) ->
  forall seen, exists r seen', build_attrs mk attrs seen = Some (r, seen').
Proof.
  intros Hmk. induction attrs as [|[[k|e] v] attrs IH]; intros seen; simpl;
    [by eexists _, _| |by eexists _, _].
  destruct (is_dunder k); [apply IH|].
  destruct (Hmk k v seen) as (n & s1 & ->).
  destruct (IH s1) as ([ns|e] & s2 & ->); by eexists _, _.
Qed.

Lemma build_attrs_grows mk attrs :
  (forall k v sn n sn', mk k v sn = Some (n, sn') -> sn ⊆ sn') ->
  forall seen r seen',
    build_attrs mk attrs seen = Some (r, seen') -> seen ⊆ seen'.
Proof.
  intros Hmk. induction attrs as [|[[k|e] v] attrs IH]; intros seen r seen';
    simpl; [by intros [= _ <-]| |by intros [= _ <-]].
  destruct (is_dunder k); [apply IH|].
  destruct (mk k v seen) as [[n seen1]|] eqn:E; [|done].
  destruct (build_attrs mk attrs seen1) as [[[ns|e] seen2]|] eqn:E2;
    [| |done]; intros [= _ <-]; (etrans; [by eapply Hmk | by eapply IH]).
Qed.

(** While every key is a [str], the loop over the attributes is the loop
    over those that are not dunder-named. *)
Lemma build_attrs_str mk attrs :
  forall named seen,
    str_keys attrs = Some named ->
    build_attrs mk attrs seen
    = (fun r => (inl r.1, r.2))
        <$> build_children
              mk (values (List.filter (fun kv => negb (is_dunder kv.1)) named))
              seen.
Proof.
  induction attrs as [|[[k|e] v] attrs IH]; intros named seen; simpl;
    [by intros [= <-]| |done].
  destruct (str_keys attrs) as [named'|] eqn:E; [|done]. intros [= <-].
  cbn [List.filter fst]. destruct (is_dunder k); cbn [negb]; [by apply IH|].
  cbn [values map build_children fst snd].
  destruct (mk k v seen) as [[n seen1]|]; [|done].
  change (map _ ?l) with (values l). rewrite (IH _ seen1 eq_refl).
  by destruct (build_children _ _ _) as [[ns seen2]|].
Qed.

(** A key that is not a [str] ends the loop with its exception. *)
Lemma build_attrs_error mk attrs e :
  key_error attrs = Some e ->
  forall seen r seen', build_attrs mk attrs seen = Some (r, seen') -> r = inr e.
Proof.
  induction attrs as [|[[k|e'] v] attrs IH]; simpl; [done| |].
  - intros He seen r seen'. destruct (is_dunder k); [by apply IH|].
    destruct (mk k v seen) as [[n seen1]|]; [|done].
    destruct (build_attrs mk attrs seen1) as [[[ns|e2] seen2]|] eqn:E2;
      [| |done]; intros [= <- _]; by pose proof (IH He _ _ _ E2).
  - by intros [= ->] seen r seen' [= <- _].
Qed.

Lemma discard_added (seen : gset objid) (val : objid) :
  val ∉ seen -> (seen ∪ {[val]}) ∖ {[val]} = seen.
Proof.
  intros Hnot. apply set_eq. intros x.
  rewrite elem_of_difference, elem_of_union, elem_of_singleton.
  split; [by intros [[H|H] Hx] | intros H; split; [by left | by intros ->]].
Qed.

(** *** One call *)

Lemma make_S fuel name val depth seen :
  make (S fuel) name val depth seen
  = let mk k v sn := make fuel k v (depth + 1) sn in
    if bool_decide (val ∈ seen) then
      Some (primitive name (str "<cycle>"), seen)
    else if max_depth <? depth then
      Some (primitive name (_safe_repr py_repr val 256), seen)
    else
      match container_view (heap val) max_children with
      | Some (kind, items, size) =>
          expand py_repr mk name val kind items size max_children seen
      | None =>
          match heap val with
          | PyOther =>
              Some (mkNode name (_safe_repr py_repr val 256) (str "other")
                           None, seen)
          | PyInstance attrs =>
              match build_attrs mk (slice_to attrs max_children)
                                (seen ∪ {[val]}) with
              | Some (_, seen') =>
                  Some (error_leaf
                          name
                          (default [] (key_error (slice_to attrs max_children))),
                        seen')
              | None => None
              end
          | PyBroken added e =>
              Some (error_leaf name e, if added then seen ∪ {[val]} else seen)
          | _ => Some (primitive name (_safe_repr py_repr val 256), seen)
          end
      end.
Proof.
  cbn [_make_node]. cbv zeta.
  destruct (bool_decide (val ∈ seen)); [done|].
  destruct (max_depth <? depth); [done|].
  destruct (heap val) as [| | | | |attrs| | |]; try done.
  cbn [container_view].
  destruct (str_keys (slice_to attrs max_children)) as [named|] eqn:Ek.
  - rewrite (build_attrs_str _ _ _ _ Ek). unfold expand.
    by destruct (build_children _ _ _) as [[cs seen1]|].
  - destruct (str_keys_None _ Ek) as [e He]. rewrite He. simpl.
    destruct (build_attrs _ _ _) as [[r seen1]|] eqn:Eb; [|done].
    by rewrite (build_attrs_error _ _ _ He _ _ _ Eb).
Qed.

(** With enough fuel every call returns. *)
Lemma make_total fuel :
  forall name val depth seen,
    enough max_depth fuel depth ->
    exists n seen', make fuel name val depth seen = Some (n, seen').
Proof.
  unfold enough.
  induction fuel as [|fuel IH]; intros name val depth seen Hf; [lia|].
  rewrite make_S. cbv zeta. case_bool_decide as Hin; [by eauto|].
  destruct (max_depth <? depth) eqn:Hd; [by eauto|].
  apply Z.ltb_ge in Hd.
  assert (forall k v sn,
             exists n sn', make fuel k v (depth + 1) sn = Some (n, sn'))
    as Hmk by (intros k v sn; apply IH; lia).
  destruct (container_view (heap val) max_children)
    as [[[kind items] size]|].
  - unfold expand.
    destruct (build_children_total _ items Hmk (seen ∪ {[val]}))
      as (ns & seen1 & ->). by eauto.
  - destruct (heap val) as [| | | | |attrs| | |]; try by eauto.
    destruct (build_attrs_total _ (slice_to attrs max_children) Hmk
                                (seen ∪ {[val]})) as (r & seen1 & ->).
    by eauto.
Qed.

(** No call takes an identity out of the set it was given. *)
Lemma make_grows fuel :
  forall name val depth seen n seen',
    make fuel name val depth seen = Some (n, seen') -> seen ⊆ seen'.
Proof.
  induction fuel as [|fuel IH]; intros name val depth seen n seen';
    [done|].
  rewrite make_S. cbv zeta. case_bool_decide as Hin; [by intros [= _ <-]|].
  destruct (max_depth <? depth); [by intros [= _ <-]|].
  assert (forall k v sn m sn',
             make fuel k v (depth + 1) sn = Some (m, sn') -> sn ⊆ sn')
    as Hmk by (intros k v sn m sn'; apply IH).
  destruct (container_view (heap val) max_children)
    as [[[kind items] size]|].
  - unfold expand.
    destruct (build_children _ items _) as [[cs seen1]|] eqn:E; [|done].
    intros [= _ <-]. apply (build_children_grows _ _ Hmk) in E. set_solver.
  - destruct (heap val) as [| | | | |attrs| |added e|];
      try by intros [= _ <-].
    + destruct (build_attrs _ _ _) as [[r seen1]|] eqn:E; [|done].
      intros [= _ <-]. apply (build_attrs_grows _ _ Hmk) in E. set_solver.
    + intros [= _ <-]. destruct added; set_solver.
Qed.

(** Where no listing of attributes raises, every call hands back the set
    it was given. *)
Lemma make_restores fuel :
  (forall o, restores (heap o) max_children) ->
  forall name val depth seen n seen',
    make fuel name val depth seen = Some (n, seen') -> seen' = seen.
Proof.
  intros Hr.
  induction fuel as [|fuel IH]; intros name val depth seen n seen';
    [done|].
  rewrite make_S. cbv zeta. case_bool_decide as Hin; [by intros [= _ <-]|].
  destruct (max_depth <? depth); [by intros [= _ <-]|].
  destruct (container_view (heap val) max_children)
    as [[[kind items] size]|] eqn:Hv.
  - unfold expand.
    destruct (build_children _ items _) as [[cs seen1]|] eqn:E; [|done].
    intros [= _ <-].
    apply build_children_restores in E as [-> _].
    + by apply discard_added.
    + intros k v sn m sn'. apply IH.
  - specialize (Hr val).
    destruct (heap val) as [| | | | |attrs| |added e|];
      try by intros [= _ <-].
    + simpl in Hr, Hv. destruct (key_error_None _ Hr) as [named Hn].
      by rewrite Hn in Hv.
    + simpl in Hr. subst added. by intros [= _ <-].
Qed.

(** An exception raised while the attributes of [val] are listed leaves
    the identity of [val] in the set. *)
Lemma make_leaks fuel name val depth seen n seen' :
  (val ∉ seen) -> depth <= max_depth ->
  ~ restores (heap val) max_children ->
  make (S fuel) name val depth seen = Some (n, seen') ->
  (val ∈ seen') /\
  exists e, listing_error (heap val) max_children = Some e /\
            n = error_leaf name e.
Proof.
  intros Hin Hd Hr. rewrite make_S. cbv zeta.
  rewrite bool_decide_eq_false_2 by done.
  assert ((max_depth <? depth) = false) as -> by (apply Z.ltb_ge; lia).
  destruct (heap val) as [| | | | |attrs| |added e|] eqn:Eh;
    try (by destruct Hr).
  - cbn [container_view restores listing_error] in *.
    destruct (key_error (slice_to attrs max_children)) as [e|] eqn:Ek;
      [|done].
    destruct (str_keys (slice_to attrs max_children)) as [named|] eqn:Es.
    { apply str_keys_Some in Es. congruence. }
    destruct (build_attrs _ _ _) as [[r seen1]|] eqn:E; [|done].
    intros [= <- <-]. split; [|by exists e].
    eapply (build_attrs_grows _ _ (fun k v sn => make_grows fuel k v _ sn))
      in E.
    set_solver.
  - cbn [container_view restores listing_error] in *.
    destruct added; [|done]. intros [= <- <-].
    split; [set_solver | by exists e].
Qed.

Lemma length_values {K} (items : list (K * objid)) :
  length (values items) = length items.
Proof. unfold values. by rewrite length_map. Qed.

Lemma length_enumerate {A} (items : list A) :
  length (enumerate items) = length items.
Proof. unfold enumerate. by rewrite length_imap. Qed.

Lemma length_slice_to {A} (items : list A) (n : Z) :
  0 <= n -> n < len items -> length (slice_to items n) = Z.to_nat n.
Proof.
  unfold slice_to, len. intros H0 Hn.
  destruct (n <? 0) eqn:E; [apply Z.ltb_lt in E; lia|].
  rewrite length_take. lia.
Qed.

(** The number of items a truncated container hands to the loop. *)
Lemma truncated_view_length o kind items size :
  0 <= max_children ->
  container_view o max_children = Some (kind, items, size) ->
  max_children < size ->
  container_size o = Some size /\
  (length items + hidden_dunders o max_children)%nat
  = Z.to_nat max_children.
Proof.
  intros H0 Hv Hlt. destruct o as [| | | | |attrs| | |]; simpl in Hv;
    try done.
  5: { destruct (str_keys (slice_to attrs max_children)) as [named|] eqn:Es;
         [|done].
       injection Hv as <- <- <-. split; [done|]. simpl.
       rewrite length_values, (str_keys_length _ _ Es).
       by apply length_slice_to. }
  all: injection Hv as <- <- <-; (split; [done|]); simpl;
    rewrite ?length_values, ?length_enumerate, ?length_map;
    rewrite length_slice_to by done; lia.
Qed.

Lemma container_view_size o k :
  container_size o = Some k -> listing_error o max_children = None ->
  exists kind items, container_view o max_children = Some (kind, items, k).
Proof.
  destruct o as [| | | | |attrs| | |]; simpl; intros [= <-] He; eauto.
  destruct (key_error_None _ He) as [named ->]. eauto.
Qed.

(** C5, as the code has it.  A container that is expanded (it is not
    being revisited and lies within [max_depth]) and has [k] elements,
    [k] greater than a non-negative [max_children], gets as children
    one node for each of its first [max_children] elements, except the
    dunder-named attributes of an instance, and then one last leaf
    named [...] whose value is [k - max_children] followed by
    [ more].  So a list, tuple, dict or set has exactly
    [max_children + 1] children, and an instance has as many less as
    its first [max_children] attributes have dunder names.  This holds
    unless the container is an instance with a key that is not a [str]
    among its first [max_children] attributes: then the test of that key
    raises, and the node is a leaf without children whose value is the
    message of the exception. *)
Theorem truncated_container_children fuel name val depth seen k :
  0 <= max_children -> depth <= max_depth -> (val ∉ seen) ->
  enough max_depth fuel depth ->
  container_size (heap val) = Some k -> max_children < k ->
  (listing_error (heap val) max_children = None ->
   exists n cs seen',
     make fuel name val depth seen = Some (n, seen') /\
     node_children n = Some (cs ++ [more_leaf (k - max_children)]) /\
     (length cs + hidden_dunders (heap val) max_children)%nat
     = Z.to_nat max_children /\
     node_value (more_leaf (k - max_children))
     = fmt_d (k - max_children) ++ str " more") /\
  (forall e,
      listing_error (heap val) max_children = Some e ->
      exists seen',
        make fuel name val depth seen
        = Some (mkNode name (str "<error: " ++ e ++ str ">")
                       (str "primitive") None,
                seen')).
Proof.
  intros H0 Hd Hseen Hf Hk Hlt.
  destruct fuel as [|fuel]; [unfold enough in Hf; lia|].
  assert (forall k v sn,
             exists n sn', make fuel k v (depth + 1) sn = Some (n, sn'))
    as Hmk by (intros k' v sn; apply make_total; unfold enough in *; lia).
  rewrite make_S. cbv zeta. rewrite bool_decide_eq_false_2 by done.
  assert ((max_depth <? depth) = false) as -> by (apply Z.ltb_ge; lia).
  split.
  - intros He.
    destruct (container_view_size _ _ Hk He) as (kind & items & Hv).
    rewrite Hv. unfold expand.
    destruct (build_children_total _ items Hmk (seen ∪ {[val]}))
      as (ns & seen1 & E). rewrite E.
    assert ((max_children <? k) = true) as -> by (apply Z.ltb_lt; lia).
    eexists _, ns, _. split; [done|]. split; [done|]. split; [|done].
    destruct (truncated_view_length _ _ _ _ H0 Hv Hlt) as [_ <-].
    f_equal. clear -E. revert ns seen1 E. generalize (seen ∪ {[val]}).
    induction items as [|[k' [v|r]] items IH]; intros sn ns seen1; simpl.
    + by intros [= <- _].
    + destruct (make _ _ _ _ _) as [[n s1]|]; [|done].
      destruct (build_children _ items s1) as [[ns' s2]|] eqn:E2; [|done].
      intros [= <- _]. simpl. f_equal. by eapply IH.
    + destruct (build_children _ items sn) as [[ns' s2]|] eqn:E2; [|done].
      intros [= <- _]. simpl. f_equal. by eapply IH.
  - intros e He.
    destruct (heap val) as [| | | | |attrs| | |]; try done.
    cbn [listing_error container_view] in *.
    destruct (str_keys (slice_to attrs max_children)) as [named|] eqn:Es.
    { apply str_keys_Some in Es. congruence. }
    rewrite He.
    destruct (build_attrs_total _ (slice_to attrs max_children) Hmk
                                (seen ∪ {[val]})) as (r & seen1 & ->).
    by eexists.
Qed.

End WithHeap.

Lemma build_entries_total heap py_repr max_depth max_children fuel items :
  enough max_depth fuel 0 ->
  forall seen,
  exists out,
    build_entries heap py_repr fuel items max_depth max_children seen
    = Some out.
Proof.
  intros Hf. induction items as [|[k v] items IH]; intros seen;
    cbn [build_entries]; [eauto|].
  destruct (startswith k (str "__")); [apply IH|].
  destruct (make_total heap py_repr max_depth max_children fuel k v 0 seen Hf)
    as (n & seen1 & ->).
  destruct (IH seen1) as [out ->]. eauto.
Qed.

(** C7, where no exception interferes.  On a heap none of whose objects
    raises while its attributes are listed, every call of [_make_node]
    hands back the set of identities it was given, and each child of an
    expanded object [val] is what [_make_node] yields for that child alone
    with the set [seen ∪ {val}], whatever its siblings are: the set holds
    exactly the objects whose children are being built, and an object
    reached twice along paths that do not pass through itself is expanded
    both times, as the list reached twice in [[inner, inner]] is.  On
    every heap an object whose identity is in the set is rendered as the
    cycle leaf and no call takes an identity out of the set it was given;
    but an object whose attribute listing raises after [seen.add] is
    rendered as an error leaf and its identity stays in the set. *)
Theorem seen_holds_exactly_the_ancestors :
  (forall heap py_repr max_depth max_children,
      let make fuel name val depth seen :=
        _make_node heap py_repr fuel name val depth max_depth max_children
                   seen in
      ((forall o, restores (heap o) max_children) ->
       (forall fuel name val depth seen n seen',
           make fuel name val depth seen = Some (n, seen') -> seen' = seen) /\
       (forall fuel name val depth seen kind items size n seen',
           (val ∉ seen) -> depth <= max_depth ->
           container_view (heap val) max_children
           = Some (kind, items, size) ->
           make (S fuel) name val depth seen = Some (n, seen') ->
           exists cs,
             node_children n
             = Some (cs ++ (if max_children <? size
                            then [more_leaf (size - max_children)]
                            else [])) /\
             Forall2 (child_of (fun k v sn => make fuel k v (depth + 1) sn)
                               (seen ∪ {[val]}))
                     items cs)) /\
      (forall fuel name val depth seen,
          (val ∈ seen) ->
          make (S fuel) name val depth seen
          = Some (primitive name (str "<cycle>"), seen)) /\
      (forall fuel name val depth seen n seen',
          make fuel name val depth seen = Some (n, seen') -> seen ⊆ seen') /\
      (forall fuel name val depth seen n seen',
          (val ∉ seen) -> depth <= max_depth ->
          ~ restores (heap val) max_children ->
          make (S fuel) name val depth seen = Some (n, seen') ->
          (val ∈ seen') /\
          exists e, listing_error (heap val) max_children = Some e /\
                    n = error_leaf name e)) /\
  (forall fuel,
      let inner name :=
        mkNode (str name) (str "[7]") (str "list")
               (Some [primitive (str "0") (str "7")]) in
      build_var_tree diamond_heap diamond_repr (S (S (S fuel)))
                     [(str "top", 0%nat)] 4 64
      = Some [(str "top",
               (0%nat,
                mkNode (str "top") (str "[[7], [7]]") (str "list")
                       (Some [inner "0"%string; inner "1"%string])))]).
Proof.
  split.
  - intros heap py_repr max_depth max_children make.
    split; [|split; [|split]].
    + intros Hr. split; [intros fuel; by apply make_restores|].
      intros fuel name val depth seen kind items size n seen' Hseen Hd Hv.
      subst make. cbv beta. rewrite make_S. cbv zeta.
      rewrite bool_decide_eq_false_2 by done.
      assert ((max_depth <? depth) = false) as -> by (apply Z.ltb_ge; lia).
      rewrite Hv. unfold expand.
      destruct (build_children _ items _) as [[cs seen1]|] eqn:E; [|done].
      intros [= <- <-].
      apply build_children_restores in E as [-> HF].
      * exists cs. split; [|done]. simpl.
        destruct (max_children <? size); [done | by rewrite app_nil_r].
      * intros k v sn m sn'. by apply make_restores.
    + intros fuel name val depth seen Hin. subst make. cbv beta.
      rewrite make_S. cbv zeta. by rewrite bool_decide_eq_true_2.
    + intros fuel. apply make_grows.
    + intros fuel name val depth seen n seen'. apply make_leaks.
  - intros fuel. by vm_compute.
Qed.

(** C7 fails of the code.  For [a] with [a.__dict__[1] = 0], the first [a]
    of the list [[a, a]] is rendered as an error leaf, and since the
    identity of [a] was not discarded, the second [a], which is no
    ancestor of itself, is rendered as the cycle leaf. *)
Lemma sibling_rendered_as_cycle :
  (forall o, o ∉ [0%nat; 1%nat] -> int_key_heap o = PyPrimitive) /\
  int_key_heap 0%nat = PyList [1%nat; 1%nat] /\
  build_var_tree int_key_heap int_key_repr 6 [(str "top", 0%nat)] 4 64
  = Some [(str "top",
           (0%nat,
            mkNode (str "top") (str "[<A object>, <A object>]") (str "list")
                   (Some [primitive
                            (str "0")
                            (str "<error: 'int' object has no attribute 'startswith'>");
                          primitive (str "1") (str "<cycle>")])))].
Proof.
  split; [|split; by vm_compute].
  intros [|[|o]] Ho; [by destruct Ho; left|by destruct Ho; right; left|done].
Qed.

(** C6.  [build_var_tree] returns for every heap, cyclic or not: a number
    of nested calls that exceeds [max_depth + 1] is always enough.  For
    the list that contains itself as its third element, the third child
    is the cycle leaf. *)
Theorem build_var_tree_terminates :
  (forall heap py_repr max_depth max_children fuel locals_dict,
      enough max_depth fuel 0 ->
      exists out,
        build_var_tree heap py_repr fuel locals_dict max_depth max_children
        = Some out) /\
  (forall fuel,
      build_var_tree cyclic_heap cyclic_repr (S (S fuel))
                     [(str "lst", 0%nat)] 4 64
      = Some [(str "lst",
               (0%nat,
                mkNode (str "lst") (str "[1, 2, [...]]") (str "list")
                       (Some [primitive (str "0") (str "1");
                              primitive (str "1") (str "2");
                              primitive (str "2") (str "<cycle>")])))]).
Proof.
  split.
  - intros. by apply build_entries_total.
  - intros fuel. by vm_compute.
Qed.

Lemma truncated_container_children_witness :
  0 <= 2 /\ 0 <= 4 /\ (0%nat ∉ (∅ : gset objid)) /\ enough 4 6 0 /\
  container_size (cyclic_heap 0%nat) = Some 3 /\ 2 < 3 /\
  listing_error (cyclic_heap 0%nat) 2 = None /\
  exists n cs seen',
    _make_node cyclic_heap cyclic_repr 6 (str "lst") 0%nat 0 4 2 ∅
    = Some (n, seen') /\
    node_children n = Some (cs ++ [more_leaf (3 - 2)]) /\
    (length cs + hidden_dunders (cyclic_heap 0%nat) 2)%nat = Z.to_nat 2 /\
    node_value (more_leaf (3 - 2)) = fmt_d (3 - 2) ++ str " more".
Proof.
  assert (0 <= 2) as H0 by lia. assert (0 <= 4) as Hd by lia.
  assert (0%nat ∉ (∅ : gset objid)) as Hs by apply not_elem_of_empty.
  assert (enough 4 6 0) as Hf by (vm_compute; lia).
  assert (2 < 3) as Hk by lia.
  repeat (split; [assumption || reflexivity|]).
  exact (proj1 (truncated_container_children
                  cyclic_heap cyclic_repr 4 2 6%nat (str "lst") 0%nat 0 ∅ 3
                  H0 Hd Hs Hf eq_refl Hk) eq_refl).
Defined.

(** C5 as stated fails for an instance: of three attributes, the first
    dunder-named, with [max_children = 2], the node has two children (one
    attribute and the leaf), not [max_children + 1]. *)
Lemma dunder_attributes_leave_fewer_children :
  container_size (wrapper_heap 0%nat) = Some 3 /\
  (node_children ∘ fst)
    <$> _make_node wrapper_heap wrapper_repr 6 (str "w") 0%nat 0 4 2 ∅
  = Some (Some [primitive (str "a") (str "1"); more_leaf 1]).
Proof. split; by vm_compute. Qed.

Lemma seen_holds_exactly_the_ancestors_witness :
  let make fuel name val depth seen :=
    _make_node diamond_heap diamond_repr fuel name val depth 4 64 seen in
  let top :=
    mkNode (str "top") (str "[[7], [7]]") (str "list")
           (Some [mkNode (str "0") (str "[7]") (str "list")
                         (Some [primitive (str "0") (str "7")]);
                  mkNode (str "1") (str "[7]") (str "list")
                         (Some [primitive (str "0") (str "7")])]) in
  (forall o, restores (diamond_heap o) 64) /\
  (0%nat ∉ (∅ : gset objid)) /\ 0 <= 4 /\
  container_view (diamond_heap 0%nat) 64
  = Some (str "list", [(str "0", inl 1%nat); (str "1", inl 1%nat)], 2) /\
  make 3%nat (str "top") 0%nat 0 ∅ = Some (top, ∅) /\
  exists cs,
    node_children top
    = Some (cs ++ (if 64 <? 2 then [more_leaf (2 - 64)] else [])) /\
    Forall2 (child_of (fun k v sn => make 2%nat k v (0 + 1) sn)
                      (∅ ∪ {[0%nat]}))
            [(str "0", inl 1%nat); (str "1", inl 1%nat)] cs.
Proof.
  intros make top.
  assert (forall o, restores (diamond_heap o) 64) as Hr
      by (by intros [|[|o]]).
  assert (0%nat ∉ (∅ : gset objid)) as Hs by apply not_elem_of_empty.
  assert (0 <= 4) as Hd by lia.
  assert (container_view (diamond_heap 0%nat) 64
          = Some (str "list", [(str "0", inl 1%nat); (str "1", inl 1%nat)], 2))
    as Hv by (vm_compute; reflexivity).
  assert (make 3%nat (str "top") 0%nat 0 ∅ = Some (top, ∅)) as Hm
      by (vm_compute; reflexivity).
  split; [exact Hr|]. split; [exact Hs|]. split; [exact Hd|].
  split; [exact Hv|]. split; [exact Hm|].
  exact (proj2 (proj1 (proj1 seen_holds_exactly_the_ancestors
                             diamond_heap diamond_repr 4 64) Hr)
               2%nat (str "top") 0%nat 0 ∅ _ _ _ _ _ Hs Hd Hv Hm).
Defined.

Lemma build_var_tree_terminates_witness :
  enough 4 6 0 /\
  exists out,
    build_var_tree cyclic_heap cyclic_repr 6 [(str "lst", 0%nat)] 4 64
    = Some out.
Proof.
  assert (enough 4 6 0) as Hf by (vm_compute; lia).
  split; [exact Hf|].
  exact (proj1 build_var_tree_terminates cyclic_heap cyclic_repr 4 64 6%nat
               [(str "lst", 0%nat)] Hf).
Defined.

End VarTreeFacts.

(** ** The gateway *)

Module GatewayFacts.
Import Notions PyStrFacts Parser Json Session Gateway Fixtures.

(** Evaluates the comparisons of two literal kinds. *)
Ltac decide_kinds :=
  repeat match goal with
         | |- context [text_eqb (str ?a) (str ?b)] =>
             let v := eval vm_compute in (text_eqb (str a) (str b)) in
             change (text_eqb (str a) (str b)) with v
         end;
  cbv iota.

Section Loop.
Variable eval_other : text -> M eval_result.
Variable llm_explain : option text -> Delta -> outcome text.
Variable b64_source : text.
Variable code_file : text -> option text.
Variable get_function_calls : text -> gmap Z (list text).
Variable create_debug_process : text -> outcome Popen.
Variable uuid4 : nat -> text.
Variable builtin_message : exn -> text.
Variable fuel : nat.

Abbreviation handle :=
  (handle_message eval_other llm_explain b64_source code_file
                  get_function_calls create_debug_process uuid4
                  builtin_message fuel).

(** C4, as the code has it.  With a session, a message of an unknown
    kind is answered by an [error] message.  With a finished session, a
    step or explain request is answered by an [error] message and the
    session is left as it was.  Without a session, a message that is
    neither [start_session] nor [restart] raises [RuntimeError]: the
    loop ends and nothing is sent. *)
Theorem gateway_error_responses :
  (forall kind project_id session sent,
      is_one_of known_kinds kind = false ->
      handle (mkMessage (Some kind) project_id) (Some session) sent
      = Continue (Some session)
                 (sent ++ [RError (str "invalid message type")])) /\
  (forall kind project_id session sent,
      is_one_of step_kinds kind = true ->
      is_finished session = true ->
      handle (mkMessage (Some kind) project_id) (Some session) sent
      = Continue (Some session)
                 (sent ++ [RError (str "session already finished")])) /\
  (forall kind project_id sent,
      is_one_of [str "start_session"; str "restart"] kind = false ->
      handle (mkMessage (Some kind) project_id) None sent
      = Stop (Crashed (RuntimeError (str "No active debug session")))
             None sent) /\
  (forall message, response_type (RError message) = str "error").
Proof.
  unfold handle_message, is_one_of, known_kinds, step_kinds, is_type.
  cbn [existsb app msg_type]. split; [|split; [|split]].
  - intros kind pid s sent H.
    repeat (apply orb_false_iff in H as [-> H]). done.
  - intros kind pid s sent H Hfin.
    unfold _handle_simple_command, handle_explain_step. rewrite Hfin.
    rewrite !orb_true_iff, !text_eqb_spec in H.
    destruct H as [-> | [-> | [-> | [-> | H]]]];
      [by decide_kinds .. | discriminate].
  - intros kind pid sent H.
    repeat (apply orb_false_iff in H as [-> H]). done.
  - done.
Qed.

End Loop.

Lemma gateway_error_responses_witness :
  (is_one_of known_kinds (str "pause") = false /\
   handle_here (mkMessage (Some (str "pause")) None)
               (Some paused_on_line_5) []
   = Continue (Some paused_on_line_5)
              ([] ++ [RError (str "invalid message type")])) /\
  (is_one_of step_kinds (str "step_over") = true /\
   is_finished finished_session = true /\
   handle_here (mkMessage (Some (str "step_over")) None)
               (Some finished_session) []
   = Continue (Some finished_session)
              ([] ++ [RError (str "session already finished")])) /\
  (is_one_of [str "start_session"; str "restart"] (str "explain_step")
   = false /\
   handle_here (mkMessage (Some (str "explain_step")) None) None []
   = Stop (Crashed (RuntimeError (str "No active debug session"))) None []).
Proof.
  pose proof (gateway_error_responses
                no_eval no_llm [] no_file no_calls no_process some_uuid
                some_message 2) as (H1 & H2 & H3 & _).
  split; [|split].
  - split; [reflexivity|].
    exact (H1 (str "pause") None paused_on_line_5 [] eq_refl).
  - split; [reflexivity|]. split; [reflexivity|].
    exact (H2 (str "step_over") None finished_session [] eq_refl eq_refl).
  - split; [reflexivity|]. exact (H3 (str "explain_step") None [] eq_refl).
Defined.

(** C4 as stated fails: a step request that arrives while no session
    exists ends the message loop with [RuntimeError], and no message,
    hence no [error] message, is sent to the client. *)
Lemma step_without_session_gets_no_response :
  debug_websocket no_eval no_llm [] no_file no_calls no_process some_uuid
                  some_message 2 [mkMessage (Some (str "step_over")) None]
  = (Crashed (RuntimeError (str "No active debug session")), None, []).
Proof. by vm_compute. Qed.

End GatewayFacts.

(** ** Steps without a current frame *)

Module MissingFrameFacts.
Import PyStr Exceptions Parser Json Session Gateway Fixtures Notions SessionNotions
  PyStrFacts ParserFacts SessionFacts GatewayFacts.




Section Loop.
Variable eval_other : text -> M eval_result.
Variable llm_explain : option text -> Delta -> outcome text.
Variable b64_source : text.
Variable code_file : text -> option text.
Variable get_function_calls : text -> gmap Z (list text).
Variable create_debug_process : text -> outcome Popen.
Variable uuid4 : nat -> text.
Variable builtin_message : exn -> text.
Variable fuel : nat.











Lemma no_current_frame_raises {A} s :
  match @no_current_frame A eval_other s with
  | (Ok _, _) => False
  | (Raise e, s') =>
      forall v s2, get_local_vars eval_other 4 64 s = (Ok v, s2) ->
                   e = Exception (str "No current frame found") /\ s' = s2
  | (OutOfFuel, _) => True
  end.
Proof.
  unfold no_current_frame, bind, raise.
  destruct (get_local_vars eval_other 4 64 s) as [[v| |] s2]; [|done|done].
  by intros ? ? [= <- <-].
Qed.


Abbreviation loop :=
  (message_loop eval_other llm_explain b64_source code_file
                get_function_calls create_debug_process uuid4
                builtin_message fuel).








End Loop.



End MissingFrameFacts.


(** ** Further properties of the variable inspector *)

Module TreeFacts.
Import Heaps Notions TreeNotions PyStrFacts VarTree VarTreeFacts.

Lemma every_leaf (P : node -> Prop) n :
  P n -> node_children n = None -> every P n.
Proof. intros HP Hc. constructor; [done|]. intros cs. by rewrite Hc. Qed.

Lemma every_local (P : node -> Prop) n : every P n -> P n.
Proof. by destruct 1. Qed.

Lemma list_max_bound (l : list nat) (b : nat) :
  Forall (fun x => (x <= b)%nat) l -> (list_max l <= b)%nat.
Proof. induction 1; simpl; lia. Qed.

Section WithHeap.
Variable heap : objid -> pyobj.
Variable py_repr : objid -> text + text.
Variables max_depth max_children : Z.

Abbreviation make fuel name val depth seen :=
  (_make_node heap py_repr fuel name val depth max_depth max_children seen).

(** What holds of the result of every recursive call and of every leaf
    made for a slot that could not be read holds of all the children. *)
Lemma build_children_Forall (P : node -> Prop) mk items seen ns seen' :
  (forall k v sn n sn', mk k v sn = Some (n, sn') -> P n) ->
  (forall k r, P (primitive k (clip r 256))) ->
  build_children mk items seen = Some (ns, seen') ->
  Forall P ns.
Proof.
  intros Hmk Hleaf. revert seen ns.
  induction items as [|[k [v|r]] items IH]; intros seen ns; simpl.
  - by intros [= <- <-].
  - destruct (mk k v seen) as [[n seen1]|] eqn:E; [|done].
    destruct (build_children mk items seen1) as [[ns' seen2]|] eqn:E2;
      [|done].
    intros [= <- <-]. constructor; [by eapply Hmk | by eapply IH].
  - destruct (build_children mk items seen) as [[ns' seen2]|] eqn:E2;
      [|done].
    intros [= <- <-]. constructor; [apply Hleaf | by eapply IH].
Qed.

Lemma build_children_length mk items seen ns seen' :
  build_children mk items seen = Some (ns, seen') ->
  length ns = length items.
Proof.
  revert seen ns.
  induction items as [|[k [v|r]] items IH]; intros seen ns; simpl.
  - by intros [= <- <-].
  - destruct (mk k v seen) as [[n seen1]|] eqn:E; [|done].
    destruct (build_children mk items seen1) as [[ns' seen2]|] eqn:E2;
      [|done].
    intros [= <- <-]. simpl. f_equal. by eapply IH.
  - destruct (build_children mk items seen) as [[ns' seen2]|] eqn:E2;
      [|done].
    intros [= <- <-]. simpl. f_equal. by eapply IH.
Qed.

(** The ways a call can end, read off [_make_node]. *)
Lemma make_cases fuel name val depth seen n seen' :
  make (S fuel) name val depth seen = Some (n, seen') ->
  (node_children n = None /\ node_name n = name /\
   (node_kind n = str "primitive" \/ node_kind n = str "other")) \/
  (depth <= max_depth /\
   exists kind items size cs seen1,
     container_view (heap val) max_children = Some (kind, items, size) /\
     build_children (fun k v sn => make fuel k v (depth + 1) sn) items
                    (seen ∪ {[val]}) = Some (cs, seen1) /\
     n = mkNode name (_safe_repr py_repr val 80) kind
                (Some (if max_children <? size
                       then cs ++ [more_leaf (size - max_children)]
                       else cs))).
Proof.
  rewrite make_S. cbv zeta. case_bool_decide as Hin.
  { intros [= <- <-]. left. auto. }
  destruct (max_depth <? depth) eqn:Hd.
  { intros [= <- <-]. left. auto. }
  apply Z.ltb_ge in Hd.
  destruct (container_view (heap val) max_children)
    as [[[kind items] size]|] eqn:Hv.
  - unfold expand.
    destruct (build_children _ items _) as [[cs seen1]|] eqn:E; [|done].
    intros [= <- <-]. right. split; [done|].
    by exists kind, items, size, cs, seen1.
  - destruct (heap val) as [| | | | |attrs| | |];
      try (intros [= <- <-]; left; by auto).
    destruct (build_attrs _ _ _) as [[r seen1]|]; [|done].
    intros [= <- <-]. left. by auto.
Qed.

Lemma container_view_kind o kind items size :
  container_view o max_children = Some (kind, items, size) ->
  In kind container_kinds.
Proof.
  destruct o as [| | | | |attrs| | |]; simpl; try done;
    try (intros [= <- <- <-]; unfold container_kinds; simpl; tauto).
  destruct (str_keys _); [|done].
  intros [= <- <- <-]; unfold container_kinds; simpl; tauto.
Qed.

Lemma view_items_bound o kind items size :
  0 <= max_children ->
  container_view o max_children = Some (kind, items, size) ->
  len items <= max_children.
Proof.
  intros H0 Hv. unfold len.
  assert (forall A (l : list A),
             Z.of_nat (length (slice_to l max_children)) <= max_children)
    as Hs.
  { intros A l. unfold slice_to.
    destruct (max_children <? 0) eqn:E; [apply Z.ltb_lt in E; lia|].
    rewrite length_take. lia. }
  destruct o as [| | | | |attrs| | |]; simpl in Hv; try done.
  5: { destruct (str_keys (slice_to attrs max_children)) as [named|] eqn:Es;
         [|done].
       injection Hv as <- <- <-. etrans; [|apply (Hs _ attrs)].
       rewrite length_values. pose proof (str_keys_length _ _ Es). lia. }
  all: injection Hv as <- <- <-;
    rewrite ?length_values, ?length_enumerate, ?length_map; apply Hs.
Qed.

Lemma make_shape fuel :
  forall name val depth seen n seen',
    make fuel name val depth seen = Some (n, seen') ->
    node_name n = name /\ every well_shaped n.
Proof.
  induction fuel as [|fuel IH]; intros name val depth seen n seen' H; [done|].
  destruct (make_cases _ _ _ _ _ _ _ H)
    as [(Hc & Hn & Hk) | (Hd & kind & items & size & cs & seen1 & Hv & Hb & ->)].
  - split; [done|]. apply every_leaf; [|done]. unfold well_shaped.
    by rewrite Hc.
  - split; [done|]. constructor.
    + unfold well_shaped. simpl. by eapply container_view_kind.
    + intros cs' [= <-].
      assert (Forall (every well_shaped) cs) as HF.
      { eapply build_children_Forall; [| |exact Hb].
        - intros k v sn m sn' Hm. by destruct (IH _ _ _ _ _ _ Hm).
        - intros k r. apply every_leaf; [|done]. by left. }
      destruct (max_children <? size); [|done].
      apply Forall_app. split; [done|]. constructor; [|done].
      apply every_leaf; [|done]. by left.
Qed.

Lemma make_narrow fuel :
  0 <= max_children ->
  forall name val depth seen n seen',
    make fuel name val depth seen = Some (n, seen') ->
    every (narrow max_children) n.
Proof.
  intros H0.
  induction fuel as [|fuel IH]; intros name val depth seen n seen' H; [done|].
  destruct (make_cases _ _ _ _ _ _ _ H)
    as [(Hc & Hn & Hk) | (Hd & kind & items & size & cs & seen1 & Hv & Hb & ->)].
  - apply every_leaf; [|done]. unfold narrow. by rewrite Hc.
  - pose proof (view_items_bound _ _ _ _ H0 Hv) as Hlen.
    pose proof (build_children_length _ _ _ _ _ Hb) as Hcs.
    constructor.
    + unfold narrow, len in *. simpl.
      destruct (max_children <? size);
        rewrite ?length_app; simpl; lia.
    + intros cs' [= <-].
      assert (Forall (every (narrow max_children)) cs) as HF.
      { eapply build_children_Forall; [| |exact Hb].
        - intros k v sn m sn' Hm. exact (IH _ _ _ _ _ _ Hm).
        - intros k r. apply every_leaf; [exact I | reflexivity]. }
      destruct (max_children <? size); [|done].
      apply Forall_app. split; [done|]. constructor; [|done].
      apply every_leaf; [exact I | reflexivity].
Qed.

Lemma make_height fuel :
  forall name val depth seen n seen',
    make fuel name val depth seen = Some (n, seen') ->
    (height n <= Z.to_nat (max_depth + 1 - depth))%nat.
Proof.
  induction fuel as [|fuel IH]; intros name val depth seen n seen' H; [done|].
  destruct (make_cases _ _ _ _ _ _ _ H)
    as [(Hc & Hn & Hk) | (Hd & kind & items & size & cs & seen1 & Hv & Hb & ->)].
  - destruct n as [a v k c]. simpl in Hc. subst c. simpl. lia.
  - assert (Forall (fun c => (height c <= Z.to_nat (max_depth - depth))%nat) cs)
      as HF.
    { eapply build_children_Forall; [| |exact Hb].
      - intros k v sn m sn' Hm. pose proof (IH _ _ _ _ _ _ Hm). lia.
      - intros k r. simpl. lia. }
    cbn [height].
    assert (list_max (map height
                          (if (max_children <? size)%Z
                           then cs ++ [more_leaf (size - max_children)%Z]
                           else cs))
            <= Z.to_nat (max_depth - depth))%nat as Hm.
    { apply list_max_bound, Forall_map.
      destruct (max_children <? size); [|done].
      apply Forall_app. split; [done|]. constructor; [simpl; lia | done]. }
    lia.
Qed.

(** X1.  With enough fuel the call returns a node that carries the name it was
    asked for, and every node of the tree is a leaf of kind [primitive] or
    [other] or carries children under one of the five container kinds
    [list], [tuple], [dict], [set] and [instance]; the call takes no
    identity out of the set it was given. *)
Theorem tree_names_and_shapes fuel name val depth seen :
  enough max_depth fuel depth ->
  exists n seen',
    make fuel name val depth seen = Some (n, seen') /\ seen ⊆ seen' /\
    node_name n = name /\ every well_shaped n.
Proof.
  intros Hf.
  destruct (make_total heap py_repr max_depth max_children fuel name val
                       depth seen Hf) as (n & seen' & Hn).
  exists n, seen'. split; [done|]. split; [by eapply make_grows|].
  by eapply make_shape.
Qed.

(** X2.  With a non-negative [max_children] and enough fuel, the call returns a
    tree no node of which has more than [max_children + 1] children. *)
Theorem tree_width_bounded fuel name val depth seen :
  0 <= max_children -> enough max_depth fuel depth ->
  exists n seen',
    make fuel name val depth seen = Some (n, seen') /\ seen ⊆ seen' /\
    every (narrow max_children) n.
Proof.
  intros H0 Hf.
  destruct (make_total heap py_repr max_depth max_children fuel name val
                       depth seen Hf) as (n & seen' & Hn).
  exists n, seen'. split; [done|]. split; [by eapply make_grows|].
  by eapply make_narrow.
Qed.

(** X3.  With enough fuel, the tree returned for a value met at [depth] has at
    most [max_depth + 1 - depth] levels below its root; in particular a
    value met beyond [max_depth] is a leaf. *)
Theorem tree_height_bounded fuel name val depth seen :
  enough max_depth fuel depth ->
  exists n seen',
    make fuel name val depth seen = Some (n, seen') /\ seen ⊆ seen' /\
    (height n <= Z.to_nat (max_depth + 1 - depth))%nat.
Proof.
  intros Hf.
  destruct (make_total heap py_repr max_depth max_children fuel name val
                       depth seen Hf) as (n & seen' & Hn).
  exists n, seen'. split; [done|]. split; [by eapply make_grows|].
  by eapply make_height.
Qed.

(** X4.  A container that is expanded and has no more than [max_children]
    elements, and whose attributes are listed without an exception, gets
    one child per element, except the attributes of an instance whose
    names start and end with two underscores, and no further leaf.  The
    call takes no identity out of the set it was given, and hands that
    set back unchanged on a heap none of whose objects raises while its
    attributes are listed. *)
Theorem small_container_children fuel name val depth seen k :
  depth <= max_depth -> (val ∉ seen) -> enough max_depth fuel depth ->
  container_size (heap val) = Some k -> k <= max_children ->
  listing_error (heap val) max_children = None ->
  exists n cs seen',
    make fuel name val depth seen = Some (n, seen') /\
    node_children n = Some cs /\
    (length cs + hidden_dunders (heap val) max_children)%nat = Z.to_nat k /\
    seen ⊆ seen' /\
    ((forall o, restores (heap o) max_children) -> seen' = seen).
Proof.
  intros Hd Hseen Hf Hk Hle He.
  destruct (make_total heap py_repr max_depth max_children fuel name val
                       depth seen Hf) as (n & seen' & Hn).
  exists n. destruct fuel as [|fuel]; [unfold enough in Hf; lia|].
  destruct (make_cases _ _ _ _ _ _ _ Hn)
    as [(Hc & _) | (_ & kind & items & size & cs & seen1 & Hv & Hb & ->)].
  { exfalso. destruct (container_view_size max_children _ _ Hk He)
      as (kind & items & Hv).
    revert Hn. rewrite make_S. cbv zeta.
    rewrite bool_decide_eq_false_2 by done.
    assert ((max_depth <? depth) = false) as -> by (apply Z.ltb_ge; lia).
    rewrite Hv. unfold expand.
    destruct (build_children _ items _) as [[cs seen1]|]; [|done].
    intros [= <- _]. done. }
  destruct (container_view_size max_children _ _ Hk He)
    as (kind' & items' & Hv').
  rewrite Hv in Hv'. injection Hv' as <- <- ->.
  assert ((max_children <? k) = false) as Hlt by (apply Z.ltb_ge; lia).
  rewrite Hlt in *.
  exists cs, seen'. split; [done|]. split; [done|].
  split; [|split; [by eapply make_grows | intros Hr; by eapply make_restores]].
  rewrite (build_children_length _ _ _ _ _ Hb).
  assert (forall A (l : list A), len l <= max_children ->
                                 slice_to l max_children = l) as Hs.
  { intros A l Hl. unfold slice_to, len in *.
    destruct (max_children <? 0) eqn:E; [apply Z.ltb_lt in E; lia|].
    apply take_ge. lia. }
  destruct (heap val) as [| | | | |attrs| | |]; simpl in Hv, Hk; try done.
  5: { rewrite Hs in Hv by (injection Hk as <-; done).
       destruct (str_keys attrs) as [named|] eqn:Es; [|done].
       injection Hv as _ <- _. injection Hk as <-. simpl.
       rewrite Hs by done. rewrite length_values, (str_keys_length _ _ Es).
       unfold len. lia. }
  all: simplify_eq; simpl; rewrite Hs by done;
    rewrite ?length_values, ?length_enumerate, ?length_map;
    unfold len; lia.
Qed.

(** X5.  The text put on a node for an object whose [repr] returns: the [repr]
    itself when it has at most [max_len] characters, else its first
    [max_len] characters and three dots; never more than [max_len + 3]
    characters. *)
Theorem safe_repr_bounded obj s max_len :
  py_repr obj = inl s -> 0 <= max_len ->
  (len s <= max_len -> _safe_repr py_repr obj max_len = s) /\
  (max_len < len s ->
   _safe_repr py_repr obj max_len = take (Z.to_nat max_len) s ++ str "...") /\
  len (_safe_repr py_repr obj max_len) <= max_len + 3.
Proof.
  intros Hr H0. unfold _safe_repr, clip, slice_to, len. rewrite Hr.
  assert ((max_len <? 0) = false) as -> by (apply Z.ltb_ge; lia).
  split; [|split].
  - intros Hl. assert ((max_len <? Z.of_nat (length s)) = false) as ->
        by (apply Z.ltb_ge; lia).
    rewrite app_nil_r. apply take_ge. lia.
  - intros Hl. by assert ((max_len <? Z.of_nat (length s)) = true) as ->
        by (apply Z.ltb_lt; lia).
  - destruct (max_len <? Z.of_nat (length s));
      rewrite length_app, length_take; simpl; lia.
Qed.

End WithHeap.

Lemma build_var_tree_entries heap py_repr fuel locals_dict max_depth
      max_children out :
  build_var_tree heap py_repr fuel locals_dict max_depth max_children
  = Some out ->
  map (fun e => (e.1, e.2.1)) out
  = List.filter (fun kv => negb (startswith kv.1 (str "__"))) locals_dict /\
  Forall (fun e => node_name e.2.2 = e.1) out.
Proof.
  unfold build_var_tree. generalize (∅ : gset objid). revert out.
  induction locals_dict as [|[k v] items IH]; intros out seen;
    cbn [build_entries List.filter].
  - by intros [= <-].
  - cbn [fst]. destruct (startswith k (str "__")); cbn [negb]; [apply IH|].
    destruct (_make_node _ _ _ _ _ _ _ _ _) as [[n seen1]|] eqn:E; [|done].
    destruct (build_entries _ _ _ _ _ _ _) as [out'|] eqn:E2; [|done].
    intros [= <-]. destruct (IH _ _ E2) as [IH1 IH2].
    split; [simpl; by rewrite IH1|]. constructor; [|done].
    simpl. by destruct (make_shape _ _ _ _ _ _ _ _ _ _ _ E).
Qed.

(** X6.  With enough fuel, [build_var_tree] returns one entry for each variable
    whose name does not start with two underscores, in the order of
    [locals_dict], each with the identity of its value and a tree named
    after the variable. *)
Theorem top_level_entries heap py_repr fuel locals_dict max_depth
        max_children :
  enough max_depth fuel 0 ->
  exists out,
    build_var_tree heap py_repr fuel locals_dict max_depth max_children
    = Some out /\
    map (fun e => (e.1, e.2.1)) out
    = List.filter (fun kv => negb (startswith kv.1 (str "__"))) locals_dict /\
    Forall (fun e => node_name e.2.2 = e.1) out.
Proof.
  intros Hf.
  destruct (build_entries_total heap py_repr max_depth max_children fuel
                                locals_dict Hf ∅) as [out Hout].
  exists out. split; [done|]. by eapply build_var_tree_entries.
Qed.

Lemma tree_names_and_shapes_witness :
  enough 4 6 0 /\
  exists n seen',
    _make_node cyclic_heap cyclic_repr 6 (str "lst") 0%nat 0 4 64 ∅
    = Some (n, seen') /\ ∅ ⊆ seen' /\
    node_name n = str "lst" /\ every well_shaped n.
Proof.
  assert (enough 4 6 0) as Hf by (vm_compute; lia).
  split; [exact Hf|].
  exact (tree_names_and_shapes cyclic_heap cyclic_repr 4 64 6%nat
                               (str "lst") 0%nat 0 ∅ Hf).
Defined.

Lemma tree_width_bounded_witness :
  0 <= 2 /\ enough 4 6 0 /\
  exists n seen',
    _make_node cyclic_heap cyclic_repr 6 (str "lst") 0%nat 0 4 2 ∅
    = Some (n, seen') /\ ∅ ⊆ seen' /\
    every (narrow 2) n.
Proof.
  assert (0 <= 2) as H0 by lia.
  assert (enough 4 6 0) as Hf by (vm_compute; lia).
  split; [exact H0|]. split; [exact Hf|].
  exact (tree_width_bounded cyclic_heap cyclic_repr 4 2 6%nat
                            (str "lst") 0%nat 0 ∅ H0 Hf).
Defined.

Lemma tree_height_bounded_witness :
  enough 1 3 0 /\
  exists n seen',
    _make_node diamond_heap diamond_repr 3 (str "top") 0%nat 0 1 64 ∅
    = Some (n, seen') /\ ∅ ⊆ seen' /\
    (height n <= Z.to_nat (1 + 1 - 0))%nat.
Proof.
  assert (enough 1 3 0) as Hf by (vm_compute; lia).
  split; [exact Hf|].
  exact (tree_height_bounded diamond_heap diamond_repr 1 64 3%nat
                             (str "top") 0%nat 0 ∅ Hf).
Defined.

Lemma small_container_children_witness :
  0 <= 4 /\ (0%nat ∉ (∅ : gset objid)) /\ enough 4 6 0 /\
  container_size (wrapper_heap 0%nat) = Some 3 /\ 3 <= 64 /\
  listing_error (wrapper_heap 0%nat) 64 = None /\
  exists n cs seen',
    _make_node wrapper_heap wrapper_repr 6 (str "w") 0%nat 0 4 64 ∅
    = Some (n, seen') /\
    node_children n = Some cs /\
    (length cs + hidden_dunders (wrapper_heap 0%nat) 64)%nat = Z.to_nat 3 /\
    ∅ ⊆ seen' /\
    ((forall o, restores (wrapper_heap o) 64) -> seen' = ∅).
Proof.
  assert (0 <= 4) as Hd by lia.
  assert (0%nat ∉ (∅ : gset objid)) as Hs by apply not_elem_of_empty.
  assert (enough 4 6 0) as Hf by (vm_compute; lia).
  assert (3 <= 64) as Hk by lia.
  repeat (split; [assumption || reflexivity|]).
  exact (small_container_children
           wrapper_heap wrapper_repr 4 64 6%nat (str "w") 0%nat 0 ∅ 3
           Hd Hs Hf eq_refl Hk eq_refl).
Defined.

Lemma safe_repr_bounded_witness :
  cyclic_repr 0%nat = inl (str "[1, 2, [...]]") /\ 0 <= 5 /\
  (len (str "[1, 2, [...]]") <= 5 ->
   _safe_repr cyclic_repr 0%nat 5 = str "[1, 2, [...]]") /\
  (5 < len (str "[1, 2, [...]]") ->
   _safe_repr cyclic_repr 0%nat 5
   = take (Z.to_nat 5) (str "[1, 2, [...]]") ++ str "...") /\
  len (_safe_repr cyclic_repr 0%nat 5) <= 5 + 3.
Proof.
  assert (0 <= 5) as H0 by lia.
  split; [reflexivity|]. split; [exact H0|].
  exact (safe_repr_bounded cyclic_repr 0%nat (str "[1, 2, [...]]") 5
                           eq_refl H0).
Defined.

Lemma top_level_entries_witness :
  enough 4 6 0 /\
  exists out,
    build_var_tree wrapper_heap wrapper_repr 6
                   [(str "__name__", 2%nat); (str "w", 0%nat)] 4 64
    = Some out /\
    map (fun e => (e.1, e.2.1)) out
    = List.filter (fun kv => negb (startswith kv.1 (str "__")))
                  [(str "__name__", 2%nat); (str "w", 0%nat)] /\
    Forall (fun e => node_name e.2.2 = e.1) out.
Proof.
  assert (enough 4 6 0) as Hf by (vm_compute; lia).
  split; [exact Hf|].
  exact (top_level_entries wrapper_heap wrapper_repr 6%nat
                           [(str "__name__", 2%nat); (str "w", 0%nat)] 4 64
                           Hf).
Defined.

End TreeFacts.

(** ** The connection registry *)

Module ManagerFacts.
Import PyStr Gateway Notions Manager Registries ManagerNotions.

(** Writes the type abbreviations out, so that rewriting sees through
    them. *)
Ltac plain := unfold text, websocket in *.

Lemma elem_of_remove_first x y l :
  y ∈ remove_first x l -> y ∈ l.
Proof.
  induction l as [|z l IH]; simpl; [done|].
  case_decide; rewrite !elem_of_cons; [tauto|]. intros [->|Hy]; auto.
Qed.

Lemma remove_first_NoDup x l :
  NoDup l ->
  NoDup (remove_first x l) /\
  forall y, y ∈ remove_first x l <-> y ∈ l /\ y <> x.
Proof.
  induction 1 as [|z l Hz Hl [IH1 IH2]]; simpl.
  - split; [constructor|]. intros y. rewrite elem_of_nil. tauto.
  - case_decide as Hx.
    + subst z. split; [done|]. intros y. rewrite elem_of_cons.
      split; [intros Hy; split; [tauto | by intros ->] | tauto].
    + split.
      * constructor; [|done]. intros Hin. by apply IH2 in Hin as [? _].
      * intros y. rewrite !elem_of_cons, IH2. split.
        -- intros [->|[? ?]]; split; auto.
        -- intros [[->|?] ?]; auto.
Qed.

Lemma remove_first_app_fresh x l :
  x ∉ l -> remove_first x (l ++ [x]) = l.
Proof.
  induction l as [|z l IH]; simpl; intros Hx.
  - by case_decide.
  - apply not_elem_of_cons in Hx as [Hne Hx].
    case_decide; [done|]. by rewrite IH.
Qed.

(** On a consistent registry [disconnect] takes the websocket out of the
    list of its key, drops the list when it becomes empty, and forgets the
    websocket. *)
Lemma disconnect_known ws key m :
  consistent m -> websocket_projects m !! ws = Some key ->
  exists l,
    project_connections m !! key = Some l /\ ws ∈ l /\
    disconnect ws m
    = mkManager (if remove_first ws l is []
                 then delete key (project_connections m)
                 else <[key := remove_first ws l]> (project_connections m))
                (delete ws (websocket_projects m)) (debug_connections m).
Proof.
  intros [H1 H2] Hw. destruct (H2 _ _ Hw) as (l & Hl & Hin).
  exists l. split; [done|]. split; [done|].
  unfold disconnect. plain. rewrite Hw. destruct (H1 _ _ Hl) as (_ & Hk & _).
  destruct key as [|c key]; [done|]. rewrite Hl.
  by rewrite decide_True by done.
Qed.

Lemma disconnect_unknown ws m :
  websocket_projects m !! ws = None -> disconnect ws m = m.
Proof.
  intros Hw. unfold disconnect. plain. rewrite Hw, delete_id by done.
  by destruct m.
Qed.

Lemma disconnect_consistent ws m :
  consistent m -> consistent (disconnect ws m).
Proof.
  intros Hm. destruct (websocket_projects m !! ws) as [key|] eqn:Hw;
    [|by rewrite disconnect_unknown].
  destruct (disconnect_known _ _ _ Hm Hw) as (l & Hl & Hin & ->).
  destruct Hm as [H1 H2]. plain.
  destruct (H1 _ _ Hl) as (Hne & Hk & Hnd & Hall).
  destruct (remove_first_NoDup ws l Hnd) as [Hnd' Hmem].
  split; simpl.
  - intros k l0 Hk0.
    assert (forall w, w ∈ l0 -> websocket_projects m !! w = Some k ->
                      w <> ws -> delete ws (websocket_projects m) !! w = Some k)
      as Hkeep by (intros w _ Hw0 Hn; by rewrite lookup_delete_ne).
    destruct (decide (k = key)) as [->|Hkk].
    + destruct (remove_first ws l) as [|a l'] eqn:Er.
      { by rewrite lookup_delete_eq in Hk0. }
      rewrite lookup_insert_eq in Hk0. injection Hk0 as <-.
      split; [done|]. split; [done|]. split; [done|].
      intros w Hw0. apply Hmem in Hw0 as [Hw0 Hn].
      rewrite lookup_delete_ne by done. by apply Hall.
    + assert (project_connections m !! k = Some l0) as Hold.
      { destruct (remove_first ws l);
          [by rewrite lookup_delete_ne in Hk0
          | by rewrite lookup_insert_ne in Hk0]. }
      destruct (H1 _ _ Hold) as (? & ? & ? & Hall0).
      split; [done|]. split; [done|]. split; [done|].
      intros w Hw0. rewrite lookup_delete_ne; [by apply Hall0|].
      intros <-. pose proof (Hall0 _ Hw0). congruence.
  - intros w k Hwk.
    destruct (decide (w = ws)) as [->|Hn];
      [by rewrite lookup_delete_eq in Hwk|].
    rewrite lookup_delete_ne in Hwk by done.
    destruct (H2 _ _ Hwk) as (l0 & Hl0 & Hin0).
    destruct (decide (k = key)) as [->|Hkk].
    + assert (l0 = l) as -> by congruence.
      assert (w ∈ remove_first ws l) as Hin' by (by apply Hmem).
      destruct (remove_first ws l) as [|a l'] eqn:Er;
        [by apply elem_of_nil in Hin'|].
      exists (a :: l'). by rewrite lookup_insert_eq.
    + exists l0. split; [|done].
      destruct (remove_first ws l);
        [by rewrite lookup_delete_ne | by rewrite lookup_insert_ne].
Qed.

Lemma remove_first_filter x l :
  NoDup l -> remove_first x l = filter (fun y => y <> x) l.
Proof.
  induction 1 as [|z l Hz Hl IH]; simpl; [done|].
  case_decide as Hx.
  - subst z. rewrite filter_cons_False by (intros Hn; by apply Hn).
    clear IH Hl. induction l as [|y l IH]; [done|].
    apply not_elem_of_cons in Hz as [Hne Hz].
    rewrite filter_cons_True by done. by rewrite <- IH.
  - rewrite filter_cons_True by (intros ->; by apply Hx). by rewrite IH.
Qed.

Lemma filter_failed_complement (f : websocket -> bool) l0 l :
  (forall w, w ∈ l -> w ∈ l0) ->
  filter (fun w => w ∉ List.filter (fun w => negb (f w)) l0) l
  = List.filter f l.
Proof.
  induction l as [|w l IH]; intros Hsub; [done|].
  assert (w ∈ l0) as Hw by (apply Hsub; left).
  assert (forall w, w ∈ l -> w ∈ l0) as Hsub' by (intros; apply Hsub; by right).
  simpl. destruct (f w) eqn:Ef.
  - rewrite filter_cons_True; [by rewrite IH|].
    rewrite list_elem_of_In, List.filter_In. intros [_ Hn].
    by rewrite Ef in Hn.
  - rewrite filter_cons_False; [by rewrite IH|].
    intros Hn. apply Hn. rewrite list_elem_of_In, List.filter_In.
    split; [by apply list_elem_of_In | by rewrite Ef].
Qed.

(** Disconnecting, one after the other, websockets that are all filed
    under [key]. *)
Lemma disconnect_all key :
  forall ds m l,
    consistent m -> project_connections m !! key = Some l ->
    NoDup ds -> (forall d, d ∈ ds -> d ∈ l) ->
    let m' := foldl (fun m ws => disconnect ws m) m ds in
    let rest := filter (fun w => w ∉ ds) l in
    consistent m' /\
    project_connections m' !! key = (if rest is [] then None else Some rest) /\
    (forall k, k <> key ->
               project_connections m' !! k = project_connections m !! k) /\
    (forall w, websocket_projects m' !! w
               = if decide (w ∈ ds) then None else websocket_projects m !! w).
Proof.
  induction ds as [|d ds IH]; intros m l Hm Hl Hnd Hsub; cbn [foldl].
  - split; [done|]. split; [|split; [done|]].
    + assert (filter (fun w => w ∉ []) l = l) as ->.
      { clear. induction l as [|y l IH]; [done|].
        rewrite filter_cons_True by apply not_elem_of_nil. by rewrite IH. }
      destruct Hm as [H1 _]. destruct (H1 _ _ Hl) as (Hne & _).
      by destruct l.
    + intros w. by rewrite decide_False by apply not_elem_of_nil.
  - apply NoDup_cons in Hnd as [Hd Hnd].
    pose proof Hm as [H1 H2].
    destruct (H1 _ _ Hl) as (Hne & Hk & Hndl & Hall).
    assert (websocket_projects m !! d = Some key) as Hwd
        by (apply Hall, Hsub; left).
    destruct (disconnect_known _ _ _ Hm Hwd) as (l0 & Hl0 & Hin & Hdis).
    plain. assert (l0 = l) as -> by congruence.
    pose proof (disconnect_consistent d m Hm) as Hm1.
    destruct (remove_first_NoDup d l Hndl) as [Hnd1 Hmem].
    assert (filter (fun w => w ∉ d :: ds) l
            = filter (fun w => w ∉ ds) (remove_first d l)) as Hrest.
    { rewrite remove_first_filter by done. rewrite list_filter_filter.
      apply list_filter_iff. intros w. rewrite not_elem_of_cons. tauto. }
    assert (forall k, k <> key ->
                      project_connections (disconnect d m) !! k
                      = project_connections m !! k) as Hother.
    { intros k Hkk. rewrite Hdis. simpl.
      destruct (remove_first d l);
        [by rewrite lookup_delete_ne | by rewrite lookup_insert_ne]. }
    assert (forall w, websocket_projects (disconnect d m) !! w
                      = if decide (w = d) then None
                        else websocket_projects m !! w) as Hwp.
    { intros w. rewrite Hdis. simpl. case_decide as Hwd'.
      - subst w. apply lookup_delete_eq.
      - by rewrite lookup_delete_ne. }
    destruct (remove_first d l) as [|a l1] eqn:Er.
    + assert (ds = []) as ->.
      { destruct ds as [|d' ds]; [done|]. exfalso.
        assert (d' ∈ (@nil nat)) as Hin'.
        { apply Hmem. split; [apply Hsub; right; left|].
          intros ->. apply Hd. left. }
        by apply elem_of_nil in Hin'. }
      cbn [foldl]. split; [done|]. rewrite Hrest, filter_nil.
      split; [|split; [done|]].
      * rewrite Hdis. simpl. apply lookup_delete_eq.
      * intros w. rewrite Hwp. repeat case_decide; try done.
        -- exfalso. subst w. apply H0. left.
        -- exfalso. apply H. by apply list_elem_of_singleton.
    + assert (project_connections (disconnect d m) !! key = Some (a :: l1))
        as Hl1 by (rewrite Hdis; simpl; apply lookup_insert_eq).
      destruct (IH (disconnect d m) (a :: l1) Hm1 Hl1 Hnd) as (I1 & I2 & I3 & I4).
      { intros d' Hd'. apply Hmem.
        split; [apply Hsub; by right|]. intros ->. by apply Hd. }
      split; [done|]. rewrite Hrest. split; [done|]. split.
      * intros k Hkk. by rewrite I3, Hother.
      * intros w. rewrite I4, Hwp.
        repeat case_decide; try done; exfalso;
          repeat match goal with
                 | H : _ ∈ _ :: _ |- _ => apply elem_of_cons in H
                 | H : _ ∉ _ :: _ |- _ => apply not_elem_of_cons in H
                 end; tauto.
Qed.

Lemma connect_consistent key ws m :
  key <> [] -> websocket_projects m !! ws = None ->
  consistent m -> consistent (connect key ws m).
Proof.
  intros Hk Hw [H1 H2]. plain.
  assert (forall l, project_connections m !! key = Some l -> ws ∉ l) as Hfresh.
  { intros l Hl Hin. destruct (H1 _ _ Hl) as (_ & _ & _ & Hall).
    pose proof (Hall _ Hin). congruence. }
  split; simpl.
  - intros k l Hl. destruct (decide (k = key)) as [->|Hkk].
    + rewrite lookup_insert_eq in Hl. injection Hl as <-.
      split; [by destruct (default [] _)|]. split; [done|]. plain.
      match goal with
      | |- context [default [] ?o] => destruct o as [l0|] eqn:E0; simpl
      end.
      * destruct (H1 _ _ E0) as (_ & _ & Hnd & Hall). split.
        -- apply NoDup_app. split; [done|]. split; [|apply NoDup_singleton].
           intros x Hx Hx'. apply list_elem_of_singleton in Hx' as ->.
           by apply (Hfresh l0).
        -- intros w. rewrite elem_of_app, list_elem_of_singleton.
           intros [Hin| ->]; [|apply lookup_insert_eq].
           rewrite lookup_insert_ne; [by apply Hall|].
           intros <-. by apply (Hfresh l0).
      * split; [apply NoDup_singleton|]. intros w.
        rewrite list_elem_of_singleton. intros ->. apply lookup_insert_eq.
    + rewrite lookup_insert_ne in Hl by done.
      destruct (H1 _ _ Hl) as (? & ? & ? & Hall).
      split; [done|]. split; [done|]. split; [done|].
      intros w Hin. rewrite lookup_insert_ne; [by apply Hall|].
      intros <-. pose proof (Hall _ Hin). congruence.
  - intros w k Hwk. destruct (decide (w = ws)) as [->|Hn].
    + rewrite lookup_insert_eq in Hwk. injection Hwk as <-.
      eexists. rewrite lookup_insert_eq. split; [done|].
      apply elem_of_app. right. by apply list_elem_of_singleton.
    + rewrite lookup_insert_ne in Hwk by done.
      destruct (H2 _ _ Hwk) as (l0 & Hl0 & Hin0).
      destruct (decide (k = key)) as [->|Hkk].
      * eexists. rewrite lookup_insert_eq. split; [done|].
        plain. rewrite Hl0. simpl. apply elem_of_app. by left.
      * exists l0. by rewrite lookup_insert_ne.
Qed.

Lemma send_to_known delivers key m l :
  consistent m -> project_connections m !! key = Some l ->
  let r := send_to delivers key m in
  r.1 = List.filter delivers l /\
  consistent r.2 /\
  project_connections r.2 !! key
  = (if List.filter delivers l is [] then None
     else Some (List.filter delivers l)) /\
  (forall k, k <> key ->
             project_connections r.2 !! k = project_connections m !! k) /\
  (forall w, websocket_projects r.2 !! w
             = if decide (w ∈ l /\ delivers w = false) then None
               else websocket_projects m !! w).
Proof.
  intros Hm Hl. unfold send_to. plain. rewrite Hl. cbn [default fst snd].
  destruct Hm as [H1 H2]. destruct (H1 _ _ Hl) as (_ & _ & Hnd & _).
  assert (NoDup (List.filter (fun ws => negb (delivers ws)) l)) as Hndf.
  { apply NoDup_ListNoDup, List.NoDup_filter. by apply NoDup_ListNoDup. }
  assert (forall d, d ∈ List.filter (fun ws => negb (delivers ws)) l -> d ∈ l)
    as Hsub.
  { intros d. rewrite !list_elem_of_In, List.filter_In. tauto. }
  destruct (disconnect_all key _ m l (conj H1 H2) Hl Hndf Hsub)
    as (I1 & I2 & I3 & I4).
  rewrite filter_failed_complement in I2 by done.
  split; [done|]. split; [done|]. split; [done|]. split; [done|].
  intros w. rewrite I4.
  repeat case_decide; try done; exfalso.
  - apply H0. match goal with H : _ ∈ _ |- _ =>
      apply list_elem_of_In, List.filter_In in H as [Hin Hf] end.
    split; [by apply list_elem_of_In|]. by destruct (delivers w).
  - apply H. destruct H0 as [Hin Hf].
    apply list_elem_of_In, List.filter_In.
    split; [by apply list_elem_of_In | by rewrite Hf].
Qed.

Lemma send_to_unknown delivers key m :
  project_connections m !! key = None -> send_to delivers key m = ([], m).
Proof. intros Hl. unfold send_to. plain. by rewrite Hl. Qed.

(** X7.  The registry is consistent when created and stays consistent under
    [connect] of a websocket that is not yet registered under a non-empty
    key, under [disconnect] of any websocket, and under [send_to]. *)
Theorem registry_stays_consistent :
  consistent new_manager /\
  (forall key ws m,
      key <> [] -> websocket_projects m !! ws = None ->
      consistent m -> consistent (connect key ws m)) /\
  (forall ws m, consistent m -> consistent (disconnect ws m)) /\
  (forall delivers key m,
      consistent m -> consistent (send_to delivers key m).2).
Proof.
  split; [|split; [|split]].
  - split; intros ? ? H; simpl in H; by rewrite lookup_empty in H.
  - apply connect_consistent.
  - apply disconnect_consistent.
  - intros delivers key m Hm.
    destruct (project_connections m !! key) as [l|] eqn:Hl.
    + by destruct (send_to_known delivers key m l Hm Hl) as (_ & ? & _).
    + by rewrite send_to_unknown.
Qed.

Lemma connect_then_disconnect_aux key ws m :
  consistent m -> key <> [] -> websocket_projects m !! ws = None ->
  disconnect ws (connect key ws m) = m.
Proof.
  intros Hm Hk Hw.
  pose proof (connect_consistent key ws m Hk Hw Hm) as Hc.
  assert (websocket_projects (connect key ws m) !! ws = Some key) as Hwc
      by (simpl; apply lookup_insert_eq).
  destruct (disconnect_known _ _ _ Hc Hwc) as (l & Hl & Hin & ->).
  simpl in Hl. rewrite lookup_insert_eq in Hl. injection Hl as <-.
  destruct Hm as [H1 H2]. plain.
  assert (ws ∉ default [] (project_connections m !! key)) as Hfresh.
  { destruct (project_connections m !! key) as [l0|] eqn:E0; simpl;
      [|apply not_elem_of_nil].
    intros Hin0. destruct (H1 _ _ E0) as (_ & _ & _ & Hall).
    pose proof (Hall _ Hin0). congruence. }
  rewrite remove_first_app_fresh by done.
  destruct m as [pc wp dc]. simpl in *.
  rewrite (delete_insert_id wp) by done. f_equal. plain.
  match goal with
  | |- context [default [] ?o] => destruct o as [l0|] eqn:E0; simpl
  end.
  - destruct (H1 _ _ E0) as (Hne & _). destruct l0 as [|a l0]; [done|].
    rewrite insert_insert_eq. by apply insert_id.
  - by apply delete_insert_id.
Qed.

(** X8.  Registering a fresh websocket under a non-empty key and disconnecting
    it again gives back the registry exactly as it was. *)
Theorem connect_then_disconnect key ws m :
  consistent m -> key <> [] -> websocket_projects m !! ws = None ->
  disconnect ws (connect key ws m) = m.
Proof. apply connect_then_disconnect_aux. Qed.

(** X9.  A websocket that was disconnected from a consistent registry is in no
    list of connections and is forgotten by the reverse table, so no later
    [send_to] reaches it. *)
Theorem disconnected_gets_nothing ws m :
  consistent m ->
  unlisted ws (disconnect ws m) /\
  websocket_projects (disconnect ws m) !! ws = None /\
  forall delivers key, ws ∉ (send_to delivers key (disconnect ws m)).1.
Proof.
  intros Hm. pose proof (disconnect_consistent ws m Hm) as [H1 H2].
  assert (websocket_projects (disconnect ws m) !! ws = None) as Hw
      by (simpl; apply lookup_delete_eq).
  assert (unlisted ws (disconnect ws m)) as Hu.
  { intros key l Hl Hin. destruct (H1 _ _ Hl) as (_ & _ & _ & Hall).
    pose proof (Hall _ Hin). plain. congruence. }
  split; [done|]. split; [done|].
  intros delivers key. unfold send_to. cbn [fst].
  match goal with
  | |- context [default [] ?o] => destruct o as [l|] eqn:Hl; simpl
  end; [|apply not_elem_of_nil].
  rewrite list_elem_of_In, List.filter_In, <- list_elem_of_In.
  intros [Hin _]. by apply (Hu key l).
Qed.


(** X11.  Whatever the client sends, [project_websocket] on a websocket that is
    not yet registered leaves a consistent registry exactly as it found it,
    and sends at most one message: [project_connected] exactly when the
    first message is [connect_project] with a non-empty project id. *)
Theorem project_websocket_leaves_registry ws inbox m :
  consistent m -> websocket_projects m !! ws = None ->
  let r := project_websocket ws inbox m in
  r.2 = m /\ (length r.1.1 <= 1)%nat /\
  (r.1.1 = [PConnected] <->
   exists message rest kind,
     inbox = message :: rest /\ msg_type message = Some kind /\
     kind = str "connect_project" /\
     default (str "None") (msg_project_id message) <> []).
Proof.
  intros Hm Hw r. subst r. unfold project_websocket.
  destruct inbox as [|message rest].
  - simpl. split; [by apply disconnect_unknown|]. split; [lia|].
    split; [done | by intros (? & ? & ? & ? & _)].
  - destruct (msg_type message) as [kind|] eqn:Ek.
    + destruct (text_eqb kind (str "connect_project")) eqn:Et; cbn [negb].
      * apply PyStrFacts.text_eqb_spec in Et.
        destruct (default (str "None") (msg_project_id message))
          as [|c pid] eqn:Ep.
        -- simpl. split; [by apply disconnect_unknown|]. split; [lia|].
           split; [done|]. intros (m0 & r0 & k0 & [= <- <-] & _ & _ & Hne).
           destruct (Hne Ep).
        -- cbn [fst snd]. split; [by apply connect_then_disconnect_aux|].
           split; [simpl; lia|]. split; [|done]. intros _.
           exists message, rest, kind. by rewrite Ep.
      * simpl. split; [by apply disconnect_unknown|]. split; [lia|].
        split; [done|].
        intros (m0 & r0 & k0 & [= <- <-] & Hk0 & -> & _).
        rewrite Ek in Hk0. injection Hk0 as ->.
        vm_compute in Et. discriminate.
    + simpl. split; [by apply disconnect_unknown|]. split; [lia|].
      split; [done|]. intros (m0 & r0 & k0 & [= <- <-] & Hk0 & _).
      congruence.
Qed.

Lemma new_manager_consistent : consistent new_manager.
Proof. split; intros ? ? H; simpl in H; by rewrite lookup_empty in H. Qed.

Lemma two_subscribers_consistent : consistent two_subscribers.
Proof.
  unfold two_subscribers.
  apply connect_consistent; [done|by vm_compute|].
  apply connect_consistent; [done|by vm_compute|].
  apply new_manager_consistent.
Qed.

Lemma connect_then_disconnect_witness :
  consistent new_manager /\ str "p1" <> [] /\
  websocket_projects new_manager !! 1%nat = None /\
  disconnect 1%nat (connect (str "p1") 1%nat new_manager) = new_manager.
Proof.
  assert (str "p1" <> []) as Hk by discriminate.
  assert (websocket_projects new_manager !! 1%nat = None) as Hw
      by reflexivity.
  split; [exact new_manager_consistent|]. split; [exact Hk|].
  split; [exact Hw|].
  exact (connect_then_disconnect (str "p1") 1%nat new_manager
                                 new_manager_consistent Hk Hw).
Defined.

Lemma disconnected_gets_nothing_witness :
  consistent two_subscribers /\
  unlisted 1%nat (disconnect 1%nat two_subscribers) /\
  websocket_projects (disconnect 1%nat two_subscribers) !! 1%nat = None /\
  forall delivers key,
    1%nat ∉ (send_to delivers key (disconnect 1%nat two_subscribers)).1.
Proof.
  split; [exact two_subscribers_consistent|].
  exact (disconnected_gets_nothing 1%nat two_subscribers
                                   two_subscribers_consistent).
Defined.


Lemma project_websocket_leaves_registry_witness :
  consistent two_subscribers /\
  websocket_projects two_subscribers !! 3%nat = None /\
  let r := project_websocket 3%nat [connect_p1] two_subscribers in
  r.2 = two_subscribers /\ (length r.1.1 <= 1)%nat /\
  (r.1.1 = [PConnected] <->
   exists message rest kind,
     [connect_p1] = message :: rest /\ msg_type message = Some kind /\
     kind = str "connect_project" /\
     default (str "None") (msg_project_id message) <> []).
Proof.
  assert (websocket_projects two_subscribers !! 3%nat = None) as Hw
      by (vm_compute; reflexivity).
  split; [exact two_subscribers_consistent|]. split; [exact Hw|].
  exact (project_websocket_leaves_registry 3%nat [connect_p1] two_subscribers
                                           two_subscribers_consistent Hw).
Defined.

End ManagerFacts.

(** ** The session: what its methods change *)

Module CalmFacts.
Import PyStr Parser Json Session Gateway Fixtures SessionNotions PyStrFacts
  BridgeFacts SessionFacts.

Lemma talked_refl s : talked s s.
Proof.
  unfold talked. destruct (process s) as [p|]; [|done].
  split; [exists []; by rewrite app_nil_r|]. split; [by exists []|done].
Qed.

Lemma talked_same s s' : process s' = process s -> talked s s'.
Proof. intros H. unfold talked. rewrite H. apply talked_refl. Qed.

Lemma talked_trans s1 s2 s3 : talked s1 s2 -> talked s2 s3 -> talked s1 s3.
Proof.
  unfold talked.
  destruct (process s1) as [p1|], (process s2) as [p2|],
    (process s3) as [p3|]; try done.
  intros ([w1 H1] & [r1 H2] & H3) ([w2 H4] & [r2 H5] & H6).
  split; [exists (w1 ++ w2); by rewrite H4, H1, app_assoc|].
  split; [exists (r1 ++ r2); by rewrite H2, H5, app_assoc|].
  congruence.
Qed.

Lemma calm_refl s : calm s s.
Proof. repeat split; apply talked_refl. Qed.

Lemma calm_trans s1 s2 s3 : calm s1 s2 -> calm s2 s3 -> calm s1 s3.
Proof.
  intros (A1 & A2 & A3 & A4 & A5 & A6) (B1 & B2 & B3 & B4 & B5 & B6).
  repeat split; try congruence. by apply talked_trans with s2.
Qed.

Section Keeps.
Context (R : DebugSession -> DebugSession -> Prop).
Hypothesis R_refl : forall s, R s s.
Hypothesis R_trans : forall s1 s2 s3, R s1 s2 -> R s2 s3 -> R s1 s3.

Lemma keeps_ret {A} (a : A) : keeps R (ret a).
Proof. intros s. apply R_refl. Qed.

Lemma keeps_raise {A} e : keeps R (@raise A e).
Proof. intros s. apply R_refl. Qed.

Lemma keeps_lift {A} (o : outcome A) : keeps R (lift o).
Proof. intros s. apply R_refl. Qed.

Lemma keeps_get_self : keeps R get_self.
Proof. intros s. apply R_refl. Qed.

Lemma keeps_bind {A B} (m : M A) (k : A -> M B) :
  keeps R m -> (forall a, keeps R (k a)) -> keeps R (bind m k).
Proof.
  intros Hm Hk s. unfold bind. specialize (Hm s).
  destruct (m s) as [[a| |] s1]; simpl in *; [|done|done].
  by apply R_trans with s1, Hk.
Qed.

Lemma keeps_try_except {A} (m : M A) (h : exn -> M A) :
  keeps R m -> (forall e, keeps R (h e)) -> keeps R (try_except m h).
Proof.
  intros Hm Hh s. unfold try_except. specialize (Hm s).
  destruct (m s) as [[a|e|] s1]; simpl in *; [done| |done].
  destruct (is_exception e); [|done]. by apply R_trans with s1, Hh.
Qed.

End Keeps.

Lemma calm_stdin_write cmd : keeps calm (stdin_write cmd).
Proof.
  intros s. unfold stdin_write.
  destruct (process s) as [p|] eqn:Hp; [|apply calm_refl].
  repeat split; simpl. unfold talked. rewrite Hp. simpl.
  split; [by eexists|]. split; [by exists []|done].
Qed.

Lemma calm_read_up_to pattern : keeps calm (_read_up_to pattern).
Proof.
  intros s. unfold _read_up_to.
  destruct (process s) as [p|] eqn:Hp; [|apply calm_refl].
  destruct (read_loop pattern [] (stdout p)) as [o rest] eqn:E.
  repeat split; simpl. unfold talked. rewrite Hp. simpl.
  split; [exists []; by rewrite app_nil_r|]. split; [|done].
  exists o. by destruct (read_loop_inv _ _ _ _ _ E) as [-> _].
Qed.

Lemma calm_ensure : keeps calm ensure_process_is_running.
Proof.
  intros s. unfold ensure_process_is_running.
  destruct (process s) as [p|]; [destruct (returncode p)|]; apply calm_refl.
Qed.

Create HintDb calm discriminated.
#[export] Hint Resolve calm_stdin_write calm_read_up_to calm_ensure : calm.

(** Splits a method into the calls it is made of. *)
Ltac keep :=
  repeat first
    [ apply (keeps_ret calm calm_refl)
    | apply (keeps_raise calm calm_refl)
    | apply (keeps_lift calm calm_refl)
    | apply (keeps_get_self calm calm_refl)
    | solve [auto with calm]
    | apply (keeps_bind calm calm_trans); [|intros ?]
    | apply (keeps_try_except calm calm_trans); [|intros ?]
    | match goal with
      | |- keeps _ (match ?x with _ => _ end) => destruct x
      end
    | progress cbv zeta ].

Lemma calm_command cmd : keeps calm (command cmd).
Proof. unfold command, _read_user_and_pdb_output. keep. Qed.
#[export] Hint Resolve calm_command : calm.

Lemma calm_pdb_next : keeps calm pdb_next.
Proof. unfold pdb_next. keep. Qed.
Lemma calm_pdb_step : keeps calm pdb_step.
Proof. unfold pdb_step. keep. Qed.
Lemma calm_pdb_return : keeps calm pdb_return.
Proof. unfold pdb_return. keep. Qed.
Lemma calm_pdb_where : keeps calm pdb_where.
Proof. unfold pdb_where. keep. Qed.
Lemma calm_pdb_up : keeps calm pdb_up.
Proof. unfold pdb_up. keep. Qed.
Lemma calm_pdb_list : keeps calm pdb_list.
Proof. unfold pdb_list. keep. Qed.
Lemma calm_pdb_longlist : keeps calm pdb_longlist.
Proof. unfold pdb_longlist. keep. Qed.
Lemma calm_pdb_p expr : keeps calm (pdb_p expr).
Proof. unfold pdb_p. keep. Qed.
Lemma calm_pdb_break location : keeps calm (pdb_break location).
Proof. unfold pdb_break. keep. Qed.
Lemma calm_pdb_continue : keeps calm pdb_continue.
Proof. unfold pdb_continue. keep. Qed.
#[export] Hint Resolve calm_pdb_next calm_pdb_step calm_pdb_return
  calm_pdb_where calm_pdb_up calm_pdb_list calm_pdb_longlist calm_pdb_p
  calm_pdb_break calm_pdb_continue : calm.

Lemma calm_is_exception_raised : keeps calm is_exception_raised.
Proof. unfold is_exception_raised. keep. Qed.
Lemma calm_capture_exception_info : keeps calm _capture_exception_info.
Proof. unfold _capture_exception_info. keep. Qed.
Lemma calm_is_in_generator : keeps calm _is_in_generator_function.
Proof. unfold _is_in_generator_function. keep. Qed.
#[export] Hint Resolve calm_is_exception_raised calm_capture_exception_info
  calm_is_in_generator : calm.

Section WithEval.
Variable eval_other : text -> M eval_result.
(** Evaluating what the debugger printed does nothing to the session but
    talk to its process. *)
Hypothesis eval_calm : forall raw, keeps calm (eval_other raw).

Lemma calm_py_eval raw : keeps calm (py_eval eval_other raw).
Proof. unfold py_eval. keep. Qed.
Hint Resolve calm_py_eval : calm.

Lemma calm_get_local_vars max_depth max_children :
  keeps calm (get_local_vars eval_other max_depth max_children).
Proof. unfold get_local_vars. keep. Qed.
Hint Resolve calm_get_local_vars : calm.

Lemma calm_get_current_frame : keeps calm (get_current_frame eval_other).
Proof. unfold get_current_frame. keep. Qed.
Hint Resolve calm_get_current_frame : calm.

Lemma calm_can_step_into : keeps calm (can_step_into eval_other).
Proof. unfold can_step_into. keep. Qed.
Lemma calm_can_step_out : keeps calm (can_step_out eval_other).
Proof. unfold can_step_out. keep. Qed.
Hint Resolve calm_can_step_into calm_can_step_out : calm.

Lemma calm_get_state : keeps calm (get_state eval_other).
Proof. unfold get_state. keep. Qed.
Hint Resolve calm_get_state : calm.

Lemma calm_capture_loop fuel :
  forall idx calls outs, keeps calm (capture_loop eval_other fuel idx calls outs).
Proof.
  induction fuel as [|fuel IH]; intros idx calls outs.
  - simpl. keep.
  - rewrite capture_loop_S. keep.
Qed.
Hint Resolve calm_capture_loop : calm.

Lemma calm_capture_delta fuel :
  keeps calm (_step_over_and_capture_delta eval_other fuel).
Proof.
  unfold _step_over_and_capture_delta, _step_over_and_capture_calls. keep.
Qed.

End WithEval.

#[export] Hint Resolve calm_get_local_vars calm_get_current_frame
  calm_can_step_into calm_can_step_out calm_get_state calm_capture_loop
  calm_capture_delta : calm.

(** X12.  The commands of the bridge, whatever their outcome, change nothing
    of the session but the streams of its process: its name, file, code,
    table of calls and history stay as they are, its process is neither
    dropped nor replaced, lines are only appended to what was written to
    it, and its output is only read from the front.  The same holds of the
    queries of the session that evaluate what the debugger printed,
    provided the evaluation of a text that is not a string literal does no
    more to the session itself. *)
Theorem queries_only_talk eval_other fuel :
  ((forall cmd, keeps calm (command cmd)) /\
   keeps calm pdb_next /\ keeps calm pdb_step /\ keeps calm pdb_return /\
   keeps calm pdb_where /\ keeps calm pdb_up /\ keeps calm pdb_list /\
   keeps calm pdb_longlist /\ (forall expr, keeps calm (pdb_p expr)) /\
   (forall location, keeps calm (pdb_break location)) /\
   keeps calm pdb_continue /\
   keeps calm is_exception_raised /\ keeps calm _capture_exception_info /\
   keeps calm _is_in_generator_function) /\
  ((forall raw, keeps calm (eval_other raw)) ->
   (forall max_depth max_children,
       keeps calm (get_local_vars eval_other max_depth max_children)) /\
   keeps calm (get_current_frame eval_other) /\
   keeps calm (can_step_into eval_other) /\
   keeps calm (can_step_out eval_other) /\
   keeps calm (get_state eval_other) /\
   keeps calm (_step_over_and_capture_calls eval_other fuel) /\
   keeps calm (_step_over_and_capture_delta eval_other fuel)).
Proof.
  split; [|intros Heval];
    repeat match goal with |- _ /\ _ => split end; auto with calm.
  unfold _step_over_and_capture_calls. auto with calm.
Qed.

Lemma calm_no_eval raw : keeps calm (no_eval raw).
Proof. apply (keeps_raise calm calm_refl). Qed.

Lemma queries_only_talk_witness :
  (forall raw, keeps calm (no_eval raw)) /\
  keeps calm (get_state no_eval) /\
  keeps calm (_step_over_and_capture_delta no_eval 2).
Proof.
  split; [exact calm_no_eval|].
  pose proof (proj2 (queries_only_talk no_eval 2) calm_no_eval) as H.
  split; apply H.
Defined.

End CalmFacts.

(** ** The steps: what they file in the history *)

Module StepFacts.
Import PyStr Parser Json Session Gateway Fixtures SessionNotions Runs
  PyStrFacts SessionFacts CalmFacts.

Lemma added_calm c n s s' : calm s s' -> added c n s s'.
Proof.
  intros (A1 & A2 & A3 & A4 & A5 & A6). repeat split; try done.
  - exists []. rewrite app_nil_r. split; [done|]. split; [simpl; lia|done].
  - by right.
Qed.

Lemma added_trans c n m s1 s2 s3 :
  added c n s1 s2 -> added c m s2 s3 -> added c (n + m) s1 s3.
Proof.
  intros (A1 & A2 & A3 & (l1 & A4 & A5 & A6) & A7)
         (B1 & B2 & B3 & (l2 & B4 & B5 & B6) & B7).
  repeat split; try congruence.
  - exists (l1 ++ l2). rewrite B4, A4, app_assoc. split; [done|].
    split; [rewrite length_app; lia | by apply Forall_app].
  - destruct B7 as [B7 | [B7 B8]]; [by left|].
    destruct A7 as [[A7 A8] | [A7 A8]].
    + left. unfold talked in B7. rewrite A7 in B7.
      destruct (process s3); [done|]. split; [done|congruence].
    + right. split; [by apply talked_trans with s2 | congruence].
Qed.

Lemma adds_calm {A} c n (m : M A) : keeps calm m -> keeps (added c n) m.
Proof. intros H s. apply added_calm, H. Qed.

Lemma adds_bind_calm {A B} c n (m : M A) (k : A -> M B) :
  keeps calm m -> (forall a, keeps (added c n) (k a)) ->
  keeps (added c n) (bind m k).
Proof.
  intros Hm Hk s. unfold bind. specialize (Hm s).
  destruct (m s) as [[a| |] s1]; simpl in *; try by apply added_calm.
  apply (added_trans c 0 n s s1); [by apply added_calm | apply Hk].
Qed.

Lemma adds_store c n po pdb frame d :
  (d = None <-> c = StepInto) ->
  keeps (added c (S n)) (_store_step_info (step_name c) po pdb frame d).
Proof.
  intros Hd s. unfold _store_step_info, modify. repeat split; simpl.
  - eexists. split; [done|]. split; [simpl; lia|].
    constructor; [|done]. by repeat split; simpl; try apply Hd.
  - right. split; [by apply talked_same | done].
Qed.

Lemma adds_bind_store {B} c n po pdb frame d (k : unit -> M B) :
  (d = None <-> c = StepInto) ->
  (forall a, keeps (added c n) (k a)) ->
  keeps (added c (S n))
        (bind (_store_step_info (step_name c) po pdb frame d) k).
Proof.
  intros Hd Hk s. unfold bind.
  pose proof (adds_store c 0 po pdb frame d Hd s) as Hs.
  destruct (_store_step_info _ _ _ _ _ s) as [[a| |] s1] eqn:E; simpl in *;
    try discriminate E.
  apply (added_trans c 1 n s s1); [done | apply Hk].
Qed.

Lemma adds_finish c n : keeps (added c n) _finish.
Proof.
  intros s. unfold _finish, bind, stdin_write, modify.
  destruct (process s) as [p|] eqn:Hp; simpl.
  - repeat split; simpl; [|by left].
    exists []. rewrite app_nil_r. split; [done|]. split; [simpl; lia|done].
  - apply added_calm, calm_refl.
Qed.

(** Splits a step into its calls, counting the entries it files. *)
Ltac grow :=
  repeat first
    [ apply adds_finish
    | apply adds_store; split; intros; congruence
    | apply adds_bind_store; [split; intros; congruence | intros ?]
    | apply adds_bind_calm; [solve [auto with calm | keep] | intros ?]
    | apply adds_calm; solve [auto with calm | keep]
    | match goal with
      | |- keeps _ (if ?x then _ else _) => destruct x
      end
    | progress cbv zeta ].

(** *** What a step that returns has filed *)

Lemma settled_calm c s s' : calm s s' -> settled c s -> settled c s'.
Proof.
  intros (_ & _ & _ & _ & Hh & Ht) [Hp | He].
  - left. unfold talked in Ht. rewrite Hp in Ht. by destruct (process s').
  - right. by rewrite Hh.
Qed.

Lemma triple_ret {A} (a : A) Q : triple Q (ret a) Q.
Proof. by intros s b s' HQ [= _ <-]. Qed.

Lemma triple_raise {A} e P Q : triple P (@raise A e) Q.
Proof. by intros s b s' _ [=]. Qed.

Lemma triple_bind {A B} P P' Q (m : M A) (k : A -> M B) :
  triple P m P' -> (forall a, triple P' (k a) Q) -> triple P (bind m k) Q.
Proof.
  intros Hm Hk s b s' HP. unfold bind.
  destruct (m s) as [[a| |] s1] eqn:E; [|done|done].
  intros Hb. exact (Hk a s1 b s' (Hm s a s1 HP E) Hb).
Qed.

Lemma triple_calm {A} c (m : M A) :
  keeps calm m -> triple (settled c) m (settled c).
Proof.
  intros Hm s a s' HP E. specialize (Hm s). rewrite E in Hm.
  by apply settled_calm with s.
Qed.

Lemma triple_bind_calm {A B} c Q (m : M A) (k : A -> M B) :
  keeps calm m -> (forall a, triple (settled c) (k a) Q) ->
  triple (settled c) (bind m k) Q.
Proof. intros Hm. apply triple_bind. by apply triple_calm. Qed.

Lemma triple_skip {A B} P Q (m : M A) (k : A -> M B) :
  (forall a, triple (fun _ => True) (k a) Q) -> triple P (bind m k) Q.
Proof. intros Hk. by apply triple_bind with (fun _ => True). Qed.

Lemma triple_store c P po pdb frame d :
  (d = None <-> c = StepInto) ->
  triple P (_store_step_info (step_name c) po pdb frame d) (settled c).
Proof.
  intros Hd s a s' _. unfold _store_step_info, modify. intros [= _ <-].
  right. simpl. rewrite last_snoc. eexists. split; [done|].
  by repeat split; simpl; try apply Hd.
Qed.

Lemma triple_finish c P : triple P _finish (settled c).
Proof.
  intros s a s' _. unfold _finish, bind, stdin_write, modify.
  destruct (process s); [|done]. intros [= _ <-]. by left.
Qed.

(** Follows a step to the call that files its entry. *)
Ltac settle :=
  repeat first
    [ apply triple_finish
    | apply triple_raise
    | apply triple_ret
    | match goal with
      | |- triple _ _ (settled ?c) =>
          apply (triple_store c); split; intros; congruence
      end
    | match goal with
      | |- triple _ _ (settled ?c) =>
          apply triple_bind with (P' := settled c);
          [apply (triple_store c); split; intros; congruence | intros ?]
      end
    | apply triple_bind_calm; [solve [auto with calm | keep] | intros ?]
    | apply triple_skip; intros ?
    | match goal with
      | |- triple _ (if ?x then _ else _) _ => destruct x
      end
    | progress cbv zeta ].

Section WithEval.
Variable eval_other : text -> M eval_result.
(** Evaluating what the debugger printed does nothing to the session but
    talk to its process. *)
Hypothesis eval_calm : forall raw, keeps calm (eval_other raw).
Variable llm_explain : option text -> Delta -> outcome text.
Variable builtin_message : exn -> text.
Variable fuel : nat.

Lemma step_over_adds :
  keeps (added StepOver 2) (step_over eval_other fuel).
Proof. unfold step_over. grow. Qed.

Lemma step_into_adds : keeps (added StepInto 1) (step_into eval_other).
Proof. unfold step_into. grow. Qed.

Lemma step_out_adds : keeps (added StepOut 1) (step_out eval_other fuel).
Proof. unfold step_out. grow. Qed.

Lemma step_over_settles :
  triple (fun _ => True) (step_over eval_other fuel) (settled StepOver).
Proof. unfold step_over. settle. Qed.

Lemma step_into_settles :
  triple (fun _ => True) (step_into eval_other) (settled StepInto).
Proof. unfold step_into. settle. Qed.

Lemma step_out_settles :
  triple (fun _ => True) (step_out eval_other fuel) (settled StepOut).
Proof. unfold step_out. settle. Qed.

Lemma run_command_adds c :
  keeps (added c (if c is StepOver then 2 else 1))
        (run_command eval_other fuel c).
Proof.
  destruct c; [apply step_over_adds | apply step_into_adds
               | apply step_out_adds].
Qed.

Lemma run_command_settles c :
  triple (fun _ => True) (run_command eval_other fuel c) (settled c).
Proof.
  destruct c; [apply step_over_settles | apply step_into_settles
               | apply step_out_settles].
Qed.

(** X13.  Provided the evaluation of what the debugger printed does no more
    to the session than talk to its process: whatever its outcome, a step
    leaves the name, the file and the table
    of calls of the session untouched and only appends to the history: at
    most two entries for [step_over] and one for the other steps, each
    filed under the name of the step, without an explanation, and with a
    delta unless the step is [step_into].  Either the session is finished
    afterwards, without process and without code, or its process was only
    talked to and its code is unchanged. *)
Theorem steps_only_append c s :
  added c (if c is StepOver then 2 else 1) s
        (run_command eval_other fuel c s).2.
Proof. apply run_command_adds. Qed.

Lemma recorded c s s' :
  run_command eval_other fuel c s = (Ok tt, s') -> is_finished s' = false ->
  exists e, last (execution_history s') = Some e /\ entry_of c e.
Proof.
  intros H Hf. destruct (run_command_settles c s tt s' I H) as [Hp|He];
    [|done].
  unfold is_finished in Hf. by rewrite Hp in Hf.
Qed.


Lemma explain_step_last s e :
  last (execution_history s) = Some e ->
  explain_step llm_explain s
  = match delta e with
    | None =>
        (Raise (Exception (str "Last step does not have delta information")),
         s)
    | Some d =>
        match llm_explain (code s) d with
        | Ok x =>
            (Ok x,
             set_history
               (removelast (execution_history s)
                ++ [mkEntry (step_type e) (program_output e) (pdb_output e)
                            (current_frame e) (delta e) (Some x)]) s)
        | Raise ex => (Raise ex, s)
        | OutOfFuel => (OutOfFuel, s)
        end
    end.
Proof.
  intros Hl. unfold explain_step, bind, get_self. rewrite Hl.
  destruct (delta e) as [d|]; [|done]. unfold lift.
  by destruct (llm_explain (code s) d).
Qed.

Lemma join_app_prefix sep (l1 l2 : list text) :
  exists more, join sep (l1 ++ l2) = join sep l1 ++ more.
Proof.
  induction l1 as [|x l1 [more IH]].
  - by exists (join sep l2).
  - destruct l1 as [|y l1].
    + destruct l2 as [|z l2]; [exists []; simpl; by rewrite app_nil_r|].
      by exists (sep ++ join sep (z :: l2)).
    + exists more. change (join sep ((x :: y :: l1) ++ l2))
        with (x ++ sep ++ join sep ((y :: l1) ++ l2)).
      rewrite IH. change (join sep (x :: y :: l1))
        with (x ++ sep ++ join sep (y :: l1)).
      by rewrite <- !app_assoc.
Qed.

(** X16.  Provided the evaluation of what the debugger printed does no more
    to the session than talk to its process: the program output shown to
    the client only grows, what is shown after a step starts with what was
    shown before it. *)
Theorem program_output_only_grows c s :
  exists more,
    get_cumulative_program_output (run_command eval_other fuel c s).2
    = get_cumulative_program_output s ++ more.
Proof.
  destruct (run_command_adds c s) as (_ & _ & _ & (l & Hl & _) & _).
  unfold get_cumulative_program_output. rewrite Hl, map_app, filter_app.
  apply join_app_prefix.
Qed.

(** X17.  [explain_step] changes nothing of the session but the explanation of
    the last entry of the history, and that only when it returns: then the
    language model was asked about the delta of that entry, and its answer
    is both returned and filed.  The program output shown to the client
    is unaffected. *)
Theorem explain_step_fills_one_field s :
  let r := explain_step llm_explain s in
  container_name r.2 = container_name s /\
  filename r.2 = filename s /\ code r.2 = code s /\
  user_defined_function_calls r.2 = user_defined_function_calls s /\
  process r.2 = process s /\
  removelast (execution_history r.2) = removelast (execution_history s) /\
  get_cumulative_program_output r.2 = get_cumulative_program_output s /\
  (forall x,
      r.1 = Ok x ->
      exists e d,
        last (execution_history s) = Some e /\ delta e = Some d /\
        llm_explain (code s) d = Ok x /\
        last (execution_history r.2)
        = Some (mkEntry (step_type e) (program_output e) (pdb_output e)
                        (current_frame e) (delta e) (Some x))) /\
  ((forall x, r.1 <> Ok x) -> r.2 = s).
Proof.
  cbv zeta. destruct (last (execution_history s)) as [e|] eqn:Hl.
  - rewrite (explain_step_last _ _ Hl).
    destruct (delta e) as [d|] eqn:Ed; [|by repeat split].
    destruct (llm_explain (code s) d) as [x| |] eqn:El;
      [|by repeat split..].
    apply last_Some in Hl as [h Hh]. cbn [fst snd].
    repeat split; try done; simpl.
    + by rewrite Hh, !removelast_last.
    + unfold get_cumulative_program_output. simpl.
      by rewrite Hh, removelast_last, !map_app.
    + intros y [= <-]. exists e, d. rewrite Hh at 1. rewrite !last_snoc.
      by rewrite Ed.
    + intros H. by destruct (H x).
  - unfold explain_step, bind, get_self. rewrite Hl. by repeat split.
Qed.

(** X15.  Provided the evaluation of what the debugger printed does no more
    to the session than talk to its process: the flag [has_explanation] of
    a state response tells what a request
    for an explanation will find.  After a state response without the flag
    (to [step_into]) the request is answered by the error that the last
    step has no delta; after one with the flag (to [step_over] or
    [step_out]) the last entry has a delta, and the request is answered by
    what the language model says of it. *)
Theorem has_explanation_is_honest s c sent s' msg st out flag :
  _handle_simple_command eval_other fuel s c sent
  = Continue (Some s') (sent ++ [RState msg st out flag]) ->
  (flag = false ->
   forall sent',
     handle_explain_step llm_explain builtin_message s' sent'
     = Continue (Some s')
         (sent' ++ [RError (str "Failed to generate explanation: Last step does not have delta information")])) /\
  (flag = true ->
   exists e d,
     last (execution_history s') = Some e /\ delta e = Some d /\
     forall sent',
       handle_explain_step llm_explain builtin_message s' sent'
       = match llm_explain (code s') d with
         | Ok x =>
             Continue
               (Some (set_history
                        (removelast (execution_history s')
                         ++ [mkEntry (step_type e) (program_output e)
                                     (pdb_output e) (current_frame e)
                                     (delta e) (Some x)]) s'))
               (sent' ++ [RExplanation x])
         | Raise ex =>
             if is_exception ex then
               Continue (Some s')
                 (sent' ++ [RError (str "Failed to generate explanation: "
                                    ++ exn_str builtin_message ex)])
             else Stop (Crashed ex) (Some s') sent'
         | OutOfFuel => Stop Hung (Some s') sent'
         end).
Proof.
  unfold _handle_simple_command.
  destruct (is_finished s) eqn:Hf.
  { intros [= _ H]. by apply app_inv_head in H. }
  destruct (run_command eval_other fuel c s) as [[[]| |] s1] eqn:E; try done.
  destruct (is_finished s1) eqn:Hf1.
  { intros [= _ H]. by apply app_inv_head in H. }
  pose proof (calm_get_state eval_other eval_calm s1) as Hc.
  destruct (get_state eval_other s1) as [[st1| |] s2] eqn:Eg; try done.
  intros [= <- H]. apply app_inv_head in H. injection H as _ _ _ Hflag.
  destruct (recorded c s s1 E Hf1) as (e & Hl & _ & _ & Hd).
  destruct Hc as (_ & _ & Hcode & _ & Hh & Ht). simpl in *.
  rewrite <- Hh in Hl.
  assert (is_finished s2 = false) as Hf2.
  { unfold is_finished, talked in *.
    destruct (process s1); [|done]. by destruct (process s2). }
  split.
  - intros ->. intros sent'. unfold handle_explain_step.
    rewrite Hf2, (explain_step_last _ _ Hl).
    assert (c = StepInto) as Hc by (by destruct c).
    apply Hd in Hc. by rewrite Hc.
  - intros ->. destruct (delta e) as [d|] eqn:Ed.
    + exists e, d. split; [done|]. split; [done|]. intros sent'.
      unfold handle_explain_step.
      rewrite Hf2, (explain_step_last _ _ Hl), Ed.
      destruct (llm_explain (code s2) d) as [x|ex|]; [done| |done].
      by destruct (is_exception ex).
    + assert (c = StepInto) as -> by by apply Hd. done.
Qed.

End WithEval.

Lemma steps_only_append_witness :
  (forall raw, keeps calm (no_eval raw)) /\
  added StepOver 2 paused_on_line_5
        (run_command no_eval 2 StepOver paused_on_line_5).2.
Proof.
  split; [exact calm_no_eval|].
  exact (steps_only_append no_eval calm_no_eval 2 StepOver paused_on_line_5).
Defined.

Lemma program_output_only_grows_witness :
  (forall raw, keeps calm (no_eval raw)) /\
  exists more,
    get_cumulative_program_output
      (run_command no_eval 2 StepOver paused_on_line_5).2
    = get_cumulative_program_output paused_on_line_5 ++ more.
Proof.
  split; [exact calm_no_eval|].
  exact (program_output_only_grows no_eval calm_no_eval 2 StepOver
                                   paused_on_line_5).
Defined.


Lemma has_explanation_is_honest_witness :
  (forall raw, keeps calm (no_eval raw)) /\
  _handle_simple_command no_eval 2 paused_for_gateway StepOver []
  = Continue (Some stepped_session)
             ([] ++ [RState [] stepped_state stepped_output true]) /\
  exists e d,
    last (execution_history stepped_session) = Some e /\ delta e = Some d /\
    forall sent',
      handle_explain_step no_llm some_message stepped_session sent'
      = match no_llm (code stepped_session) d with
        | Ok x =>
            Continue
              (Some (set_history
                       (removelast (execution_history stepped_session)
                        ++ [mkEntry (step_type e) (program_output e)
                                    (pdb_output e) (current_frame e)
                                    (delta e) (Some x)]) stepped_session))
              (sent' ++ [RExplanation x])
        | Raise ex =>
            if is_exception ex then
              Continue (Some stepped_session)
                (sent' ++ [RError (str "Failed to generate explanation: "
                                   ++ exn_str some_message ex)])
            else Stop (Crashed ex) (Some stepped_session) sent'
        | OutOfFuel => Stop Hung (Some stepped_session) sent'
        end.
Proof.
  assert (_handle_simple_command no_eval 2 paused_for_gateway StepOver []
          = Continue (Some stepped_session)
                     ([] ++ [RState [] stepped_state stepped_output true]))
    as H by (vm_compute; reflexivity).
  split; [exact calm_no_eval|]. split; [exact H|].
  exact (proj2 (has_explanation_is_honest
                  no_eval calm_no_eval no_llm some_message 2
                  paused_for_gateway StepOver
                  [] stepped_session [] stepped_state stepped_output true H)
               eq_refl).
Defined.

End StepFacts.

(** ** The loop of a step reads in every iteration *)

Module TerminationFacts.
Import PyStr Parser Json Session Gateway Fixtures SessionNotions PyStrFacts
  BridgeFacts SessionFacts CalmFacts.

Lemma shrunk_refl s : shrunk s s.
Proof. unfold shrunk. lia. Qed.

Lemma shrunk_trans s1 s2 s3 : shrunk s1 s2 -> shrunk s2 s3 -> shrunk s1 s3.
Proof. unfold shrunk. lia. Qed.

Lemma calm_shrunk s s' : calm s s' -> shrunk s s'.
Proof.
  intros (_ & _ & _ & _ & _ & Ht). unfold shrunk, remaining, talked in *.
  destruct (process s) as [p|], (process s') as [p'|]; try done.
  destruct Ht as (_ & [r Hr] & _). rewrite Hr, length_app. lia.
Qed.

Lemma shrinks_calm {A} (m : M A) : keeps calm m -> keeps shrunk m.
Proof. intros H s. apply calm_shrunk, H. Qed.

Lemma shrinks_store st po pdb frame d :
  keeps shrunk (_store_step_info st po pdb frame d).
Proof. intros s. unfold shrunk, remaining. simpl. lia. Qed.

Lemma shrinks_finish : keeps shrunk _finish.
Proof.
  intros s. unfold _finish, bind, stdin_write, modify, shrunk, remaining.
  destruct (process s) as [p|] eqn:E; simpl; rewrite ?E; lia.
Qed.

(** *** Methods without a loop *)

Lemma ends_ret {A} (a : A) s : ends (ret a) s.
Proof. done. Qed.

Lemma ends_raise {A} e s : ends (@raise A e) s.
Proof. done. Qed.

Lemma ends_bind {A B} (m : M A) (k : A -> M B) s :
  ends m s -> (forall a s1, m s = (Ok a, s1) -> ends (k a) s1) ->
  ends (bind m k) s.
Proof.
  unfold ends, bind. intros Hm Hk.
  destruct (m s) as [[a| |] s1]; simpl in *; [by apply Hk|done|done].
Qed.

Lemma always_bind {A B} (m : M A) (k : A -> M B) :
  (forall s, ends m s) -> (forall a s, ends (k a) s) ->
  forall s, ends (bind m k) s.
Proof. intros Hm Hk s. apply ends_bind; [apply Hm | intros; apply Hk]. Qed.

Lemma always_try_except {A} (m : M A) (h : exn -> M A) :
  (forall s, ends m s) -> (forall e s, ends (h e) s) ->
  forall s, ends (try_except m h) s.
Proof.
  intros Hm Hh s. specialize (Hm s). unfold ends, try_except in *.
  destruct (m s) as [[a|e|] s1]; simpl in *; [done| |done].
  destruct (is_exception e); [apply Hh | done].
Qed.

Lemma always_stdin_write cmd s : ends (stdin_write cmd) s.
Proof. unfold ends, stdin_write. by destruct (process s). Qed.

Lemma always_read_up_to pattern s : ends (_read_up_to pattern) s.
Proof.
  unfold ends, _read_up_to. destruct (process s) as [p|]; [|done].
  by destruct (read_loop _ _ _).
Qed.

Lemma always_ensure s : ends ensure_process_is_running s.
Proof.
  unfold ends, ensure_process_is_running.
  destruct (process s) as [p|]; [by destruct (returncode p)|done].
Qed.

Lemma always_get_self s : ends get_self s.
Proof. done. Qed.

Lemma always_modify f s : ends (modify f) s.
Proof. done. Qed.

Lemma subscript_ends v k : subscript v k <> OutOfFuel.
Proof.
  unfold subscript.
  destruct v; try done;
    repeat match goal with
           | |- context [match ?x with _ => _ end] => destruct x
           end; done.
Qed.

Lemma collect_params_ends vars names : collect_params vars names <> OutOfFuel.
Proof.
  induction names as [|name names IH]; simpl; [done|].
  pose proof (subscript_ends vars name).
  destruct (subscript vars name) as [x| |]; [|done|done].
  pose proof (subscript_ends x (JStr (str "repr_tree"))).
  destruct (subscript x _) as [y| |]; [|done|done].
  pose proof (subscript_ends y (JStr (str "value"))).
  destruct (subscript y _) as [z| |]; [|done|done].
  by destruct (collect_params vars names).
Qed.

Lemma parse_ends output_text s : ends (lift (parse_pdb_output output_text)) s.
Proof. apply ParserFacts.parse_pdb_output_ends. Qed.

Lemma json_loads_or_raises json_str s :
  ends (match json_loads json_str with
        | Raise JSONDecodeError => ret (JObj [])
        | loaded => lift loaded
        end) s.
Proof.
  pose proof (JsonFacts.json_loads_ends json_str) as H. unfold ends.
  destruct (json_loads json_str) as [v|e|]; [done| |done]. by destruct e.
Qed.

Lemma params_of_ends vars s : ends (lift (params_of vars)) s.
Proof.
  unfold ends, lift, params_of. simpl.
  destruct vars; simpl; try done; apply collect_params_ends.
Qed.

Create HintDb ends discriminated.
#[export] Hint Resolve always_stdin_write always_read_up_to always_ensure
  always_get_self always_modify params_of_ends parse_ends
  json_loads_or_raises : ends.

(** Splits a method without a loop into its calls. *)
Ltac finish :=
  repeat first
    [ apply ends_ret
    | apply ends_raise
    | solve [auto with ends]
    | apply always_bind; [intros ? | intros ? ?]
    | apply always_try_except; [intros ? | intros ? ?]
    | match goal with
      | |- ends (match ?x with _ => _ end) _ => destruct x
      end
    | progress cbv zeta ].

Lemma always_command cmd s : ends (command cmd) s.
Proof. revert s. unfold command, _read_user_and_pdb_output. finish. Qed.
#[export] Hint Resolve always_command : ends.

Lemma always_pdb_next s : ends pdb_next s.
Proof. revert s. unfold pdb_next. finish. Qed.
Lemma always_pdb_step s : ends pdb_step s.
Proof. revert s. unfold pdb_step. finish. Qed.
Lemma always_pdb_return s : ends pdb_return s.
Proof. revert s. unfold pdb_return. finish. Qed.
Lemma always_pdb_where s : ends pdb_where s.
Proof. revert s. unfold pdb_where. finish. Qed.
Lemma always_pdb_up s : ends pdb_up s.
Proof. revert s. unfold pdb_up. finish. Qed.
Lemma always_pdb_list s : ends pdb_list s.
Proof. revert s. unfold pdb_list. finish. Qed.
Lemma always_pdb_p expr s : ends (pdb_p expr) s.
Proof. revert s. unfold pdb_p. finish. Qed.
Lemma always_pdb_continue s : ends pdb_continue s.
Proof. revert s. unfold pdb_continue. finish. Qed.
#[export] Hint Resolve always_pdb_next always_pdb_step always_pdb_return
  always_pdb_where always_pdb_up always_pdb_list always_pdb_p
  always_pdb_continue : ends.

Lemma always_is_exception_raised s : ends is_exception_raised s.
Proof. revert s. unfold is_exception_raised. finish. Qed.
Lemma always_capture_exception_info s : ends _capture_exception_info s.
Proof. revert s. unfold _capture_exception_info. finish. Qed.
Lemma always_is_in_generator s : ends _is_in_generator_function s.
Proof. revert s. unfold _is_in_generator_function. finish. Qed.
Lemma always_finish s : ends _finish s.
Proof. revert s. unfold _finish. finish. Qed.
Lemma always_store st po pdb frame d s :
  ends (_store_step_info st po pdb frame d) s.
Proof. done. Qed.
#[export] Hint Resolve always_is_exception_raised
  always_capture_exception_info always_is_in_generator always_finish
  always_store : ends.

(** *** Every command makes progress *)

(** A command that returns has read at least one character, unless the
    process had closed its output. *)
Lemma command_progress cmd s r s1 :
  command cmd s = (Ok r, s1) ->
  (remaining s1 < remaining s)%nat \/ closed s1.
Proof.
  unfold command, bind, ensure_process_is_running, stdin_write,
    _read_user_and_pdb_output, bind, _read_up_to, ret.
  destruct (process s) as [p|] eqn:Hp; [|done].
  destruct (returncode p) eqn:Hr; [done|]. rewrite Hp. simpl.
  destruct (read_loop PDB_PROMPT [] (stdout p)) as [o rest] eqn:E.
  unfold lift. destruct (parse_pdb_output _) as [parsed| |]; [|done|done].
  intros [= _ <-]. unfold remaining, closed. rewrite Hp. simpl.
  destruct (read_loop_inv _ _ _ _ _ E) as (Heq & _ & [[_ Hne] | [-> _]]).
  - left. simpl in Heq. rewrite <- Heq, length_app.
    destruct o; [done|]. simpl. lia.
  - right. eexists. by rewrite Hr.
Qed.

Lemma pdb_where_progress s frames s1 :
  pdb_where s = (Ok frames, s1) ->
  (remaining s1 < remaining s)%nat \/ closed s1.
Proof.
  unfold pdb_where, bind.
  destruct (command (str "w") s) as [[r| |] s'] eqn:E; [|done|done].
  destruct r.1.1; [|done]. intros [= _ <-]. by eapply command_progress.
Qed.

Lemma closed_calm s s' : calm s s' -> closed s -> closed s'.
Proof.
  intros (_ & _ & _ & _ & _ & Ht) (p & Hp & Hr & Ho).
  unfold talked in Ht. rewrite Hp in Ht.
  destruct (process s') as [p'|] eqn:Hp'; [|done].
  destruct Ht as (_ & [r Hread] & Hrc). exists p'. split; [done|].
  split; [congruence|]. rewrite Ho in Hread.
  symmetry in Hread. by apply app_eq_nil in Hread as [_ ->].
Qed.

Lemma closed_raised s : closed s -> (is_exception_raised s).1 = Ok true.
Proof.
  intros (p & Hp & Hr & Ho). unfold is_exception_raised, pdb_p, bind.
  by rewrite (command_closed_stream _ _ _ Hp Hr Ho).
Qed.

Section WithEval.
Variable eval_other : text -> M eval_result.
(** Evaluating what the debugger printed does nothing to the session but
    talk to its process, and returns or raises. *)
Hypothesis eval_calm : forall raw, keeps calm (eval_other raw).
Hypothesis eval_ends : forall raw s, ends (eval_other raw) s.

Lemma always_py_eval raw s : ends (py_eval eval_other raw) s.
Proof.
  unfold py_eval. destruct raw; [done|].
  destruct (eval_literal _); [done | apply eval_ends].
Qed.
Hint Resolve always_py_eval : ends.

Lemma always_get_local_vars max_depth max_children s :
  ends (get_local_vars eval_other max_depth max_children) s.
Proof. revert s. unfold get_local_vars. finish. Qed.
Hint Resolve always_get_local_vars : ends.

Lemma always_get_current_frame s : ends (get_current_frame eval_other) s.
Proof. revert s. unfold get_current_frame. finish. Qed.
Hint Resolve always_get_current_frame : ends.

Lemma always_get_state s : ends (get_state eval_other) s.
Proof.
  revert s. unfold get_state, can_step_into, can_step_out. finish.
Qed.
Hint Resolve always_get_state : ends.

(** The rest of a method ends within [n] when each of its calls does and
    none of them gives the process more to write. *)
Lemma within_bind {A B} n (m : M A) (k : A -> M B) :
  keeps shrunk m -> ends_within n m -> (forall a, ends_within n (k a)) ->
  ends_within n (bind m k).
Proof.
  intros Hs Hm Hk s Hr. apply ends_bind; [by apply Hm|].
  intros a s1 E. apply Hk. specialize (Hs s). rewrite E in Hs.
  unfold shrunk in Hs. simpl in Hs. lia.
Qed.

Lemma within_always {A} n (m : M A) : (forall s, ends m s) -> ends_within n m.
Proof. intros H s _. apply H. Qed.

(** Splits a method into its calls, down to its loop. *)
Ltac halt :=
  repeat first
    [ solve [auto]
    | apply within_always; solve [auto with ends | intros ?; finish]
    | apply within_bind;
      [ first [ apply shrinks_calm; solve [auto with calm | keep]
              | apply shrinks_store
              | apply shrinks_finish ]
      | | intros ? ]
    | match goal with
      | |- ends_within _ (match ?x with _ => _ end) => destruct x
      end
    | progress cbv zeta ].

(** The loop of [_step_over_and_capture_calls] ends when it is given more
    fuel than the process has characters left to write: every iteration
    but the last reads at least one. *)
Lemma capture_loop_ends fuel :
  forall idx calls outs,
    ends_within fuel (capture_loop eval_other fuel idx calls outs).
Proof.
  induction fuel as [|fuel IH]; intros idx calls outs s Hr; [lia|].
  rewrite capture_loop_S.
  apply ends_bind; [auto with ends|]. intros frames s1 Hw.
  destruct (scan_current frames 0 idx) as [i|]; [|done]. cbv zeta.
  apply ends_bind; [auto with ends|]. intros stepped s2 Hs.
  apply ends_bind; [auto with ends|]. intros raised s3 He.
  destruct raised; [revert s3 He; intros s3 _; revert s3; finish|].
  assert (remaining s3 < fuel)%nat as Hr3.
  { pose proof (calm_pdb_step s1) as C2. rewrite Hs in C2.
    pose proof (calm_is_exception_raised s2) as C3. rewrite He in C3.
    simpl in C2, C3.
    destruct (pdb_where_progress _ _ _ Hw) as [Hlt | Hc].
    - apply calm_shrunk in C2, C3. unfold shrunk in *. lia.
    - apply (closed_calm _ _ C2), closed_raised in Hc.
      rewrite He in Hc. done. }
  revert s3 Hr3 He. intros s3 Hr3 _. revert s3 Hr3.
  change (ends_within fuel
            (new_frames <- pdb_where ;;
             if (length (take (i + 1) frames) <? length new_frames)%nat then
               match last new_frames with
               | None => raise IndexError
               | Some callee =>
                   let function_name := function callee in
                   vars <- get_local_vars eval_other 4 64 ;;
                   params <- lift (params_of vars) ;;
                   is_in_generator <- _is_in_generator_function ;;
                   if is_in_generator : bool then
                     pdb_up ;;;
                     nexted <- pdb_next ;;
                     ret (join [newline]
                               ((outs ++ [stepped.1]) ++ [nexted.1]),
                          nexted.2, calls)
                   else
                     returned <- pdb_return ;;
                     capture_loop eval_other fuel (Some i)
                       (calls ++ [Call function_name params returned.2])
                       ((outs ++ [stepped.1]) ++ [returned.1.1])
               end
             else
               ret (join [newline] (outs ++ [stepped.1]), stepped.2, calls))).
  halt.
Qed.

Hint Resolve capture_loop_ends : ends.

Lemma within_capture_delta fuel :
  ends_within fuel (_step_over_and_capture_delta eval_other fuel).
Proof.
  unfold _step_over_and_capture_delta, _step_over_and_capture_calls. halt.
  apply capture_loop_ends.
Qed.

(** X18.  The loop of [_step_over_and_capture_calls] reads at least one
    character of the debugger's output in every iteration but its last.  So
    when the debugger writes fewer than [fuel] characters before it closes
    its output, and the evaluation of what it printed returns or raises
    and leaves the session alone, the loop leaves before its iteration
    number [fuel] is over, by returning or by raising; and so does
    [_step_over_and_capture_delta]. *)
Theorem capture_loop_reads_in_every_iteration fuel s :
  (remaining s < fuel)%nat ->
  ends (_step_over_and_capture_calls eval_other fuel) s /\
  ends (_step_over_and_capture_delta eval_other fuel) s.
Proof.
  intros Hr. split; [by apply capture_loop_ends|].
  by apply within_capture_delta.
Qed.

End WithEval.

Lemma no_eval_ends raw s : ends (no_eval raw) s.
Proof. done. Qed.

Lemma capture_loop_reads_in_every_iteration_witness :
  (forall raw, keeps calm (no_eval raw)) /\
  (forall raw s, ends (no_eval raw) s) /\
  (remaining dies_during_step < 200)%nat /\
  ends (_step_over_and_capture_calls no_eval 200) dies_during_step /\
  ends (_step_over_and_capture_delta no_eval 200) dies_during_step.
Proof.
  assert (remaining dies_during_step < 200)%nat as H by (vm_compute; lia).
  split; [exact calm_no_eval|]. split; [exact no_eval_ends|].
  split; [exact H|].
  exact (capture_loop_reads_in_every_iteration
           no_eval calm_no_eval no_eval_ends 200 dies_during_step H).
Defined.

End TerminationFacts.

(** ** The bridge: one answer for each command *)

Module SyncFacts.
Import PyStr Parser Json Session Gateway Fixtures Notions SessionNotions Runs
  PyStrFacts BridgeFacts SessionFacts.

(** The loop stops at the first buffer that ends with the pattern. *)
Lemma read_loop_first pattern post :
  forall x acc,
    x <> [] -> endswith (acc ++ x) pattern = true ->
    (forall m m', x = m ++ m' -> m <> [] -> m' <> [] ->
                  endswith (acc ++ m) pattern = false) ->
    read_loop pattern acc (x ++ post) = (acc ++ x, post).
Proof.
  induction x as [|c x IH]; intros acc Hx He Hm; [done|]. simpl.
  destruct x as [|d x].
  - by rewrite He.
  - rewrite (Hm [c] (d :: x)); try done.
    rewrite (IH (acc ++ [c])); try done.
    + by rewrite <- app_assoc.
    + by rewrite <- app_assoc.
    + intros m m' Hmm Hn Hn'. rewrite <- app_assoc.
      apply (Hm (c :: m) m'); try done. simpl. by rewrite Hmm.
Qed.

Lemma occurs_at_app p s i more : occurs_at p s i -> occurs_at p (s ++ more) i.
Proof.
  intros [post H]. destruct (decide (i <= length s)%nat) as [Hi|Hi].
  - exists (post ++ more). by rewrite drop_app_le, H, app_assoc.
  - rewrite drop_ge in H by lia. symmetry in H.
    apply app_eq_nil in H as [-> ->]. by exists (drop i (s ++ more)).
Qed.

Lemma replace_from_skip (l old new : text) :
  replace_from (length l) l old new = [].
Proof. induction l as [|c l IH]; simpl; done. Qed.

(** Removing a pattern that occurs only at the end removes that end. *)
Lemma replace_from_at_end (old : text) :
  old <> [] ->
  forall pre,
    (forall j, (j < length pre)%nat -> ~ occurs_at old (pre ++ old) j) ->
    replace_from 0 (pre ++ old) old [] = pre.
Proof.
  intros Ho. induction pre as [|c pre IH]; intros Hfirst.
  - destruct old as [|o old'] eqn:Eo; [done|]. rewrite <- Eo.
    assert (startswith old old = true) as Hs
        by (apply startswith_spec; exists []; by rewrite app_nil_r).
    rewrite Eo at 1. cbn [replace_from app]. rewrite <- Eo, Hs, Eo.
    cbn [length app]. rewrite Nat.sub_succ, Nat.sub_0_r.
    apply replace_from_skip.
  - cbn [replace_from app].
    assert (startswith (c :: pre ++ old) old = false) as ->.
    { destruct (startswith _ _) eqn:E; [|done].
      apply startswith_spec in E as [r Hr]. exfalso.
      apply (Hfirst 0%nat); [simpl; lia|]. by exists r. }
    f_equal. apply IH. intros j Hj [post Hp].
    apply (Hfirst (S j)); [simpl; lia|]. by exists post.
Qed.

Lemma replace_at_end (pre old : text) :
  old <> [] ->
  (forall j, (j < length pre)%nat -> ~ occurs_at old (pre ++ old) j) ->
  replace (pre ++ old) old [] = pre.
Proof.
  intros Ho H. unfold replace. destruct old as [|o old'] eqn:Eo; [done|].
  rewrite <- Eo in *. by apply replace_from_at_end.
Qed.

Lemma read_up_to_first pattern s p pre post :
  process s = Some p -> pattern <> [] ->
  stdout p = pre ++ pattern ++ post ->
  first_at pattern (stdout p) (length pre) ->
  _read_up_to pattern s
  = (Ok (pre ++ pattern),
     set_process (Some (mkPopen (stdin p) post (returncode p))) s).
Proof.
  intros Hp Hne Ho [_ Hfirst]. unfold _read_up_to. rewrite Hp, Ho.
  rewrite app_assoc.
  rewrite (read_loop_first pattern post (pre ++ pattern) []); [done|..].
  - by destruct pre, pattern.
  - apply endswith_spec. by exists pre.
  - intros m m' Hmm Hm Hm'. simpl.
    destruct (endswith m pattern) eqn:E; [|done]. exfalso.
    apply endswith_spec in E as [r ->].
    apply (Hfirst (length r)).
    + apply (f_equal length) in Hmm. rewrite !length_app in Hmm.
      destruct m'; [done|]. simpl in Hmm. lia.
    + exists (m' ++ post). rewrite Ho, app_assoc, Hmm, <- !app_assoc.
      by rewrite drop_app_length.
Qed.

(** X19.  [_read_up_to] reads up to the first occurrence of the pattern and not
    a character further: when the pattern first occurs in what the process
    will write right after [pre], the method returns [pre] followed by the
    pattern and leaves all that comes after it unread. *)
Theorem read_up_to_stops_at_first_marker pattern s p pre post :
  process s = Some p -> pattern <> [] ->
  stdout p = pre ++ pattern ++ post ->
  first_at pattern (stdout p) (length pre) ->
  _read_up_to pattern s
  = (Ok (pre ++ pattern),
     set_process (Some (mkPopen (stdin p) post (returncode p))) s).
Proof.
  apply read_up_to_first.
Qed.

(** X20.  A command consumes exactly one answer: when the debugger will write
    [answer], then the prompt (for the first time), then [rest], the
    command writes its line to the process, returns what the parser and
    the search for the markers make of [answer] without the prompt (or
    raises what the parser raises on it), and leaves [rest] for the next
    command. *)
Theorem command_consumes_one_answer cmd s p answer rest :
  process s = Some p -> returncode p = None ->
  stdout p = answer ++ PDB_PROMPT ++ rest ->
  first_at PDB_PROMPT (stdout p) (length answer) ->
  command cmd s
  = (outcome_map (split_user_and_pdb_output answer) (parse_pdb_output answer),
     set_process
       (Some (mkPopen (stdin p ++ [cmd ++ [newline]]) rest None)) s).
Proof.
  intros Hp Hr Ho Hfirst.
  set (p1 := mkPopen (stdin p ++ [cmd ++ [newline]]) (stdout p) None).
  set (s1 := set_process (Some p1) s).
  assert (ensure_process_is_running s = (Ok tt, s)) as H1
      by (unfold ensure_process_is_running; by rewrite Hp, Hr).
  assert (stdin_write (cmd ++ [newline]) s = (Ok tt, s1)) as H2
      by (unfold stdin_write; by rewrite Hp, Hr).
  assert (_read_up_to PDB_PROMPT s1
          = (Ok (answer ++ PDB_PROMPT),
             set_process (Some (mkPopen (stdin p1) rest (returncode p1))) s1))
    as H3 by (by apply read_up_to_first).
  unfold command.
  rewrite (bind_ok _ _ _ _ _ H1), (bind_ok _ _ _ _ _ H2),
    (ParserFacts.read_user_and_pdb_output_after _ _ _ H3).
  rewrite replace_at_end; [done | done |].
  intros j Hj Hocc. destruct Hfirst as [_ Hfirst]. apply (Hfirst j Hj).
  rewrite Ho, app_assoc. by apply occurs_at_app.
Qed.

Lemma read_up_to_stops_at_first_marker_witness :
  let s := session_on (str "ab(Pdb) cd") in
  let p := mkPopen [] (str "ab(Pdb) cd") None in
  process s = Some p /\ PDB_PROMPT <> [] /\
  stdout p = str "ab" ++ PDB_PROMPT ++ str "cd" /\
  first_at PDB_PROMPT (stdout p) (length (str "ab")) /\
  _read_up_to PDB_PROMPT s
  = (Ok (str "ab" ++ PDB_PROMPT),
     set_process (Some (mkPopen (stdin p) (str "cd") (returncode p))) s).
Proof.
  assert (PDB_PROMPT <> []) as Hn by discriminate.
  assert (first_at PDB_PROMPT (str "ab(Pdb) cd") (length (str "ab"))) as Hf
      by (apply find_Some_first_at; reflexivity).
  split; [reflexivity|]. split; [exact Hn|]. split; [reflexivity|].
  split; [exact Hf|].
  exact (read_up_to_stops_at_first_marker
           PDB_PROMPT (session_on (str "ab(Pdb) cd"))
           (mkPopen [] (str "ab(Pdb) cd") None) (str "ab") (str "cd")
           eq_refl Hn eq_refl Hf).
Defined.

Lemma command_consumes_one_answer_witness :
  let p := mkPopen [] (transcript [where_main_5; no_locals]) None in
  process two_answers = Some p /\ returncode p = None /\
  stdout p = where_main_5 ++ PDB_PROMPT ++ no_locals ++ PDB_PROMPT /\
  first_at PDB_PROMPT (stdout p) (length where_main_5) /\
  command (str "w") two_answers
  = (outcome_map (split_user_and_pdb_output where_main_5)
                 (parse_pdb_output where_main_5),
     set_process
       (Some (mkPopen (stdin p ++ [str "w" ++ [newline]])
                      (no_locals ++ PDB_PROMPT) None)) two_answers).
Proof.
  assert (stdout (mkPopen [] (transcript [where_main_5; no_locals]) None)
          = where_main_5 ++ PDB_PROMPT ++ no_locals ++ PDB_PROMPT) as Ho
      by (vm_compute; reflexivity).
  assert (first_at PDB_PROMPT
                   (stdout (mkPopen [] (transcript [where_main_5; no_locals])
                                    None))
                   (length where_main_5)) as Hf
      by (apply find_Some_first_at; vm_compute; reflexivity).
  split; [reflexivity|]. split; [reflexivity|]. split; [exact Ho|].
  split; [exact Hf|].
  exact (command_consumes_one_answer
           (str "w") two_answers
           (mkPopen [] (transcript [where_main_5; no_locals]) None)
           where_main_5 (no_locals ++ PDB_PROMPT) eq_refl eq_refl Ho Hf).
Defined.

End SyncFacts.

(** ** The parser: where the frames begin *)

Module FrameFacts.
Import PyStr Parser Json Session Fixtures Notions PyStrFacts ParserFacts.

Lemma find_frame_start_Some lines i :
  find_frame_start lines = Some i ->
  exists before l after,
    lines = before ++ l :: after /\ length before = i /\
    Forall (fun l => looks_like_frame l = false) before /\
    looks_like_frame l = true.
Proof.
  revert i. induction lines as [|l ls IH]; intros i; simpl; [done|].
  destruct (looks_like_frame l) eqn:E.
  - intros [= <-]. by exists [], l, ls.
  - destruct (find_frame_start ls) as [k|]; [|done]. intros [= <-].
    destruct (IH k eq_refl) as (before & l' & after & -> & <- & HF & Hl).
    exists (l :: before), l', after. repeat split; try done.
    by constructor.
Qed.

Lemma find_frame_start_None_inv lines :
  find_frame_start lines = None ->
  Forall (fun l => looks_like_frame l = false) lines.
Proof.
  induction lines as [|l ls IH]; simpl; [done|].
  destruct (looks_like_frame l) eqn:E; [done|].
  destruct (find_frame_start ls); [done|]. intros _. by constructor; auto.
Qed.

(** Every frame uses up at least one line. *)
Lemma parse_frames_length (ls : list text) frames :
  parse_frames ls = Ok frames -> (length frames <= length ls)%nat.
Proof.
  intros H. destruct (proj1 (parse_frames_headers ls) _ H) as (hs & Hs & HF).
  rewrite <- (Forall2_length _ _ _ HF). by apply sublist_length.
Qed.

Lemma split_lines_nonempty s : split_lines s <> [].
Proof. induction s as [|c s IH]; simpl; [done|]. by repeat case_match. Qed.

Lemma split_lines_no_newline s :
  Forall (fun l => newline ∉ l) (split_lines s).
Proof.
  induction s as [|c s IH]; simpl.
  - constructor; [apply not_elem_of_nil | done].
  - destruct (ceq c newline) eqn:E.
    + constructor; [apply not_elem_of_nil | done].
    + destruct (split_lines s) as [|l ls] eqn:Es;
        [by destruct (split_lines_nonempty s)|].
      inversion IH as [|? ? Hl Hls]; subst. constructor; [|done].
      apply not_elem_of_cons. split; [|done].
      intros <-. unfold ceq in E. by rewrite Ascii.eqb_refl in E.
Qed.

Lemma split_lines_line l :
  (newline ∉ l) -> split_lines l = [l].
Proof.
  induction l as [|c l IH]; [done|]. intros Hn.
  apply not_elem_of_cons in Hn as [Hc Hl]. simpl.
  destruct (ceq c newline) eqn:E; [apply ceq_true in E; by subst|].
  by rewrite IH.
Qed.

Lemma split_lines_app l t :
  (newline ∉ l) -> split_lines (l ++ newline :: t) = l :: split_lines t.
Proof.
  induction l as [|c l IH]; intros Hn; simpl.
  - done.
  - apply not_elem_of_cons in Hn as [Hc Hl].
    destruct (ceq c newline) eqn:E; [apply ceq_true in E; by subst|].
    by rewrite IH.
Qed.

Lemma split_lines_join ls :
  ls <> [] -> Forall (fun l => newline ∉ l) ls ->
  split_lines (join [newline] ls) = ls.
Proof.
  induction ls as [|l ls IH]; [done|]. intros _ HF.
  inversion HF as [|? ? Hl Hls]; subst.
  destruct ls as [|l2 ls]; [by apply split_lines_line|].
  change (join [newline] (l :: l2 :: ls))
    with (l ++ newline :: join [newline] (l2 :: ls)).
  rewrite split_lines_app by done. f_equal. by apply IH.
Qed.

(** X21.  The parser cuts the text before the first line that looks like a
    frame.  No line of the program output it returns looks like a frame;
    either no line of the text does, and the text is returned whole
    without frames, or the program output is made of the lines before the
    first such line, and the frames are read from the lines from there on,
    at most one frame for each of them; the parser raises only what
    reading these frames raises. *)
Theorem program_output_stops_before_first_frame_line output_text :
  (forall r,
      parse_pdb_output output_text = Ok r ->
      Forall (fun l => looks_like_frame l = false) (split_lines r.1)) /\
  (Forall (fun l => looks_like_frame l = false) (split_lines output_text) /\
   parse_pdb_output output_text = Ok (output_text, []) \/
   exists before l after,
     split_lines output_text = before ++ l :: after /\
     Forall (fun l => looks_like_frame l = false) before /\
     looks_like_frame l = true /\
     parse_pdb_output output_text
     = outcome_map (pair (join [newline] before))
                   (parse_frames (l :: after)) /\
     forall frames,
       parse_frames (l :: after) = Ok frames ->
       (length frames <= S (length after))%nat).
Proof.
  unfold parse_pdb_output.
  destruct (find_frame_start (split_lines output_text)) as [i|] eqn:E.
  - destruct (find_frame_start_Some _ _ E)
      as (before & l & after & Hs & <- & HF & Hl).
    rewrite Hs, take_app_length, drop_app_length. split.
    + intros r Hr. unfold outcome_map, outcome_bind in Hr.
      destruct (parse_frames (l :: after)) as [frames| |]; [|done|done].
      injection Hr as <-. cbn [fst].
      destruct before as [|b before]; [by constructor|].
      rewrite split_lines_join; [done|done|].
      pose proof (split_lines_no_newline output_text) as Hn.
      rewrite Hs in Hn. by apply Forall_app in Hn as [Hn _].
    + right. exists before, l, after. repeat split; try done.
      intros frames Hf. by apply parse_frames_length in Hf.
  - apply find_frame_start_None_inv in E. split; [by intros r [= <-]|].
    by left.
Qed.

Lemma program_output_stops_before_first_frame_line_witness :
  parse_pdb_output return_from_helper = Ok parsed_return /\
  Forall (fun l => looks_like_frame l = false) (split_lines parsed_return.1).
Proof.
  split; [reflexivity|].
  exact (proj1 (program_output_stops_before_first_frame_line
                  return_from_helper) parsed_return eq_refl).
Defined.

Lemma occurs_at_take p s i j :
  p <> [] -> occurs_at p (take i s) j -> occurs_at p s j /\ (j < i)%nat.
Proof.
  intros Hp [post H].
  assert (j < length (take i s))%nat as Hj.
  { destruct (decide (j < length (take i s))%nat); [done|].
    rewrite drop_ge in H by lia. by destruct p. }
  split; [|rewrite length_take in Hj; lia].
  exists (post ++ drop i s).
  rewrite <- (take_drop i s) at 1. rewrite drop_app_le by lia.
  by rewrite H, app_assoc.
Qed.

(** X22.  A label with an arrow is split at its first arrow into the function
    and the return value, which together with the arrow make up the label
    again, and the function holds no arrow; a label without an arrow is
    the function, and there is no return value. *)
Theorem name_and_retval_split function_name :
  let r := _get_function_name_and_retval function_name in
  absent (str "->") r.1 /\
  match r.2 with
  | Some retval => function_name = r.1 ++ str "->" ++ retval
  | None => function_name = r.1
  end.
Proof.
  cbv zeta. unfold _get_function_name_and_retval.
  destruct (find function_name (str "->")) as [idx|] eqn:E; cbn [fst snd].
  - destruct (find_Some _ _ _ E) as (Hle & [post Ho] & Hmin). split.
    + intros j Hj. apply occurs_at_take in Hj as [Hj Hlt]; [|done].
      by apply (Hmin j).
    + rewrite <- (take_drop idx function_name) at 1. f_equal.
      rewrite Ho. simpl. f_equal. f_equal.
      rewrite <- (drop_drop function_name), Ho. done.
  - split; [by apply find_None_absent | done].
Qed.

End FrameFacts.

(** ** The gateway: what it sends *)

Module ProtocolFacts.
Import PyStr Parser Json Session Gateway Notions PyStrFacts.

Section Loop.
Variable eval_other : text -> M eval_result.
Variable llm_explain : option text -> Delta -> outcome text.
Variable b64_source : text.
Variable code_file : text -> option text.
Variable get_function_calls : text -> gmap Z (list text).
Variable create_debug_process : text -> outcome Popen.
Variable uuid4 : nat -> text.
Variable builtin_message : exn -> text.
Variable fuel : nat.

Abbreviation handle :=
  (handle_message eval_other llm_explain b64_source code_file
                  get_function_calls create_debug_process uuid4
                  builtin_message fuel).
Abbreviation loop :=
  (message_loop eval_other llm_explain b64_source code_file
                get_function_calls create_debug_process uuid4
                builtin_message fuel).
Abbreviation start :=
  (handle_start_session eval_other b64_source code_file get_function_calls
                        create_debug_process uuid4 builtin_message).

(** Closes a goal on what was sent once the handler is evaluated. *)
Ltac sent_more :=
  simpl;
  first [ exists []; rewrite app_nil_r; repeat split; simpl; (done || lia)
        | eexists [_]; repeat split; simpl; (done || lia)
        | eexists [_; _]; rewrite <- ?app_assoc; repeat split; simpl;
          (done || lia)
        | eexists [_; _; _]; rewrite <- ?app_assoc; repeat split; simpl;
          (done || lia) ].

Lemma start_session_sends message sent :
  match start message sent with
  | inl (Some _, sent') =>
      exists new, sent' = sent ++ new /\ length new = 2%nat
  | inl (None, sent') => exists new, sent' = sent ++ new /\ length new = 1%nat
  | inr (how, sent') =>
      how <> Disconnected /\
      exists new, sent' = sent ++ new /\ (length new <= 1)%nat
  end.
Proof.
  unfold handle_start_session.
  repeat case_match; simplify_eq; try (split; [done|]); sent_more.
Qed.

Lemma simple_command_sends s c sent :
  let r := _handle_simple_command eval_other fuel s c sent in
  result_ending r <> Some Disconnected /\
  exists new,
    result_sent r = sent ++ new /\ (length new <= 3)%nat /\
    (result_ending r = None -> (1 <= length new)%nat).
Proof.
  cbv zeta. unfold _handle_simple_command.
  repeat case_match; simplify_eq; (split; [done|]); sent_more.
Qed.

Lemma explain_step_sends s sent :
  let r := handle_explain_step llm_explain builtin_message s sent in
  result_ending r <> Some Disconnected /\
  exists new,
    result_sent r = sent ++ new /\ (length new <= 3)%nat /\
    (result_ending r = None -> (1 <= length new)%nat).
Proof.
  cbv zeta. unfold handle_explain_step.
  repeat case_match; simplify_eq; (split; [done|]); sent_more.
Qed.

Lemma handle_message_sends message session sent :
  let r := handle message session sent in
  result_ending r <> Some Disconnected /\
  exists new,
    result_sent r = sent ++ new /\ (length new <= 3)%nat /\
    (result_ending r = None -> (1 <= length new)%nat).
Proof.
  cbv zeta. unfold handle_message.
  destruct (msg_type message) as [kind|]; [|split; [done|sent_more]].
  destruct (is_type kind "start_session").
  { pose proof (start_session_sends message sent) as H.
    destruct (start message sent) as [[[s'|] sent']|[how sent']]; simpl.
    - destruct H as (new & -> & Hn). split; [done|]. exists new.
      repeat split; (done || lia).
    - destruct H as (new & -> & Hn). split; [done|]. exists new.
      repeat split; (done || lia).
    - destruct H as (Hd & new & -> & Hn). split; [congruence|]. exists new.
      repeat split; (done || lia). }
  destruct (is_type kind "restart").
  { pose proof (start_session_sends message sent) as H.
    destruct (start message sent) as [[[s'|] sent']|[how sent']]; simpl.
    - destruct H as (new & -> & Hn). split; [done|].
      exists (new ++ [RRestartComplete]).
      rewrite app_assoc, length_app. simpl. repeat split; (done || lia).
    - destruct H as (new & -> & Hn). split; [done|]. exists new.
      repeat split; (done || lia).
    - destruct H as (Hd & new & -> & Hn). split; [congruence|]. exists new.
      repeat split; (done || lia). }
  destruct session as [s|]; [|split; [done|sent_more]].
  destruct (is_type kind "step_over"); [apply simple_command_sends|].
  destruct (is_type kind "explain_step"); [apply explain_step_sends|].
  destruct (is_type kind "step_into"); [apply simple_command_sends|].
  destruct (is_type kind "step_out"); [apply simple_command_sends|].
  split; [done|sent_more].
Qed.

(** X23.  What the gateway has sent stays sent, and every request it handles is
    answered: a connection that receives the messages of [inbox] sends at
    most three messages for each of them after those sent before, and at
    least one for each of them when it lasts until the client
    disconnects. *)
Theorem gateway_answers_every_request inbox session sent :
  let r := message_loop eval_other llm_explain b64_source code_file
                        get_function_calls create_debug_process uuid4
                        builtin_message fuel inbox session sent in
  exists new,
    r.2 = sent ++ new /\
    (length new <= 3 * length inbox)%nat /\
    (r.1.1 = Disconnected -> (length inbox <= length new)%nat).
Proof.
  cbv zeta. revert session sent.
  induction inbox as [|message inbox IH]; intros session sent.
  - exists []. simpl. by rewrite app_nil_r.
  - cbn [message_loop].
    destruct (handle_message_sends message session sent)
      as (Hnd & new & Hs & Hle & Hone).
    destruct (handle message session sent) as [s' sent'|how s' sent'];
      simpl in Hs, Hone, Hnd; subst.
    + destruct (IH s' (sent ++ new)) as (new' & -> & Hle' & Hd).
      exists (new ++ new'). rewrite app_assoc, length_app.
      specialize (Hone eq_refl). simpl. repeat split; [lia|].
      intros H. specialize (Hd H). lia.
    + exists new. simpl. split; [done|]. split; [lia|].
      intros ->. done.
Qed.

End Loop.

End ProtocolFacts.

(** ** A new session, and the scan for the current frame *)

Module StartFacts.
Import PyStr Parser Json Session Gateway Fixtures Notions SessionNotions Runs
  PyStrFacts SessionFacts CalmFacts.

Section Loop.
Variable llm_explain : option text -> Delta -> outcome text.
Variable b64_source : text.
Variable code_file : text -> option text.
Variable get_function_calls : text -> gmap Z (list text).
Variable create_debug_process : text -> outcome Popen.

Lemma calm_inject : keeps calm (_inject_build_var_tree b64_source).
Proof. unfold _inject_build_var_tree, _read_user_and_pdb_output. keep. Qed.

(** X24.  A session that could be created is not finished, is named after the
    project, holds the contents of the source file and the calls found in
    it, and has an empty history: a request for an explanation made before
    any step fails, and the language model is not asked. *)
Theorem new_session_starts_clean project_id s :
  new_session b64_source code_file get_function_calls create_debug_process
              project_id
  = Ok s ->
  is_finished s = false /\
  container_name s = str "project-1-" ++ project_id /\
  filename s = str "main.py" /\
  code s = code_file project_id /\
  (exists contents,
      code_file project_id = Some contents /\
      user_defined_function_calls s = get_function_calls contents) /\
  execution_history s = [] /\
  explain_step llm_explain s
  = (Raise (Exception (str "No execution history available for explanation")),
     s).
Proof.
  unfold new_session. destruct (contains project_id (str "-")); [done|].
  destruct (code_file project_id) as [contents|]; [|done].
  destruct (create_debug_process project_id) as [proc| |]; [|done|done].
  unfold init.
  set (s0 := mkSession _ _ _ _ _ _).
  assert (keeps calm (_read_user_and_pdb_output ;;;
                      _inject_build_var_tree b64_source)) as Hk.
  { apply (keeps_bind calm calm_trans); [|intros _; apply calm_inject].
    unfold _read_user_and_pdb_output. keep. }
  specialize (Hk s0).
  destruct ((_read_user_and_pdb_output ;;; _inject_build_var_tree b64_source)
              s0) as [[[]| |] s1]; try done.
  intros [= <-]. destruct Hk as (H1 & H2 & H3 & H4 & H5 & H6). simpl in *.
  split.
  { unfold is_finished, talked in *. simpl in H6. by destruct (process s1). }
  split; [done|]. split; [done|]. split; [done|].
  split; [by exists contents|]. split; [done|].
  unfold explain_step, bind, get_self. by rewrite H5.
Qed.

End Loop.

(** The index the scan for the current frame leaves behind. *)
Lemma scan_current_from frames :
  forall i idx0,
    match List.find is_current frames with
    | Some _ =>
        exists k frame,
          scan_current frames i idx0 = Some (i + k)%nat /\
          frames !! k = Some frame /\ is_current frame = true /\
          Forall (fun f => is_current f = false) (take k frames)
    | None =>
        scan_current frames i idx0
        = if frames is [] then idx0 else Some (i + length frames - 1)%nat
    end.
Proof.
  induction frames as [|f fs IH]; intros i idx0; [done|]. simpl.
  destruct (is_current f) eqn:E.
  - exists 0%nat, f. rewrite Nat.add_0_r. by repeat split.
  - specialize (IH (S i) (Some i)).
    destruct (List.find is_current fs) as [g|].
    + destruct IH as (k & frame & -> & Hk & Hc & HF).
      exists (S k), frame. split; [f_equal; lia|]. split; [done|].
      split; [done|]. simpl. by constructor.
    + rewrite IH. destruct fs; simpl; f_equal; lia.
Qed.

(** X25.  The frame index with which [_step_over_and_capture_calls] cuts the
    list of frames: the index of the first frame marked current when there
    is one; otherwise the index of the last frame, or, without any frame,
    the index left by the previous iteration of the loop. *)
Theorem scan_current_result frames idx0 :
  match List.find is_current frames with
  | Some _ =>
      exists k frame,
        scan_current frames 0 idx0 = Some k /\
        frames !! k = Some frame /\ is_current frame = true /\
        Forall (fun f => is_current f = false) (take k frames)
  | None =>
      scan_current frames 0 idx0
      = if frames is [] then idx0 else Some (length frames - 1)%nat
  end.
Proof. apply (scan_current_from frames 0 idx0). Qed.

Lemma new_session_starts_clean_witness :
  new_session [] one_file no_calls fresh_process (str "7")
  = Ok started_session /\
  is_finished started_session = false /\
  container_name started_session = str "project-1-" ++ str "7" /\
  filename started_session = str "main.py" /\
  code started_session = one_file (str "7") /\
  (exists contents,
      one_file (str "7") = Some contents /\
      user_defined_function_calls started_session = no_calls contents) /\
  execution_history started_session = [] /\
  explain_step no_llm started_session
  = (Raise (Exception (str "No execution history available for explanation")),
     started_session).
Proof.
  assert (new_session [] one_file no_calls fresh_process (str "7")
          = Ok started_session) as H by (vm_compute; reflexivity).
  split; [exact H|].
  exact (new_session_starts_clean no_llm [] one_file no_calls fresh_process
                                  (str "7") started_session H).
Defined.

End StartFacts.

(** ** A session without a running process *)

Module HaltedFacts.
Import PyStr Parser Json Session Gateway Fixtures SessionNotions PyStrFacts
  SessionFacts.

Lemma refused_bind {A B} (m : M A) (k : A -> M B) s :
  refused m s -> refused (bind m k) s.
Proof. intros H. unfold refused, bind. by rewrite H. Qed.

Lemma refused_ensure s : halted s -> refused ensure_process_is_running s.
Proof.
  unfold halted, refused, ensure_process_is_running.
  destruct (process s) as [p|]; [|done]. by destruct (returncode p).
Qed.

Lemma refused_command cmd s : halted s -> refused (command cmd) s.
Proof. intros H. by apply refused_bind, refused_ensure. Qed.

(** Peels the calls that follow the refused one. *)
Ltac refuse :=
  repeat first [ by apply refused_command
               | assumption
               | apply refused_bind ].

Section WithEval.
Variable eval_other : text -> M eval_result.
Variable fuel : nat.

Lemma refused_get_current_frame s :
  halted s -> refused (get_current_frame eval_other) s.
Proof. intros H. unfold get_current_frame, pdb_where. refuse. Qed.

Lemma refused_get_state s : halted s -> refused (get_state eval_other) s.
Proof.
  intros H. unfold get_state. apply refused_bind.
  by apply refused_get_current_frame.
Qed.

(** X26.  A session without a running process refuses every command of the
    bridge, every query and every step with "Program finished" and stays
    as it is; only [_is_in_generator_function] swallows the refusal and
    answers [False]. *)
Theorem halted_session_refuses s :
  halted s ->
  (forall cmd, refused (command cmd) s) /\
  refused pdb_next s /\ refused pdb_step s /\ refused pdb_return s /\
  refused pdb_where s /\ refused pdb_up s /\ refused pdb_list s /\
  refused pdb_longlist s /\ (forall expr, refused (pdb_p expr) s) /\
  (forall location, refused (pdb_break location) s) /\
  refused pdb_continue s /\
  refused is_exception_raised s /\ refused _capture_exception_info s /\
  (forall max_depth max_children,
      refused (get_local_vars eval_other max_depth max_children) s) /\
  refused (get_current_frame eval_other) s /\
  refused (can_step_into eval_other) s /\
  refused (can_step_out eval_other) s /\
  refused (get_state eval_other) s /\
  refused (_step_over_and_capture_calls eval_other (S fuel)) s /\
  refused (_step_over_and_capture_delta eval_other fuel) s /\
  refused (step_over eval_other fuel) s /\
  refused (step_into eval_other) s /\
  refused (step_out eval_other fuel) s /\
  _is_in_generator_function s = (Ok false, s).
Proof.
  intros H.
  pose proof (refused_get_current_frame s H) as Hf.
  pose proof (refused_get_state s H) as Hs.
  repeat split; try intros;
    try (unfold pdb_next, pdb_step, pdb_return, pdb_where, pdb_up, pdb_list,
         pdb_longlist, pdb_p, pdb_break, pdb_continue, is_exception_raised,
         _capture_exception_info, get_local_vars, can_step_into, can_step_out,
         _step_over_and_capture_delta, step_over, step_into, step_out,
         pdb_p, pdb_list, pdb_where, pdb_return;
         solve [refuse]).
  unfold _is_in_generator_function, try_except.
  assert (refused (to_eval <- pdb_p (str "$_frame.f_code.co_flags & 0x20") ;;
                   ret (negb (text_eqb (strip to_eval) (str "0")))) s) as Hr
      by (unfold pdb_p; refuse).
  unfold refused in Hr. by rewrite Hr.
Qed.

End WithEval.

Lemma halted_session_refuses_witness :
  halted finished_session /\
  refused (step_over no_eval 2) finished_session /\
  refused (get_state no_eval) finished_session /\
  refused pdb_where finished_session /\
  _is_in_generator_function finished_session = (Ok false, finished_session).
Proof.
  assert (halted finished_session) as H by exact I.
  pose proof (halted_session_refuses no_eval 2 finished_session H) as R.
  split; [exact H|]. split; [apply R|]. split; [apply R|].
  split; apply R.
Defined.

End HaltedFacts.

(** ** The check for a pending exception *)

Module ExceptionCheckFacts.
Import PyStr Exceptions Parser Json Session Gateway Fixtures Notions SessionNotions
  PyStrFacts SessionFacts TerminationFacts HaltedFacts.

Section WithEval.
Variable eval_other : text -> M eval_result.



End WithEval.



End ExceptionCheckFacts.

(** ** The calls a step captures *)

Module CaptureFacts.
Import PyStr Parser Json Session Fixtures SessionNotions CaptureNotions Runs
  PyStrFacts SessionFacts.

Lemma returns_ret {A} (a : A) (Q : A -> Prop) : Q a -> returns (ret a) Q.
Proof. by intros H s b s' [= <- _]. Qed.

Lemma returns_raise {A} e (Q : A -> Prop) : returns (raise e) Q.
Proof. by intros s b s' [=]. Qed.

Lemma returns_bind {A B} (m : M A) (k : A -> M B) (Q : B -> Prop) :
  (forall a, returns (k a) Q) -> returns (bind m k) Q.
Proof.
  intros Hk s b s'. unfold bind.
  destruct (m s) as [[a| |] s1]; [|done|done]. apply Hk.
Qed.

Section WithEval.
Variable eval_other : text -> M eval_result.

(** The loop only appends to the calls it has captured: completed calls
    while it goes on, and an exception only when it leaves. *)
Lemma capture_loop_shape fuel :
  forall idx calls outs,
    Forall is_call calls ->
    returns (capture_loop eval_other fuel idx calls outs)
            (fun r => exists more,
                        r.2 = calls ++ more /\ calls_then_exception more).
Proof.
  induction fuel as [|fuel IH]; intros idx calls outs HF; [done|].
  rewrite capture_loop_S.
  apply returns_bind. intros frames.
  destruct (scan_current frames 0 idx) as [i|]; [|apply returns_raise].
  cbv zeta. apply returns_bind. intros stepped.
  apply returns_bind. intros [|].
  - apply returns_bind. intros info. apply returns_ret. simpl.
    eexists. split; [done|]. exists []. split; [done|]. right. by eexists _, _.
  - apply returns_bind. intros new_frames.
    destruct (_ <? _)%nat.
    + destruct (last new_frames) as [callee|]; [|apply returns_raise].
      cbv zeta. apply returns_bind. intros vars.
      apply returns_bind. intros params.
      apply returns_bind. intros [|].
      * apply returns_bind. intros _. apply returns_bind. intros nexted.
        apply returns_ret. simpl. exists []. rewrite app_nil_r.
        split; [done|]. exists []. split; [done|]. by left.
      * apply returns_bind. intros returned.
        intros s r s' H.
        assert (Forall is_call
                       (calls ++ [Call (function callee) params returned.2]))
          as HF' by (apply Forall_app; split; [done|by constructor]).
        destruct (IH _ _ _ HF' s r s' H) as (more & Hr & completed & Hc & Hm).
        exists (Call (function callee) params returned.2 :: more).
        split; [by rewrite Hr, <- app_assoc|].
        exists (Call (function callee) params returned.2 :: completed).
        split; [by constructor|].
        destruct Hm as [-> | (x & tb & ->)]; [by left|]. right.
        by exists x, tb.
    + apply returns_ret. simpl. exists []. rewrite app_nil_r.
      split; [done|]. exists []. split; [done|]. by left.
Qed.

Lemma capture_calls_shape fuel :
  returns (_step_over_and_capture_calls eval_other fuel)
          (fun r => calls_then_exception r.2).
Proof.
  intros s r s' E.
  destruct (capture_loop_shape fuel None [] [] (List.Forall_nil _) s r s' E)
    as (more & Hr & Hm).
  by rewrite Hr.
Qed.

(** X27.  The calls captured for one line are completed calls, followed by at
    most one exception, which is then the last entry: after an exception
    nothing more is captured.  This holds of the calls in the delta that
    [_step_over_and_capture_delta] returns, which are those that
    [_step_over_and_capture_calls] captured. *)
Theorem captured_calls_end_with_the_exception fuel s r s' :
  _step_over_and_capture_delta eval_other fuel s = (Ok r, s') ->
  calls_then_exception (captured_calls r.2).
Proof.
  unfold _step_over_and_capture_delta, bind.
  destruct (pdb_list s) as [[context| |] s1]; [|done|done].
  destruct (get_current_frame eval_other s1) as [[frame| |] s2];
    [|done|done].
  cbv zeta.
  destruct (_step_over_and_capture_calls eval_other fuel s2)
    as [[c| |] s3] eqn:E; [|done|done].
  destruct (contains _ _); [done|]. intros [= <- <-]. simpl.
  exact (capture_calls_shape fuel s2 c s3 E).
Qed.

End WithEval.

Lemma captured_calls_end_with_the_exception_witness :
  _step_over_and_capture_delta no_eval 2 before_capture
  = (Ok captured, after_capture) /\
  calls_then_exception (captured_calls captured.2).
Proof.
  assert (_step_over_and_capture_delta no_eval 2 before_capture
          = (Ok captured, after_capture)) as H by (vm_compute; reflexivity).
  split; [exact H|].
  exact (captured_calls_end_with_the_exception
           no_eval 2 before_capture captured after_capture H).
Defined.

End CaptureFacts.
